(** * oscd-rename-ieds: search-expression compiler and rename dialog state

    A shallow embedding of [src/oscd-rename-ieds.ts].

    Strings are sequences of code units.  The development models the code
    units below 256 (the Latin-1 range of UTF-16) as [ascii], and a string as
    [list ascii]; [str] turns a literal into such a list. *)

From Stdlib Require Import Ascii String List Bool Arith NArith Lia Permutation.
From stdpp Require Import base list strings.
Import ListNotations.

#[local] Open Scope list_scope.
#[local] Open Scope nat_scope.

Definition str (s : string) : list ascii := list_ascii_of_string s.

Definition code (c : ascii) : nat := nat_of_ascii c.

Definition ascii_eqb (a b : ascii) : bool := Ascii.eqb a b.

Definition string_eqb (a b : list ascii) : bool :=
  bool_decide (a = b).

(** ** Regular expressions (the fragment of ECMAScript the source uses) *)

Module RegExp.

(** [WhiteSpace] and [LineTerminator] code units below 256: TAB, LF, VT, FF,
    CR, SP and NBSP.  This is the set of [\s] and of [String.prototype.trim]. *)
Definition isWhiteSpace (c : ascii) : bool :=
  let n := code c in
  ((9 <=? n) && (n <=? 13)) || (n =? 32) || (n =? 160).

(** [LineTerminator] code units below 256: LF and CR.  [.] excludes them. *)
Definition isLineTerminator (c : ascii) : bool :=
  let n := code c in (n =? 10) || (n =? 13).

(** [toUpperCase] of a single code unit, as [Canonicalize] uses it without
    the [u] flag.  The two code units whose upper case lies outside the
    modelled range (U+00B5, U+00FF) and the one whose upper case is two code
    units (U+00DF) are their own representatives. *)
Definition toUpperCase (c : ascii) : ascii :=
  let n := code c in
  if (97 <=? n) && (n <=? 122) then ascii_of_nat (n - 32)
  else if (224 <=? n) && (n <=? 254) && negb (n =? 247) then ascii_of_nat (n - 32)
  else c.

Definition Canonicalize (ignoreCase : bool) (c : ascii) : ascii :=
  if ignoreCase then toUpperCase c else c.

(** Members of a character class. *)
Inductive ClassAtom : Type :=
| CChar (c : ascii)            (* a single character *)
| CRange (lo hi : ascii)       (* lo-hi *)
| CSpace.                      (* \s *)

Definition atom_mem (a : ClassAtom) (c : ascii) : bool :=
  match a with
  | CChar d => ascii_eqb d c
  | CRange lo hi => (code lo <=? code c) && (code c <=? code hi)
  | CSpace => isWhiteSpace c
  end.

Definition set_mem (items : list ClassAtom) (c : ascii) : bool :=
  existsb (fun a => atom_mem a c) items.

Definition all_code_units : list ascii := map ascii_of_nat (seq 0 256).

(** CharacterSetMatcher: some member [a] of the set has
    [Canonicalize a = Canonicalize ch]. *)
Definition class_mem (ignoreCase : bool) (items : list ClassAtom) (ch : ascii) : bool :=
  if ignoreCase
  then existsb (fun a => set_mem items a
                         && ascii_eqb (toUpperCase a) (toUpperCase ch))
               all_code_units
  else set_mem items ch.

Inductive regex : Type :=
| Empty                                             (* the empty alternative *)
| Chr (c : ascii)                                   (* a pattern character *)
| Dot                                               (* . *)
| Class (invert : bool) (items : list ClassAtom)    (* [...] and [^...] *)
| Seq (r1 r2 : regex)                               (* r1 r2 *)
| Alt (r1 r2 : regex)                               (* r1|r2 *)
| Repeat (min : nat) (max : option nat) (r : regex) (* greedy quantifier *)
| Lookahead (r : regex).                            (* (?=r) *)

Definition Star (r : regex) : regex := Repeat 0 None r.
Definition Plus (r : regex) : regex := Repeat 1 None r.

(** A match state is the part of the input that is still to be read (the
    fragment has no assertion that looks behind); a continuation returns the
    state at the end of the whole match, or [None] for failure. *)
Definition State : Type := list ascii.
Definition Continuation : Type := State -> option State.
Definition Matcher : Type := State -> Continuation -> option State.

(** RepeatMatcher of the language specification, greedy case.  [fuel] bounds
    the number of iterations: an iteration either lowers [min] or, by the
    empty check, consumes input. *)
Fixpoint RepeatMatcher (m : Matcher) (fuel min : nat) (max : option nat)
    (x : State) (c : Continuation) {struct fuel} : option State :=
  match max with
  | Some 0 => c x
  | _ =>
    match fuel with
    | 0 => if min =? 0 then c x else None
    | S fuel' =>
      let d : Continuation := fun y =>
        if (min =? 0) && (length y =? length x) then None
        else RepeatMatcher m fuel' (pred min) (option_map pred max) y c in
      if min =? 0
      then match m x d with
           | Some z => Some z
           | None => c x
           end
      else m x d
    end
  end.

Fixpoint compile (ignoreCase : bool) (r : regex) {struct r} : Matcher :=
  fun x c =>
  match r with
  | Empty => c x
  | Chr a =>
    match x with
    | ch :: y =>
      if ascii_eqb (Canonicalize ignoreCase a) (Canonicalize ignoreCase ch)
      then c y else None
    | [] => None
    end
  | Dot =>
    match x with
    | ch :: y => if isLineTerminator ch then None else c y
    | [] => None
    end
  | Class invert items =>
    match x with
    | ch :: y => if xorb invert (class_mem ignoreCase items ch) then c y else None
    | [] => None
    end
  | Seq r1 r2 => compile ignoreCase r1 x (fun y => compile ignoreCase r2 y c)
  | Alt r1 r2 =>
    match compile ignoreCase r1 x c with
    | Some z => Some z
    | None => compile ignoreCase r2 x c
    end
  | Repeat min max r' =>
    RepeatMatcher (compile ignoreCase r') (min + length x) min max x c
  | Lookahead r' =>
    match compile ignoreCase r' x (fun y => Some y) with
    | Some _ => c x
    | None => None
    end
  end.

(** A regular expression object: its pattern and its [i] flag. *)
Record t : Type := mk { pattern : regex; ignoreCase : bool }.

(** One match attempt at the start of [x]; the result is the input left
    after the match. *)
Definition matchAt (re : t) (x : State) : option State :=
  compile (ignoreCase re) (pattern re) x (fun y => Some y).

(** [RegExp.prototype.test] of an expression without the [g] flag: the first
    start index, from 0 on, at which the pattern matches. *)
Fixpoint test (re : t) (s : list ascii) {struct s} : bool :=
  match matchAt re s with
  | Some _ => true
  | None =>
    match s with
    | [] => false
    | _ :: s' => test re s'
    end
  end.

(** The matches of an expression with the [g] flag, left to right, as
    [String.prototype.match] collects them.  [skip] counts the code units of
    the previous match that are still to be passed over; after an empty
    match the search moves on by one code unit. *)
Fixpoint matchAll_from (re : t) (skip : nat) (s : list ascii) {struct s}
    : list (list ascii) :=
  match skip with
  | S k =>
    match s with
    | [] => []
    | _ :: s' => matchAll_from re k s'
    end
  | 0 =>
    match matchAt re s with
    | Some rest =>
      let n := length s - length rest in
      take n s :: match s with
                  | [] => []
                  | _ :: s' => matchAll_from re (pred n) s'
                  end
    | None =>
      match s with
      | [] => []
      | _ :: s' => matchAll_from re 0 s'
      end
    end
  end.

Definition matchAll (re : t) (s : list ascii) : list (list ascii) :=
  matchAll_from re 0 s.

(** [String.prototype.replace] with a [g] expression; [by_] maps the matched
    text to its replacement. *)
Fixpoint replace_from (re : t) (by_ : list ascii -> list ascii) (skip : nat)
    (s : list ascii) {struct s} : list ascii :=
  match skip with
  | S k =>
    match s with
    | [] => []
    | _ :: s' => replace_from re by_ k s'
    end
  | 0 =>
    match matchAt re s with
    | Some rest =>
      let n := length s - length rest in
      by_ (take n s) ++
        match s with
        | [] => []
        | ch :: s' =>
          if n =? 0 then ch :: replace_from re by_ 0 s'
          else replace_from re by_ (pred n) s'
        end
    | None =>
      match s with
      | [] => []
      | ch :: s' => ch :: replace_from re by_ 0 s'
      end
    end
  end.

Definition replace (re : t) (by_ : list ascii -> list ascii) (s : list ascii)
    : list ascii :=
  replace_from re by_ 0 s.

(** *** The pattern grammar

    [parsePattern] reads the source text of a pattern as the [RegExp]
    constructor does, for the fragment made of pattern characters, [.],
    escaped syntax characters, the greedy quantifiers [*], [+], [?] and [{n}],
    [(?:...)], [(?=...)] and [|].  [None] stands for a [SyntaxError] and for
    source text outside this fragment. *)

Definition isSyntaxCharacter (c : ascii) : bool :=
  existsb (ascii_eqb c)
    ["^"; "$"; "\"; "."; "*"; "+"; "?"; "("; ")"; "["; "]"; "{"; "}"; "|"]%char.

Definition isDecimalDigit (c : ascii) : bool :=
  (48 <=? code c) && (code c <=? 57).

Fixpoint parseDecimalDigits (acc : nat) (s : list ascii) {struct s}
    : nat * list ascii :=
  match s with
  | ch :: s' =>
    if isDecimalDigit ch then parseDecimalDigits (10 * acc + (code ch - 48)) s'
    else (acc, s)
  | [] => (acc, s)
  end.

(** A quantifier after the atom [a], if there is one. *)
Definition parseQuantifier (a : regex) (s : list ascii)
    : option (regex * list ascii) :=
  let greedy (q : regex) (rest : list ascii) :=
    match rest with
    | "?"%char :: _ => None
    | _ => Some (q, rest)
    end in
  match s with
  | "*"%char :: s' => greedy (Repeat 0 None a) s'
  | "+"%char :: s' => greedy (Repeat 1 None a) s'
  | "?"%char :: s' => greedy (Repeat 0 (Some 1) a) s'
  | "{"%char :: d :: s' =>
    if isDecimalDigit d then
      match parseDecimalDigits 0 (d :: s') with
      | (n, "}"%char :: s'') => greedy (Repeat n (Some n) a) s''
      | _ => None
      end
    else None
  | "{"%char :: [] => None
  | _ => Some (a, s)
  end.

Definition parseTerm (parseDisjunction : list ascii -> option (regex * list ascii))
    (s : list ascii) : option (regex * list ascii) :=
  match s with
  | "("%char :: "?"%char :: "="%char :: s' =>
    match parseDisjunction s' with
    | Some (d, ")"%char :: s'') => Some (Lookahead d, s'')
    | _ => None
    end
  | "("%char :: "?"%char :: ":"%char :: s' =>
    match parseDisjunction s' with
    | Some (d, ")"%char :: s'') => parseQuantifier d s''
    | _ => None
    end
  | "."%char :: s' => parseQuantifier Dot s'
  | "\"%char :: ch :: s' =>
    if isSyntaxCharacter ch then parseQuantifier (Chr ch) s' else None
  | ch :: s' =>
    if isSyntaxCharacter ch then None else parseQuantifier (Chr ch) s'
  | [] => None
  end.

Fixpoint parseAlternative
    (parseDisjunction : list ascii -> option (regex * list ascii))
    (fuel : nat) (s : list ascii) {struct fuel} : option (regex * list ascii) :=
  match s with
  | [] => Some (Empty, s)
  | "|"%char :: _ => Some (Empty, s)
  | ")"%char :: _ => Some (Empty, s)
  | _ =>
    match fuel with
    | 0 => None
    | S fuel' =>
      match parseTerm parseDisjunction s with
      | Some (t, s') =>
        match parseAlternative parseDisjunction fuel' s' with
        | Some (a, s'') => Some (Seq t a, s'')
        | None => None
        end
      | None => None
      end
    end
  end.

Fixpoint parseDisjunction (fuel : nat) (s : list ascii) {struct fuel}
    : option (regex * list ascii) :=
  match fuel with
  | 0 => None
  | S fuel' =>
    match parseAlternative (parseDisjunction fuel') fuel' s with
    | Some (a, "|"%char :: s') =>
      match parseDisjunction fuel' s' with
      | Some (d, s'') => Some (Alt a d, s'')
      | None => None
      end
    | other => other
    end
  end.

Definition parsePattern (src : list ascii) : option regex :=
  match parseDisjunction (S (length src)) src with
  | Some (r, []) => Some r
  | _ => None
  end.

(** [new RegExp(src, flags)]; of the flags only [i] is modelled. *)
Definition new (src : list ascii) (i : bool) : option t :=
  match parsePattern src with
  | Some r => Some (mk r i)
  | None => None
  end.

End RegExp.

(** ** [getSearchRegex] *)

Import RegExp.

(** [/[.+^${}()|[\]\\]/g] *)
Definition escapeRe : RegExp.t :=
  mk (Class false [CChar "."; CChar "+"; CChar "^"; CChar "$"; CChar "{";
                   CChar "}"; CChar "("; CChar ")"; CChar "|"; CChar "[";
                   CChar "]"; CChar "\"]) false.

Definition dquote : ascii := ascii_of_nat 34.
Definition squote : ascii := "'".

(** The term expression [/(?:[^\sQ']+|['Q][^'Q]*[Q'])+/g], where Q stands for
    the double quote character. *)
Definition termRe : RegExp.t :=
  mk (Plus (Alt (Plus (Class true [CSpace; CChar dquote; CChar squote]))
                (Seq (Class false [CChar squote; CChar dquote])
                  (Seq (Star (Class true [CChar squote; CChar dquote]))
                       (Class false [CChar dquote; CChar squote])))))
     false.

(** [/\*/g], [/\?/g] and [/Q|'/g] (Q the double quote character) *)
Definition starRe : RegExp.t := mk (Chr "*") false.
Definition questionRe : RegExp.t := mk (Chr "?") false.
Definition quoteRe : RegExp.t := mk (Alt (Chr dquote) (Chr squote)) false.

(** [String.prototype.trim] *)
Fixpoint trimStart (s : list ascii) : list ascii :=
  match s with
  | ch :: s' => if isWhiteSpace ch then trimStart s' else s
  | [] => []
  end.

Definition trim (s : list ascii) : list ascii :=
  rev (trimStart (rev (trimStart s))).

(** [/.*/i] *)
Definition matchAllRe : RegExp.t := mk (Star Dot) true.

Definition getSearchRegex (searchExpression : list ascii) : option RegExp.t :=
  if string_eqb searchExpression []
  then Some matchAllRe
  else
    let terms : list (list ascii) :=
      RegExp.matchAll termRe
        (trim (RegExp.replace escapeRe (fun m => "\"%char :: m) searchExpression)) in
    let expandedTerms :=
      map (fun term =>
             RegExp.replace quoteRe (fun _ => [])
               (RegExp.replace questionRe (fun _ => str ".{1}")
                  (RegExp.replace starRe (fun _ => str ".*") term)))
          terms in
    let regexString :=
      map (fun term => str "(?=.*" ++ term ++ str ")") expandedTerms in
    RegExp.new (concat regexString ++ str ".*") true.

(** [getSearchRegex(raw).test(s)]: [None] only if no expression is built. *)
Definition searchTest (raw s : list ascii) : option bool :=
  match getSearchRegex raw with
  | Some re => Some (RegExp.test re s)
  | None => None
  end.

(** ** The rename dialog

    The state the handlers read and write: the [md-filled-text-field] of
    every list item, in list order, and the plugin's reactive properties. *)

Record TextField : Type := mkTextField {
  value : list ascii;            (* the proposed name *)
  dataOldName : list ascii;      (* data-old-name, the name in the document *)
  validationMessage : list ascii;(* set by setCustomValidity; empty = valid *)
  changed : bool;                (* class 'changed' *)
  userEdited : bool              (* platform: the value was last changed by a
                                    user edit, not by a script or by the
                                    value attribute *)
}.

Record Plugin : Type := mkPlugin {
  iedListUI : list TextField;
  allIedNamesValid : bool;
  iedsToRename : list (list ascii)
}.

(** The reason codes of the specification and the message the source shows
    for each. *)
Inductive Reason : Type :=
| EMPTY | PATTERN_MISMATCH | LENGTH_OUT_OF_RANGE | DUPLICATE | VALID.

Definition reasonMessage (r : Reason) : list ascii :=
  match r with
  | EMPTY => str "You must fill in this field."
  | PATTERN_MISMATCH => str "Please use A-Z,0-9 and _ and start with a letter."
  | LENGTH_OUT_OF_RANGE => str "IED name must be > 1 character and < 64 characters."
  | DUPLICATE => str "IED name must be unique."
  | VALID => []
  end.

(** *** Constraint validation of a text field

    The template declares [required], [minLength="1"], [maxLength="64"] and
    [pattern="[A-Za-z][0-9A-Za-z_]*"].  The [validity] flags the source reads
    are the platform's.  [valueMissing] and [patternMismatch] are derived from
    these attributes and the value alone: the pattern must match the whole
    value and does not apply to the empty value.  [tooLong] and [tooShort]
    are raised only for a value that was last changed by a user edit: a
    value that comes from the value attribute or that a script has assigned
    is never too long or too short, whatever its length.  The minimum length
    does not apply to the empty value. *)

Definition minLength : nat := 1.
Definition maxLength : nat := 64.

(** [[A-Za-z][0-9A-Za-z_]*] *)
Definition namePattern : regex :=
  Seq (Class false [CRange "A" "Z"; CRange "a" "z"])
      (Star (Class false [CRange "0" "9"; CRange "A" "Z"; CRange "a" "z"; CChar "_"])).

(** The pattern anchored at both ends, [^(?:pattern)$]. *)
Definition matchesWhole (r : regex) (v : list ascii) : bool :=
  match compile false r v (fun y => match y with [] => Some [] | _ => None end) with
  | Some _ => true
  | None => false
  end.

Definition valueMissing (v : list ascii) : bool := string_eqb v [].

Definition patternMismatch (v : list ascii) : bool :=
  negb (string_eqb v []) && negb (matchesWhole namePattern v).

Definition tooLong (iedElement : TextField) : bool :=
  userEdited iedElement && (maxLength <? length (value iedElement)).

Definition tooShort (iedElement : TextField) : bool :=
  userEdited iedElement && negb (string_eqb (value iedElement) [])
  && (length (value iedElement) <? minLength).

(** *** [duplicatedIedName]

    The guard on [iedListUI] and [doc] is not modelled: both exist while the
    dialog is rendered. *)
Definition duplicatedIedName (p : Plugin) (iedName : list ascii) : bool :=
  let newNames := map value (iedListUI p) in
  let iedNames := List.filter (fun name => string_eqb name iedName) newNames in
  negb (length iedNames =? 1).

Definition setCustomValidity (p : Plugin) (i : nat) (msg : list ascii) : Plugin :=
  mkPlugin
    (alter (fun el => mkTextField (value el) (dataOldName el) msg (changed el)
                                  (userEdited el))
           i (iedListUI p))
    (allIedNamesValid p) (iedsToRename p).

(** *** [customCheckValidity]

    The element is the [i]-th text field of the list; an index without an
    element is the guard's [return false]. *)
Definition customCheckValidity (p : Plugin) (i : nat) : Plugin * bool :=
  match iedListUI p !! i with
  | None => (p, false)
  | Some iedElement =>
    if valueMissing (value iedElement)
    then (setCustomValidity p i (reasonMessage EMPTY), false)
    else if patternMismatch (value iedElement)
    then (setCustomValidity p i (reasonMessage PATTERN_MISMATCH), false)
    else if tooLong iedElement || tooShort iedElement
    then (setCustomValidity p i (reasonMessage LENGTH_OUT_OF_RANGE), false)
    else if duplicatedIedName p (value iedElement)
    then (setCustomValidity p i (reasonMessage DUPLICATE), false)
    else (setCustomValidity p i (reasonMessage VALID), true)
  end.

(** [Array.from(querySelectorAll(...)).map(listIed => customCheckValidity(listIed))] *)
Fixpoint mapCustomCheckValidity (p : Plugin) (indices : list nat)
    : Plugin * list bool :=
  match indices with
  | [] => (p, [])
  | i :: rest =>
    let (p1, b) := customCheckValidity p i in
    let (p2, bs) := mapCustomCheckValidity p1 rest in
    (p2, b :: bs)
  end.

(** [.reduce((acc, current) => acc && current)], without an initial value:
    a [TypeError] ([None]) on the empty array. *)
Definition reduceAnd (bs : list bool) : option bool :=
  match bs with
  | [] => None
  | b :: rest => Some (fold_left andb rest b)
  end.

Definition includes (l : list (list ascii)) (x : list ascii) : bool :=
  existsb (string_eqb x) l.

(** *** The [@input] handler of [renderIedItem]

    An input event on the [i]-th text field, which then holds [newValue].
    [byUser] tells how the value got there: by an edit of the operator
    ([true]), or by a script that assigned it and dispatched the event
    ([false]).  The platform stores the value with that origin, then calls
    the handler. *)
Definition inputEvent (byUser : bool) (p : Plugin) (i : nat)
    (newValue : list ascii) : option Plugin :=
  match iedListUI p !! i with
  | None => None
  | Some target =>
    let oldName := dataOldName target in
    let p0 :=
      mkPlugin
        (<[i := mkTextField newValue oldName (validationMessage target)
                            (changed target) byUser]> (iedListUI p))
        (allIedNamesValid p) (iedsToRename p) in
    let (p1, _) := customCheckValidity p0 i in
    let (p2, results) :=
      mapCustomCheckValidity p1 (seq 0 (length (iedListUI p1))) in
    match reduceAnd results with
    | None => None
    | Some allValid =>
      let setChanged (b : bool) :=
        alter (fun el => mkTextField (value el) (dataOldName el)
                                     (validationMessage el) b (userEdited el))
              i (iedListUI p2) in
      if negb (string_eqb newValue oldName)
      then
        Some (mkPlugin (setChanged true) allValid
                (if includes (iedsToRename p2) oldName
                 then iedsToRename p2
                 else iedsToRename p2 ++ [oldName]))
      else
        Some (mkPlugin (setChanged false) allValid
                (List.filter (fun item => negb (string_eqb item oldName))
                             (iedsToRename p2)))
    end
  end.

(** The operator has changed the [i]-th text field to [newValue].  The field
    does not let the operator type beyond [maxLength]; which values an edit
    can leave there is the platform's matter and is not restricted here. *)
Definition onInput (p : Plugin) (i : nat) (newValue : list ascii) : option Plugin :=
  inputEvent true p i newValue.

(** *** Opening the dialog

    [render] creates one list item per IED of the document, in the order of
    the sorted descriptions; [renderIedItem] puts the IED's name into the
    value attribute and into [data-old-name].  [displayed] is the list of IED
    names in that order. *)
Definition renderIedItem (oldName : list ascii) : TextField :=
  mkTextField oldName oldName [] false false.

Definition render (displayed : list (list ascii)) : Plugin :=
  mkPlugin (map renderIedItem displayed) true [].

(** [run]: every field back to its old name, no message, no mark.  The
    value is assigned by the script, so it is no longer a user's edit. *)
Definition run (p : Plugin) : Plugin :=
  mkPlugin
    (map (fun listIed =>
            mkTextField (dataOldName listIed) (dataOldName listIed) [] false false)
         (iedListUI p))
    true [].

(** *** The Rename IEDs button

    [doc] is the list of the names of the document's IED elements, in
    document order.  For every list item the handler looks up an IED with the
    selector [:root > IED[name="..."]], in which it writes the item's old
    name as it is, and, if there is one, dispatches an update of that
    element's name; the host applies the edit to the document before the next
    item is handled.

    **** The selector

    Between the template's quotes the selector engine reads a CSS string
    (CSS Syntax Level 3, 3.3 and 4.3.5): a backslash starts an escape, a line
    break ends the string badly, and a quote in the old name ends the string
    before the template's quote does.  Code points are numbers, since an
    escape can name a code point above 255. *)

Definition codePoint (c : ascii) : N := N_of_ascii c.

(** U+FFFD *)
Definition REPLACEMENT_CHARACTER : N := 65533%N.

(** Preprocessing of the input: CR LF, CR and FF become LF, NUL becomes
    U+FFFD. *)
Fixpoint preprocess (input : list ascii) : list N :=
  match input with
  | [] => []
  | c :: rest =>
    if (codePoint c =? 13)%N then
      match rest with
      | c' :: rest' =>
        if (codePoint c' =? 10)%N then 10%N :: preprocess rest'
        else 10%N :: preprocess rest
      | [] => [10%N]
      end
    else if (codePoint c =? 12)%N then 10%N :: preprocess rest
    else if (codePoint c =? 0)%N then REPLACEMENT_CHARACTER :: preprocess rest
    else codePoint c :: preprocess rest
  end.

Definition isHexDigit (c : N) : bool :=
  ((48 <=? c) && (c <=? 57) || (65 <=? c) && (c <=? 70)
   || (97 <=? c) && (c <=? 102))%N.

Definition hexValue (c : N) : N :=
  (if c <=? 57 then c - 48 else if c <=? 70 then c - 55 else c - 87)%N.

Definition isNewline (c : N) : bool := (c =? 10)%N.

(** Newline, tab or space. *)
Definition isCssWhitespace (c : N) : bool :=
  ((c =? 10) || (c =? 9) || (c =? 32))%N.

(** The code point an escape of hex digits with the number [v] stands for:
    U+FFFD for zero, for a surrogate and beyond U+10FFFF. *)
Definition escapedCodePoint (v : N) : N :=
  (if (v =? 0) || (55296 <=? v) && (v <=? 57343) || (1114111 <? v)
   then REPLACEMENT_CHARACTER else v)%N.

(** What the selector engine makes of the selector text. *)
Inductive Selector : Type :=
| NameIs (s : list N)  (* [:root > IED[name="..."]], the string's value being [s] *)
| Invalid              (* not a selector: [querySelector] throws a SyntaxError *)
| Foreign.             (* the old name ends the string itself and goes on as
                          selector text of its own, or leaves the string
                          open: a selector that is not analysed here *)

(** The text after a string that the old name has closed itself, up to the
    template's quote.  An attribute selector goes on with white space and
    either its closing bracket or the modifier [i] or [s]; everything else
    makes the selector invalid, and so does the template's quote, which
    starts a second string.  Where a bracket, a modifier, an escape or a
    comment may start, the text is not analysed further. *)
Fixpoint afterString (rest : list N) : Selector :=
  match rest with
  | [] => Invalid
  | c :: rest' =>
    if isCssWhitespace c then afterString rest'
    else if ((c =? 93) || (c =? 105) || (c =? 73) || (c =? 115) || (c =? 83)
             || (c =? 92) || (c =? 47))%N
    then Foreign
    else Invalid
  end.

(** Where the tokenizer is within the string. *)
Inductive Escape : Type :=
| NoEscape
| Backslash                       (* after a backslash *)
| HexDigits (count : nat) (v : N). (* after a backslash and 1 to 6 hex digits *)

(** Consume a string token whose opening quote is the template's: [s] is the
    value read so far, [input] what is left of the preprocessed old name.
    At the end of the old name the template's quote follows, then the
    bracket. *)
Fixpoint consumeString (state : Escape) (s : list N) (input : list N)
    {struct input} : Selector :=
  match input with
  | [] =>
    match state with
    | NoEscape => NameIs s
    | HexDigits _ v => NameIs (s ++ [escapedCodePoint v])
    | Backslash => Foreign        (* the template's quote is escaped *)
    end
  | c :: rest =>
    let unescaped (s0 : list N) : Selector :=
      if (c =? 34)%N then afterString rest
      else if (c =? 92)%N then consumeString Backslash s0 rest
      else if isNewline c then Invalid
      else consumeString NoEscape (s0 ++ [c]) rest in
    match state with
    | NoEscape => unescaped s
    | Backslash =>
      if isNewline c then consumeString NoEscape s rest
      else if isHexDigit c then consumeString (HexDigits 1 (hexValue c)) s rest
      else consumeString NoEscape (s ++ [c]) rest
    | HexDigits count v =>
      if isHexDigit c && (count <? 6)
      then consumeString (HexDigits (S count) (16 * v + hexValue c)%N) s rest
      else if isCssWhitespace c
      then consumeString NoEscape (s ++ [escapedCodePoint v]) rest
      else unescaped (s ++ [escapedCodePoint v])
    end
  end.

(** [`:root > IED[name="${oldIedName}"]`] *)
Definition selectorOf (oldIedName : list ascii) : Selector :=
  consumeString NoEscape [] (preprocess oldIedName).

(** The first IED of the document whose name is the string [s]. *)
Fixpoint firstMatch (s : list N) (doc : list (list ascii)) : option nat :=
  match doc with
  | [] => None
  | n :: doc' =>
    if bool_decide (map codePoint n = s) then Some 0
    else option_map S (firstMatch s doc')
  end.

Inductive QueryResult : Type :=
| Found (ied : nat)    (* the element, by position in the document *)
| Null
| SyntaxError
| NotAnalysed.

Definition querySelectorIED (doc : list (list ascii)) (oldIedName : list ascii)
    : QueryResult :=
  match selectorOf oldIedName with
  | NameIs s =>
    match firstMatch s doc with
    | Some ied => Found ied
    | None => Null
    end
  | Invalid => SyntaxError
  | Foreign => NotAnalysed
  end.

(** **** The click handler *)

(** [updateIED({ element: ied, attributes: { name: newIedName } })] *)
Record Update : Type := mkUpdate {
  element : nat;                 (* the IED element, by position in the document *)
  newIedName : list ascii        (* attributes.name *)
}.

Definition handleEdit (doc : list (list ascii)) (u : Update) : list (list ascii) :=
  <[element u := newIedName u]> doc.

(** How the handler ends. *)
Inductive Ending : Type :=
| Closed       (* every item handled, then [this.dialogUI.close()] *)
| Thrown       (* [querySelector] threw: the items that follow are not
                  handled and the dialog stays open *)
| Unknown.     (* an item's selector is not analysed *)

(** The [forEach] over the list items: the updates dispatched, the document
    they leave, and how the handler ends. *)
Fixpoint forEachItem (doc : list (list ascii)) (items : list TextField)
    : list Update * list (list ascii) * Ending :=
  match items with
  | [] => ([], doc, Closed)
  | textField :: rest =>
    match querySelectorIED doc (dataOldName textField) with
    | Found ied =>
      let u := mkUpdate ied (value textField) in
      let '(us, doc', ending) := forEachItem (handleEdit doc u) rest in
      (u :: us, doc', ending)
    | Null => forEachItem doc rest
    | SyntaxError => ([], doc, Thrown)
    | NotAnalysed => ([], doc, Unknown)
    end
  end.

(** The updates the handler dispatches and the document they leave. *)
Definition renameIeds (doc : list (list ascii)) (items : list TextField)
    : list Update * list (list ascii) :=
  fst (forEachItem doc items).

Definition renameEnding (doc : list (list ascii)) (items : list TextField)
    : Ending :=
  snd (forEachItem doc items).

(** [?disabled=${this.iedsToRename.length === 0 || !this.allIedNamesValid}] *)
Definition renameDisabled (p : Plugin) : bool :=
  (length (iedsToRename p) =? 0) || negb (allIedNamesValid p).

Definition isCommittable (p : Plugin) : bool := negb (renameDisabled p).

(** A click on the button: a disabled button handles no click. *)
Definition clickRename (doc : list (list ascii)) (p : Plugin)
    : list Update * list (list ascii) :=
  if renameDisabled p then ([], doc) else renameIeds doc (iedListUI p).

(** ** [getIedDescription]

    The attributes of an IED element that the dialog reads; [None] is an
    absent attribute ([getAttribute] returns null). *)
Record Ied : Type := mkIed {
  name : list ascii;
  manufacturer : option (list ascii);
  type : option (list ascii);
  desc : option (list ascii);
  configVersion : option (list ascii);
  originalSclVersion : option (list ascii);
  originalSclRevision : option (list ascii);
  originalSclRelease : option (list ascii)
}.

(** [Array.prototype.join] *)
Fixpoint join (sep : list ascii) (l : list (list ascii)) : list ascii :=
  match l with
  | [] => []
  | [x] => x
  | x :: rest => x ++ sep ++ join sep rest
  end.

(** [.filter(val => val !== null)] *)
Fixpoint notNull (l : list (option (list ascii))) : list (list ascii) :=
  match l with
  | [] => []
  | Some x :: rest => x :: notNull rest
  | None :: rest => notNull rest
  end.

Definition schemaInformation (ied : Ied) : list ascii :=
  join [] (notNull [originalSclVersion ied; originalSclRevision ied;
                    originalSclRelease ied]).

Definition getIedDescription (ied : Ied) : list ascii * list ascii :=
  let firstLine := join (str " - ") (notNull [manufacturer ied; type ied]) in
  let secondLine :=
    join (str " - ")
         (notNull [desc ied; configVersion ied; Some (schemaInformation ied)]) in
  (firstLine, secondLine).

(** ** The search field

    A list item shows the two lines of [getIedDescription] and can be
    hidden; its text field is the field of [iedListUI] at the same
    position. *)
Record ListItem : Type := mkListItem {
  firstLineText : list ascii;    (* text of .details .first-line *)
  secondLineText : list ascii;   (* text of .details .second-line *)
  hidden : bool                  (* class 'hidden' *)
}.

Record Dialog : Type := mkDialog {
  plugin : Plugin;
  items : list ListItem;
  searchIedsUI : list ascii;     (* the value of the search field *)
  searchIedsRegex : RegExp.t
}.

(** The text an item is searched in.  A missing text field reads as the
    text undefined. *)
Definition searchText (item : ListItem) (textField : option TextField) : list ascii :=
  firstLineText item ++ str " " ++ secondLineText item ++ str " "
  ++ match textField with Some f => value f | None => str "undefined" end
  ++ str " "
  ++ match textField with Some f => dataOldName f | None => str "undefined" end.

Definition setHidden (b : bool) (item : ListItem) : ListItem :=
  mkListItem (firstLineText item) (secondLineText item) b.

(** The handler of the search field's [@input], as [debounce] calls it. *)
Definition onSearchInput (d : Dialog) : option Dialog :=
  match getSearchRegex (searchIedsUI d) with
  | None => None
  | Some re =>
    Some (mkDialog (plugin d)
            (imap (fun i item =>
                     setHidden
                       (negb (RegExp.test re
                                (searchText item (iedListUI (plugin d) !! i)))
                        && negb (string_eqb (searchIedsUI d) []))
                       item)
                  (items d))
            (searchIedsUI d) re)
  end.

(** The click on the search field's close icon. *)
Definition clearSearch (d : Dialog) : Dialog :=
  mkDialog (plugin d) (map (setHidden false) (items d)) [] (mk (Star Dot) false).

(** The dialog as [render] builds it for the IEDs in displayed order. *)
Definition renderDialog (ieds : list Ied) : Dialog :=
  mkDialog (render (map name ieds))
    (map (fun ied => mkListItem (fst (getIedDescription ied))
                                (snd (getIedDescription ied)) false) ieds)
    [] matchAllRe.

(** ** [debounce]

    The closure's [timeout] variable holds the pending timer, if any, with
    the arguments it will pass on.  [Call] is a call of the debounced
    function: it clears the pending timer and sets a new one.  [Expire] is
    the moment the platform runs the pending timer, which calls the
    callback. *)
Inductive TimerEvent (A : Type) : Type :=
| Call (args : A)
| Expire.

Arguments Call {A} args.
Arguments Expire {A}.

Definition debounceStep {A : Type} (timeout : option A) (ev : TimerEvent A)
    : option A * list A :=
  match ev with
  | Call args => (Some args, [])
  | Expire =>
    match timeout with
    | Some args => (None, [args])
    | None => (None, [])
    end
  end.

(** The pending timer after a sequence of events, and the arguments of the
    callback's calls, in order. *)
Fixpoint debounceRun {A : Type} (timeout : option A) (evs : list (TimerEvent A))
    : option A * list A :=
  match evs with
  | [] => (timeout, [])
  | ev :: rest =>
    let (timeout1, calls1) := debounceStep timeout ev in
    let (timeout2, calls2) := debounceRun timeout1 rest in
    (timeout2, calls1 ++ calls2)
  end.

(** The calls that are followed by the expiry of their timer before any
    other call. *)
Fixpoint undisturbed {A : Type} (evs : list (TimerEvent A)) : list A :=
  match evs with
  | [] => []
  | Call args :: rest =>
    match rest with
    | Expire :: _ => args :: undisturbed rest
    | _ => undisturbed rest
    end
  | Expire :: rest => undisturbed rest
  end.

(** The search field between two renderings: the operator types a text, or
    the timer of the debounced handler expires. *)
Inductive SearchEvent : Type :=
| TypeText (text : list ascii)
| TimerExpires.

Definition setSearchText (text : list ascii) (d : Dialog) : Dialog :=
  mkDialog (plugin d) (items d) text (searchIedsRegex d).

(** The dialog and the pending timer after a sequence of such events; [None]
    if the handler built no expression. *)
Fixpoint searchRun (d : Dialog) (timeout : bool) (evs : list SearchEvent)
    : option (Dialog * bool) :=
  match evs with
  | [] => Some (d, timeout)
  | TypeText text :: rest => searchRun (setSearchText text d) true rest
  | TimerExpires :: rest =>
    if timeout then
      match onSearchInput d with
      | Some d' => searchRun d' false rest
      | None => None
      end
    else searchRun d false rest
  end.

(** ** Definitions used to state the properties

    *** The validation of one value against the live names *)

(** The values of all text fields, in list order. *)
Definition names (p : Plugin) : list (list ascii) := map value (iedListUI p).

(** [duplicatedIedName] as a function of the live values. *)
Definition duplicated (live : list (list ascii)) (iedName : list ascii) : bool :=
  negb (length (List.filter (fun name => string_eqb name iedName) live) =? 1).

(** The branch [customCheckValidity] takes for the text field [el], as a
    function of the live values. *)
Definition checkValidity (live : list (list ascii)) (el : TextField) : Reason :=
  if valueMissing (value el) then EMPTY
  else if patternMismatch (value el) then PATTERN_MISMATCH
  else if tooLong el || tooShort el then LENGTH_OUT_OF_RANGE
  else if duplicated live (value el) then DUPLICATE
  else VALID.

(** The result [customCheckValidity] returns in that branch. *)
Definition isValid (r : Reason) : bool :=
  match r with VALID => true | _ => false end.

(** A text field with one attribute changed. *)
Definition setMessage (msg : list ascii) (el : TextField) : TextField :=
  mkTextField (value el) (dataOldName el) msg (changed el) (userEdited el).

(** A text field after [customCheckValidity] against the values [live]. *)
Definition revalidate (live : list (list ascii)) (el : TextField) : TextField :=
  setMessage (reasonMessage (checkValidity live el)) el.

(** The value [v] stored with its origin. *)
Definition setValue (byUser : bool) (v : list ascii) (el : TextField) : TextField :=
  mkTextField v (dataOldName el) (validationMessage el) (changed el) byUser.

Definition setChanged (b : bool) (el : TextField) : TextField :=
  mkTextField (value el) (dataOldName el) (validationMessage el) b (userEdited el).

(** *** The name pattern in words *)

(** Spec-worded: a name starts with a letter (A-Z, a-z); the remaining
    characters are letters, digits or underscores. *)
Definition isLetter (c : ascii) : bool :=
  ((65 <=? code c) && (code c <=? 90)) || ((97 <=? code c) && (code c <=? 122)).

Definition isNameChar (c : ascii) : bool :=
  isLetter c || isDecimalDigit c || ascii_eqb c "_".

Definition wellFormedName (v : list ascii) : bool :=
  match v with
  | c :: rest => isLetter c && forallb isNameChar rest
  | [] => false
  end.

(** The continuation of [matchesWhole]: the match must end the input. *)
Definition atEnd : Continuation :=
  fun y => match y with [] => Some [] | _ => None end.

(** Number of items that currently hold the name [v]. *)
Definition holders (live : list (list ascii)) (v : list ascii) : nat :=
  length (List.filter (fun name => string_eqb name v) live).

(** *** Sessions used in examples, and what an edit reports *)


(** The dialog opened on a document with the IEDs IED1 and IED2. *)
Definition twoIeds : Plugin := run (render [str "IED1"; str "IED2"]).

(** *** The states the dialog can reach *)

(** The dialog is rendered for the IED names [displayed], opened any number
    of times, and edited field by field. *)
Inductive reachable (displayed : list (list ascii)) : Plugin -> Prop :=
| reach_render : reachable displayed (render displayed)
| reach_run p : reachable displayed p -> reachable displayed (run p)
| reach_input p i v p' :
    reachable displayed p -> onInput p i v = Some p' -> reachable displayed p'.

(** The name the element of an update has in the document [doc]. *)
Definition oldNameIn (doc : list (list ascii)) (u : Update) : list ascii :=
  default [] (doc !! element u).

(** An update that gives the element another name than the one it has in
    [doc]. *)
Definition isChange (doc : list (list ascii)) (u : Update) : bool :=
  negb (string_eqb (newIedName u) (oldNameIn doc u)).

(** An old name that has none of the characters the selector treats
    specially: quote, backslash, line feed, carriage return, form feed and
    NUL. *)
Definition selectorSafeChar (c : ascii) : bool :=
  negb ((code c =? 34) || (code c =? 92) || (code c =? 10) || (code c =? 13)
        || (code c =? 12) || (code c =? 0)).

Definition selectorSafe (n : list ascii) : bool := forallb selectorSafeChar n.

(** The first IED of the document with exactly the name [n]. *)
Fixpoint lookupName (doc : list (list ascii)) (n : list ascii) : option nat :=
  match doc with
  | [] => None
  | m :: doc' =>
    if string_eqb m n then Some 0 else option_map S (lookupName doc' n)
  end.

(** [iedsToRename] lists, once each, the old names of the fields whose value
    differs from the old name. *)
Definition pendingConsistent (displayed : list (list ascii)) (p : Plugin) : Prop :=
  map dataOldName (iedListUI p) = displayed /\
  List.NoDup (iedsToRename p) /\
  (forall n, In n (iedsToRename p) -> In n displayed) /\
  (forall j el, iedListUI p !! j = Some el ->
     (In (dataOldName el) (iedsToRename p) <-> value el <> dataOldName el)).

(** The (old name, new name) pair of an update: the name its element has in
    the document [doc], and the new name. *)
Definition renamePair (doc : list (list ascii)) (u : Update)
    : list ascii * list ascii :=
  (oldNameIn doc u, newIedName u).

(** The dialog opened on a document whose first IED has a name of 70
    letters, longer than [maxLength]. *)
Definition longName : list ascii := repeat "A"%char 70.

Definition longDialog : Plugin := run (render [longName; str "IED2"]).

(** A document with three IEDs, of which the operator renames two. *)
Definition threeNames : list (list ascii) := [str "IED1"; str "IED2"; str "IED3"].

(** The state after an edit (the state itself if the field does not exist). *)
Definition afterInput (p : Plugin) (i : nat) (v : list ascii) : Plugin :=
  match onInput p i v with Some p' => p' | None => p end.

Definition oneEditState : Plugin := afterInput (run (render threeNames)) 0 (str "P1").
Definition twoEditsState : Plugin := afterInput oneEditState 1 (str "P2").

(** The claim as stated, at a state: one command per pending identity, and
    none for an item whose value is its old name. *)
Definition commitsExactlyPending (doc : list (list ascii)) (p : Plugin) : Prop :=
  let updates := fst (clickRename doc p) in
  Permutation (map (oldNameIn doc) updates) (iedsToRename p) /\
  (forall u, In u updates -> newIedName u <> oldNameIn doc u).

(** *** Matchers of one code unit *)

(** A matcher calls its continuation only on what is left of its input, and
    succeeds only through its continuation. *)
Definition forward (m : Matcher) : Prop :=
  (forall x k k', (forall y, length y <= length x -> k y = k' y) -> m x k = m x k') /\
  (forall x, m x (fun _ => None) = None).

(** A matcher that consumes one code unit satisfying [P]. *)
Definition charMatcher (P : ascii -> bool) (m : Matcher) : Prop :=
  forall x k, m x k = match x with
                      | ch :: y => if P ch then k y else None
                      | [] => None
                      end.

(** Membership in a character class of an expression without the [i] flag. *)
Definition inClass (invert : bool) (items : list ClassAtom) (ch : ascii) : bool :=
  xorb invert (class_mem false items ch).

(** *** Unquoted terms *)

(** The code units [escapeRe] matches, and what the replacement makes of
    one code unit. *)
Definition isEscaped (c : ascii) : bool :=
  existsb (ascii_eqb c)
    ["."; "+"; "^"; "$"; "{"; "}"; "("; ")"; "|"; "["; "]"; "\"]%char.

Definition isQuote (c : ascii) : bool :=
  ascii_eqb c dquote || ascii_eqb c squote.

(** A code unit that can stand in an unquoted term. *)
Definition isTermChar (c : ascii) : bool :=
  negb (isWhiteSpace c) && negb (isQuote c).

Definition escapeChar (c : ascii) : list ascii :=
  if isEscaped c then ["\"%char; c] else [c].

(** What one code unit of an unquoted term becomes in the pattern source. *)
Definition piece (c : ascii) : list ascii :=
  if isEscaped c then ["\"%char; c]
  else if ascii_eqb c "*" then str ".*"
  else if ascii_eqb c "?" then str ".{1}"
  else [c].

(** Case analysis over the 256 code units. *)
Ltac each_code_unit c := destruct c as [[] [] [] [] [] [] [] []].

(** The three replacements of [expandedTerms] on an escaped term. *)
Definition expandTerm (term : list ascii) : list ascii :=
  RegExp.replace quoteRe (fun _ => [])
    (RegExp.replace questionRe (fun _ => str ".{1}")
       (RegExp.replace starRe (fun _ => str ".*") term)).

(** The rest of the input stops a run of [P]: it is empty or starts with a
    code unit outside [P]. *)
Definition stops (P : ascii -> bool) (rest : list ascii) : Prop :=
  match rest with
  | [] => True
  | c :: _ => P c = false
  end.

(** The alternative inside [termRe]: a run of term characters, or a quoted
    run. *)
Definition termAlt : regex :=
  Alt (Plus (Class true [CSpace; CChar dquote; CChar squote]))
      (Seq (Class false [CChar squote; CChar dquote])
         (Seq (Star (Class true [CChar squote; CChar dquote]))
              (Class false [CChar dquote; CChar squote]))).

(** The rest of the input is empty or starts with white space. *)
Definition startsWithSpace (rest : list ascii) : Prop :=
  match rest with
  | [] => True
  | c :: _ => isWhiteSpace c = true
  end.

(** *** The pattern of a list of unquoted terms *)

(** The pattern a code unit of an unquoted term stands for. *)
Definition atom (c : ascii) : regex :=
  if ascii_eqb c "*" then Repeat 0 None Dot
  else if ascii_eqb c "?" then Repeat 1 (Some 1) Dot
  else Chr c.

(** The pattern of the term [t], followed by [tail]. *)
Definition termRegex (t : list ascii) (tail : regex) : regex :=
  fold_right (fun c r => Seq (atom c) r) tail t.

(** The source text [s] starts with a quantifier character. *)
Definition startsQuantifier (s : list ascii) : bool :=
  match s with
  | c :: _ => existsb (ascii_eqb c) ["*"; "+"; "?"; "{"]%char
  | [] => false
  end.

(** The source text of the lookahead for one term. *)
Definition lookaheadSource (t : list ascii) : list ascii :=
  str "(?=.*" ++ flat_map piece t ++ str ")".

(** [(?=.*t)] *)
Definition lookaheadRegex (t : list ascii) : regex :=
  Lookahead (termRegex ("*"%char :: t) Empty).

(** The pattern [getSearchRegex] builds for the unquoted terms [ts]. *)
Definition searchPattern (ts : list (list ascii)) : regex :=
  fold_right (fun t r => Seq (lookaheadRegex t) r) (Seq (Repeat 0 None Dot) Empty) ts.

(** *** Matching in words *)

(** Spec-worded: comparison of two code units without regard to case. *)
Definition sameLetter (a b : ascii) : bool :=
  ascii_eqb (toUpperCase a) (toUpperCase b).

(** Spec-worded: [f] holds after some run of zero or more code units, none of
    them a line terminator. *)
Fixpoint anyRun (f : list ascii -> bool) (s : list ascii) : bool :=
  f s || match s with
         | d :: s' => negb (isLineTerminator d) && anyRun f s'
         | [] => false
         end.

(** Spec-worded: the term [t] matches at the start of [s], where [*] stands
    for any run of code units and [?] for exactly one, line terminators
    excepted, and every other code unit for itself in either case. *)
Fixpoint globPrefix (t : list ascii) (s : list ascii) {struct t} : bool :=
  match t with
  | [] => true
  | c :: t' =>
    if ascii_eqb c "*" then anyRun (globPrefix t') s
    else if ascii_eqb c "?" then
      match s with
      | d :: s' => negb (isLineTerminator d) && globPrefix t' s'
      | [] => false
      end
    else
      match s with
      | d :: s' => sameLetter c d && globPrefix t' s'
      | [] => false
      end
  end.

(** The suffixes of [s], longest first: the inputs [test] tries in turn. *)
Fixpoint tails (s : list ascii) : list (list ascii) :=
  s :: match s with
       | [] => []
       | _ :: s' => tails s'
       end.

(** Spec-worded: the term matches somewhere in [s]. *)
Definition globOccurs (t s : list ascii) : bool := existsb (globPrefix t) (tails s).

(** Spec-worded: [t] is a prefix of [s], compared case-insensitively. *)
Fixpoint startsWith (t s : list ascii) : bool :=
  match t, s with
  | [], _ => true
  | c :: t', d :: s' => sameLetter c d && startsWith t' s'
  | _ :: _, [] => false
  end.

(** Spec-worded: [t] occurs as a substring of [s], compared
    case-insensitively. *)
Definition occursIn (t s : list ascii) : bool := existsb (startsWith t) (tails s).

(** A match attempt succeeded. *)
Definition accepts (o : option State) : bool :=
  match o with Some _ => true | None => false end.

(** Spec-worded: an unquoted term without glob characters. *)
Definition isPlainChar (c : ascii) : bool :=
  isTermChar c && negb (ascii_eqb c "*") && negb (ascii_eqb c "?").

(** The line feed. *)
Definition LF : ascii := ascii_of_nat 10.

(** IED1 and IED2 loaded, then IED2 edited to ied1. *)
Definition mixedCase : Plugin :=
  afterInput (run (render [str "IED1"; str "IED2"])) 1 (str "ied1").

(** ** Definitions for further properties of the dialog *)

(** After an edit every message and [allIedNamesValid] agree with the live
    values. *)
Definition validated (p : Plugin) : Prop :=
  (forall j el, iedListUI p !! j = Some el ->
     validationMessage el = reasonMessage (checkValidity (names p) el)) /\
  allIedNamesValid p =
    forallb (fun el => isValid (checkValidity (names p) el)) (iedListUI p).

(** The field of the list after the edit of field [i] to [v], for the field
    at position [k]. *)
Definition fieldAfter (live : list (list ascii)) (i : nat) (v : list ascii)
    (k : nat) (el : TextField) : TextField :=
  let el' := if decide (k = i) then setValue true v el else el in
  mkTextField (value el') (dataOldName el) (reasonMessage (checkValidity live el'))
    (if decide (k = i) then negb (string_eqb v (dataOldName el)) else changed el)
    (userEdited el').

(** What the handler does to [iedsToRename] for the old name [o]: [b] says
    that the value differs from the old name. *)
Definition updatePending (R : list (list ascii)) (o : list ascii) (b : bool)
    : list (list ascii) :=
  if b then if includes R o then R else R ++ [o]
  else List.filter (fun item => negb (string_eqb item o)) R.

(** The name the dialog proposes for the IED called [n]: the value of the
    first field with that old name, or [n] itself if there is none. *)
Definition proposedName (items : list TextField) (n : list ascii) : list ascii :=
  match List.find (fun el => string_eqb (dataOldName el) n) items with
  | Some el => value el
  | None => n
  end.

(** ** Definitions for further properties of the search *)

(** A non-empty term without white space and quotes. *)
Definition unquotedTerm (t : list ascii) : bool :=
  negb (string_eqb t []) && forallb isTermChar t.

(** A non-empty run of white space. *)
Definition separator (sep : list ascii) : bool :=
  negb (string_eqb sep []) && forallb isWhiteSpace sep.

(** Terms, each after its separator. *)
Fixpoint spaced (rest : list (list ascii * list ascii)) : list ascii :=
  match rest with
  | [] => []
  | (sep, t) :: rest' => sep ++ t ++ spaced rest'
  end.

(** A search expression of unquoted terms: white space, a term, further
    terms after separators, white space. *)
Definition expression (lead t1 : list ascii)
    (rest : list (list ascii * list ascii)) (trail : list ascii) : list ascii :=
  lead ++ t1 ++ spaced rest ++ trail.

Definition isExpression (lead t1 : list ascii)
    (rest : list (list ascii * list ascii)) (trail : list ascii) : bool :=
  forallb isWhiteSpace lead && unquotedTerm t1
  && forallb (fun st => separator (fst st) && unquotedTerm (snd st)) rest
  && forallb isWhiteSpace trail.

(** [raw] is a search expression whose unquoted terms are [ts], in order. *)
Definition IsSearch (raw : list ascii) (ts : list (list ascii)) : Prop :=
  exists lead t1 rest trail,
    isExpression lead t1 rest trail = true /\
    raw = expression lead t1 rest trail /\
    ts = t1 :: map snd rest.

(** Every term of [ts] matches after a run of code units that has no line
    terminator, from the start of [x]. *)
Definition allTermsAt (ts : list (list ascii)) (x : list ascii) : bool :=
  forallb (fun t => anyRun (globPrefix t) x) ts.

(** Spec-worded: a candidate without line terminators. *)
Definition oneLine (s : list ascii) : bool :=
  forallb (fun d => negb (isLineTerminator d)) s.

(** The separators and terms after [escapeRe] has been applied. *)
Definition escapeRest (rest : list (list ascii * list ascii))
    : list (list ascii * list ascii) :=
  map (fun st => (fst st, flat_map escapeChar (snd st))) rest.

(** A code unit that is not a quote. *)
Definition notQuote (c : ascii) : bool := negb (isQuote c).

(** What one code unit of any term becomes in the pattern source: quotes are
    dropped. *)
Definition pieceOf (c : ascii) : list ascii :=
  if isQuote c then [] else piece c.

(** The dialog on IED1 and IED2 after IED1 has been renamed to P1, with the
    text ied1 in the search field. *)
Definition searchedDialog : Dialog :=
  mkDialog (afterInput twoIeds 0 (str "P1"))
    [mkListItem (str "ACME - relay") (str "bay 1 - 2007B") false;
     mkListItem (str "ACME - relay") (str "bay 2 - 2007B") false]
    (str "ied1") matchAllRe.

(** Three inputs and one text, then three terms in one search expression. *)
Definition threeTerms : list ascii := str "  ied  Bay*1 " ++ str "? ".

(** * The matcher

    The fuel [compile] gives to [RepeatMatcher] is enough: more fuel gives the
    same result. *)

Lemma RepeatMatcher_forward m : forward m -> forall fuel min max,
  forward (RepeatMatcher m fuel min max).
Proof.
  intros [Hloc Hstrict] fuel. induction fuel as [|fuel IH]; intros min max; split.
  - intros x k k' Hk. cbn. rewrite (Hk x) by lia. reflexivity.
  - intros x. cbn. by destruct max as [[|?]|], (min =? 0).
  - intros x k k' Hk. cbn [RepeatMatcher].
    match goal with |- context [m x ?d] => set (d1 := d) end.
    match goal with |- _ = ?rhs =>
      match rhs with context [m x ?d] => set (d2 := d) end end.
    assert (Hm : m x d1 = m x d2).
    { apply Hloc. intros y Hy. unfold d1, d2. destruct (_ && _); [done|].
      apply (IH (pred min) (option_map pred max)). intros z Hz. apply Hk. lia. }
    rewrite Hm, (Hk x) by lia. reflexivity.
  - intros x. cbn [RepeatMatcher].
    match goal with |- context [m x ?d] => set (d1 := d) end.
    assert (Hm : m x d1 = None).
    { rewrite <- (Hstrict x). apply Hloc. intros y Hy. unfold d1.
      destruct (_ && _); [done|]. apply IH. }
    rewrite Hm. by destruct max as [[|?]|], (min =? 0).
Qed.

Lemma compile_forward ic r : forward (compile ic r).
Proof.
  induction r as [|a| |inv items|r1 [L1 S1] r2 [L2 S2]|r1 [L1 S1] r2 [L2 S2]
                  |min max r IH|r [L S]]; split.
  - intros x k k' Hk. cbn. by apply Hk.
  - done.
  - intros [|ch y] k k' Hk; cbn; [done|]. rewrite (Hk y) by (simpl; lia). done.
  - intros [|ch y]; cbn; [done|]. by destruct (ascii_eqb _ _).
  - intros [|ch y] k k' Hk; cbn; [done|]. rewrite (Hk y) by (simpl; lia). done.
  - intros [|ch y]; cbn; [done|]. by destruct (isLineTerminator _).
  - intros [|ch y] k k' Hk; cbn; [done|]. rewrite (Hk y) by (simpl; lia). done.
  - intros [|ch y]; cbn; [done|]. by destruct (xorb _ _).
  - intros x k k' Hk. cbn. apply L1. intros y Hy. apply L2. intros z Hz. apply Hk. lia.
  - intros x. cbn. transitivity (compile ic r1 x (fun _ => None)); [|apply S1].
    apply L1. intros y _. apply S2.
  - intros x k k' Hk. cbn. by rewrite (L1 x k k' Hk), (L2 x k k' Hk).
  - intros x. cbn. by rewrite S1, S2.
  - intros x k k' Hk. cbn. by apply (RepeatMatcher_forward _ IH).
  - intros x. cbn. by apply (RepeatMatcher_forward _ IH).
  - intros x k k' Hk. cbn. rewrite (Hk x) by lia. done.
  - intros x. cbn. by destruct (compile ic r x _).
Qed.

(** Any fuel from [min + length x] on gives the result of [RepeatMatcher]. *)
Lemma RepeatMatcher_fuel m : forward m -> forall fuel1 fuel2 min max x k,
  min + length x <= fuel1 -> min + length x <= fuel2 ->
  RepeatMatcher m fuel1 min max x k = RepeatMatcher m fuel2 min max x k.
Proof.
  intros [Hloc Hstrict].
  assert (Hzero : forall fuel max k,
    RepeatMatcher m fuel 0 max [] k = k []).
  { intros [|fuel] max k; cbn [RepeatMatcher Nat.eqb]; [by destruct max as [[|?]|]|].
    match goal with |- context [m [] ?d] => set (d1 := d) end.
    assert (Hm : m [] d1 = None).
    { rewrite <- (Hstrict []). apply Hloc. intros y Hy. unfold d1.
      simpl in Hy. by replace (length y) with 0 by lia. }
    rewrite Hm. by destruct max as [[|?]|]. }
  induction fuel1 as [|fuel1 IH]; intros fuel2 min max x k H1 H2.
  - assert (min = 0) as -> by lia. destruct x; [|simpl in H1; lia].
    by rewrite !Hzero.
  - destruct fuel2 as [|fuel2].
    { assert (min = 0) as -> by lia. destruct x; [|simpl in H2; lia].
      by rewrite !Hzero. }
    cbn [RepeatMatcher].
    match goal with |- context [m x ?d] => set (d1 := d) end.
    match goal with |- _ = ?rhs =>
      match rhs with context [m x ?d] => set (d2 := d) end end.
    assert (Hm : m x d1 = m x d2).
    { apply Hloc. intros y Hy. unfold d1, d2.
      destruct (min =? 0) eqn:Emin; cbn [andb].
      - apply Nat.eqb_eq in Emin. subst min.
        destruct (length y =? length x) eqn:Elen; [done|].
        apply Nat.eqb_neq in Elen. apply IH; simpl in *; lia.
      - apply Nat.eqb_neq in Emin. apply IH; lia. }
    by rewrite Hm.
Qed.

Lemma compile_Repeat_fuel ic min max r x k fuel :
  min + length x <= fuel ->
  RepeatMatcher (compile ic r) fuel min max x k = compile ic (Repeat min max r) x k.
Proof.
  intros Hf. cbn [compile]. apply RepeatMatcher_fuel; [apply compile_forward|lia|lia].
Qed.

(** * The validation engine *)

Lemma string_eqb_eq a b : string_eqb a b = true <-> a = b.
Proof. unfold string_eqb. apply bool_decide_eq_true. Qed.

Lemma string_eqb_neq a b : string_eqb a b = false <-> a <> b.
Proof. unfold string_eqb. apply bool_decide_eq_false. Qed.

Lemma string_eqb_refl a : string_eqb a a = true.
Proof. by apply string_eqb_eq. Qed.

Lemma customCheckValidity_lookup p i el :
  iedListUI p !! i = Some el ->
  customCheckValidity p i =
    (setCustomValidity p i (reasonMessage (checkValidity (names p) el)),
     isValid (checkValidity (names p) el)).
Proof.
  intros H. unfold customCheckValidity, checkValidity. rewrite H.
  change (duplicatedIedName p (value el)) with (duplicated (names p) (value el)).
  repeat (case_match; try reflexivity).
Qed.

Lemma names_setCustomValidity p i msg :
  names (setCustomValidity p i msg) = names p.
Proof.
  unfold names, setCustomValidity; simpl.
  change (map value ?l) with (value <$> l).
  rewrite (list_fmap_alter value _ id). 
  - by rewrite list_alter_id. 
  - apply Forall_forall. done.
Qed.

Lemma mapCustomCheckValidity_seq m : forall k p,
  k + m = length (iedListUI p) ->
  mapCustomCheckValidity p (seq k m) =
    (mkPlugin (take k (iedListUI p) ++ map (revalidate (names p)) (drop k (iedListUI p)))
              (allIedNamesValid p) (iedsToRename p),
     map (fun el => isValid (checkValidity (names p) el)) (drop k (iedListUI p))).
Proof.
  induction m as [|m IH]; intros k p Hk; simpl.
  - rewrite drop_ge by lia. rewrite take_ge by lia. simpl. rewrite app_nil_r.
    by destruct p.
  - destruct (lookup_lt_is_Some_2 (iedListUI p) k) as [el Hel]; [lia|].
    rewrite (customCheckValidity_lookup _ _ _ Hel).
    rewrite IH; [|simpl; rewrite length_alter; lia].
    rewrite names_setCustomValidity. simpl.
    rewrite take_alter_lt by lia. rewrite drop_alter_lt by lia.
    rewrite (drop_S _ _ _ Hel). simpl.
    f_equal. f_equal.
    rewrite (take_S_r _ _ _ Hel).
    rewrite alter_app_r_alt by (rewrite length_take; lia).
    rewrite length_take. replace (k - k `min` length (iedListUI p)) with 0 by lia.
    simpl. rewrite <- app_assoc. reflexivity.
Qed.

Lemma fold_left_andb l : forall b, fold_left andb l b = b && forallb id l.
Proof.
  induction l as [|a l IH]; intros b; simpl.
  - by rewrite andb_true_r.
  - rewrite IH. unfold id at 2. by rewrite andb_assoc.
Qed.

Lemma forallb_map {A B} (f : A -> B) (g : B -> bool) l :
  forallb g (map f l) = forallb (fun x => g (f x)) l.
Proof. induction l; simpl; congruence. Qed.

Lemma map_revalidate_alter_setMessage live msg i l :
  map (revalidate live) (alter (setMessage msg) i l) = map (revalidate live) l.
Proof.
  apply list_eq; intros j.
  change (map ?f ?x) with (f <$> x).
  rewrite !list_lookup_fmap, list_lookup_alter.
  case_decide; subst; [|done].
  destruct (l !! j); done.
Qed.

Lemma isValid_message r : string_eqb (reasonMessage r) [] = isValid r.
Proof. destruct r; reflexivity. Qed.

Lemma forallb_alter_setMessage (f : TextField -> bool) msg i l :
  (forall el, f (setMessage msg el) = f el) ->
  forallb f (alter (setMessage msg) i l) = forallb f l.
Proof.
  intros Hf. revert i. induction l as [|e l IH]; intros i; [done|].
  destruct i as [|i]; cbn.
  - by rewrite Hf.
  - by rewrite IH.
Qed.

(** The handler in closed form. *)
Lemma inputEvent_eq byUser p i v target :
  iedListUI p !! i = Some target ->
  let l0 := <[i := setValue byUser v target]> (iedListUI p) in
  let live := map value l0 in
  let b := negb (string_eqb v (dataOldName target)) in
  inputEvent byUser p i v =
    Some (mkPlugin
            (alter (setChanged b) i (map (revalidate live) l0))
            (forallb (fun el => isValid (checkValidity live el)) l0)
            (if b
             then if includes (iedsToRename p) (dataOldName target)
                  then iedsToRename p
                  else iedsToRename p ++ [dataOldName target]
             else List.filter (fun item => negb (string_eqb item (dataOldName target)))
                              (iedsToRename p))).
Proof.
  intros Ht l0 live b. unfold inputEvent. rewrite Ht.
  fold (setValue byUser v target). fold l0.
  assert (Hi : i < length (iedListUI p)) by (eapply lookup_lt_Some; eauto).
  assert (Hl0 : l0 !! i = Some (setValue byUser v target)).
  { unfold l0. apply list_lookup_insert_eq. done. }
  set (p0 := mkPlugin l0 _ _).
  rewrite (customCheckValidity_lookup p0 i _ Hl0).
  rewrite mapCustomCheckValidity_seq by (simpl; lia).
  rewrite names_setCustomValidity.
  change (names p0) with live. simpl.
  rewrite drop_0.
  set (msg := reasonMessage (checkValidity live (setValue byUser v target))).
  change (alter _ i l0) with (alter (setMessage msg) i l0).
  rewrite map_revalidate_alter_setMessage.
  assert (Hne : exists e l', alter (setMessage msg) i l0 = e :: l').
  { destruct (alter _ i l0) eqn:E; eauto.
    apply (f_equal length) in E. rewrite length_alter in E. unfold l0 in E.
    rewrite length_insert in E. simpl in E. lia. }
  assert (Hall : reduceAnd (map (fun el => isValid (checkValidity live el))
             (alter (setMessage msg) i l0))
          = Some (forallb (fun el => isValid (checkValidity live el)) l0)).
  { destruct Hne as (e & l' & E).
    transitivity (Some (forallb id (map (fun el => isValid (checkValidity live el))
       (alter (setMessage msg) i l0)))).
    - rewrite E. simpl. by rewrite fold_left_andb.
    - f_equal. rewrite forallb_map. unfold id.
      by apply forallb_alter_setMessage. }
  rewrite Hall. fold b.
  destruct b; reflexivity.
Qed.

Lemma onInput_eq p i v target :
  iedListUI p !! i = Some target ->
  let l0 := <[i := setValue true v target]> (iedListUI p) in
  let live := map value l0 in
  let b := negb (string_eqb v (dataOldName target)) in
  onInput p i v =
    Some (mkPlugin
            (alter (setChanged b) i (map (revalidate live) l0))
            (forallb (fun el => isValid (checkValidity live el)) l0)
            (if b
             then if includes (iedsToRename p) (dataOldName target)
                  then iedsToRename p
                  else iedsToRename p ++ [dataOldName target]
             else List.filter (fun item => negb (string_eqb item (dataOldName target)))
                              (iedsToRename p))).
Proof. apply inputEvent_eq. Qed.

Lemma names_onInput_fields live b i l0 :
  map value (alter (setChanged b) i (map (revalidate live) l0)) = map value l0.
Proof.
  change (map ?f ?x) with (f <$> x).
  rewrite (list_fmap_alter value _ id) by (by apply Forall_forall).
  rewrite list_alter_id by done.
  rewrite <- list_fmap_compose. apply list_fmap_ext. done.
Qed.

Lemma checkValidity_fields live el el' :
  value el = value el' -> userEdited el = userEdited el' ->
  checkValidity live el = checkValidity live el'.
Proof. intros Hv Hu. unfold checkValidity, tooLong, tooShort. by rewrite Hv, Hu. Qed.

Lemma forallb_fields (f : TextField -> bool) (g h : TextField -> TextField) l :
  (forall x, f (g x) = f x) -> (forall x, f (h x) = f x) ->
  forall i, forallb f (alter g i (map h l)) = forallb f l.
Proof.
  intros Hg Hh.
  assert (Hmap : forall l', forallb f (map h l') = forallb f l').
  { induction l' as [|e l' IH]; [done|]. cbn. by rewrite Hh, IH. }
  induction l as [|e l IH]; intros i; [done|].
  destruct i as [|i]; cbn.
  - by rewrite Hg, Hh, Hmap.
  - by rewrite Hh, IH.
Qed.

Lemma alter_same {A} (f : A -> A) (i : nat) (l : list A) x :
  l !! i = Some x -> f x = x -> alter f i l = l.
Proof.
  intros Hl Hf. apply list_eq. intros j. rewrite list_lookup_alter.
  case_decide; [subst; rewrite Hl; cbn; by rewrite Hf|done].
Qed.

(** What an edit leaves: the fields, the names, the flag and the pending
    renames. *)
Lemma onInput_lookup p i v target :
  iedListUI p !! i = Some target ->
  exists p', onInput p i v = Some p' /\
    (forall k, iedListUI p' !! k =
               fieldAfter (<[i := v]> (names p)) i v k <$> iedListUI p !! k) /\
    names p' = <[i := v]> (names p) /\
    allIedNamesValid p' =
      forallb (fun el => isValid (checkValidity (names p') el)) (iedListUI p') /\
    iedsToRename p' =
      updatePending (iedsToRename p) (dataOldName target)
                    (negb (string_eqb v (dataOldName target))).
Proof.
  intros Ht.
  assert (Hi : i < length (iedListUI p)) by (eapply lookup_lt_Some; eauto).
  set (live := <[i := v]> (names p)).
  set (b := negb (string_eqb v (dataOldName target))).
  assert (Hlive : map value (<[i:=setValue true v target]> (iedListUI p)) = live).
  { unfold live, names. change (map ?f ?x) with (f <$> x). by rewrite list_fmap_insert. }
  pose proof (onInput_eq p i v target Ht) as H. cbv zeta in H. rewrite Hlive in H. fold b in H.
  match type of H with _ = Some ?q => set (p' := q) in * end.
  assert (Hnames : names p' = live).
  { unfold p', names. cbn [iedListUI]. by rewrite names_onInput_fields. }
  exists p'. split; [exact H|]. split; [|split; [|split]].
  - intros k. unfold p'. cbn [iedListUI].
    rewrite list_lookup_alter. change (map ?f ?x) with (f <$> x).
    case_decide as Hk.
    + subst k. rewrite list_lookup_fmap, list_lookup_insert_eq, Ht by done.
      cbn. unfold fieldAfter. destruct (decide (i = i)); [reflexivity|done].
    + rewrite list_lookup_fmap, list_lookup_insert_ne by done.
      destruct (iedListUI p !! k) as [el|]; [|done]. cbn.
      unfold fieldAfter. destruct (decide (k = i)); [by subst|reflexivity].
  - exact Hnames.
  - rewrite Hnames. unfold p'. cbn [iedListUI allIedNamesValid].
    symmetry. by apply forallb_fields.
  - unfold p'. cbn [iedsToRename]. unfold updatePending. by destruct b.
Qed.

Lemma onInput_Some_target p i v p' :
  onInput p i v = Some p' -> exists target, iedListUI p !! i = Some target.
Proof.
  unfold onInput, inputEvent. destruct (iedListUI p !! i); [eauto|discriminate].
Qed.

Lemma onInput_Some p i v p' :
  onInput p i v = Some p' ->
  exists target, iedListUI p !! i = Some target /\
    (forall k, iedListUI p' !! k =
               fieldAfter (<[i := v]> (names p)) i v k <$> iedListUI p !! k) /\
    names p' = <[i := v]> (names p) /\
    allIedNamesValid p' =
      forallb (fun el => isValid (checkValidity (names p') el)) (iedListUI p') /\
    iedsToRename p' =
      updatePending (iedsToRename p) (dataOldName target)
                    (negb (string_eqb v (dataOldName target))).
Proof.
  intros H. destruct (onInput_Some_target _ _ _ _ H) as [target Ht].
  exists target. split; [done|].
  destruct (onInput_lookup p i v target Ht) as (q & Hq & Hrest).
  rewrite H in Hq. by injection Hq as <-.
Qed.

(** The fields carry the verdicts of [customCheckValidity]. *)
Lemma onInput_validated p i v p' : onInput p i v = Some p' -> validated p'.
Proof.
  intros H. destruct (onInput_Some _ _ _ _ H) as (target & Ht & Hk & Hn & Ha & _).
  split; [|done].
  intros j el Hj. rewrite Hk in Hj. apply fmap_Some in Hj as (e & He & ->).
  rewrite Hn. reflexivity.
Qed.

Lemma validated_customCheckValidity p j el :
  validated p -> iedListUI p !! j = Some el ->
  customCheckValidity p j = (p, string_eqb (validationMessage el) []).
Proof.
  intros [Hmsg _] Hj. rewrite (customCheckValidity_lookup p j el Hj).
  rewrite <- (Hmsg j el Hj), <- isValid_message, <- (Hmsg j el Hj). f_equal.
  unfold setCustomValidity. destruct p as [l a r]. cbn in *. f_equal.
  apply (alter_same _ j l el Hj). by destruct el.
Qed.

Lemma validated_allIedNamesValid p :
  validated p ->
  allIedNamesValid p =
    forallb (fun el => string_eqb (validationMessage el) []) (iedListUI p).
Proof.
  intros [Hmsg ->]. revert Hmsg. generalize (names p). intros live.
  induction (iedListUI p) as [|e l IH]; intros H; [done|]. cbn.
  rewrite (H 0 e eq_refl), isValid_message. f_equal.
  apply IH. intros j el Hj. apply (H (S j) el Hj).
Qed.

(** C1.  After any edit of one field of any state, every field of the list,
    not only the edited one, carries the verdict of [customCheckValidity]
    against the names as they are after the edit: its message is the one of
    the branch taken, and calling [customCheckValidity] on it again changes
    nothing.  [allIedNamesValid] is the conjunction of the fields' validity.
    The handler returns for every field of the list. *)
Theorem input_revalidates_every_item (p : Plugin) (i : nat) (v : list ascii) :
  i < length (iedListUI p) ->
  exists p', onInput p i v = Some p' /\
    names p' = <[i := v]> (names p) /\
    (forall j el, iedListUI p' !! j = Some el ->
       validationMessage el = reasonMessage (checkValidity (names p') el) /\
       customCheckValidity p' j = (p', string_eqb (validationMessage el) [])) /\
    allIedNamesValid p' =
      forallb (fun el => string_eqb (validationMessage el) []) (iedListUI p').
Proof.
  intros Hi.
  destruct (lookup_lt_is_Some_2 _ _ Hi) as [target Ht].
  destruct (onInput_lookup p i v target Ht) as (p' & Hin & _ & Hn & _).
  pose proof (onInput_validated _ _ _ _ Hin) as Hv.
  exists p'. split; [done|]. split; [done|]. split.
  - intros j el Hj. split; [by apply (proj1 Hv j)|].
    by apply validated_customCheckValidity.
  - by apply validated_allIedNamesValid.
Qed.

Lemma input_revalidates_every_item_witness :
  exists p', onInput longDialog 1 (str "P2") = Some p' /\
    names p' = <[1 := str "P2"]> (names longDialog) /\
    (forall j el, iedListUI p' !! j = Some el ->
       validationMessage el = reasonMessage (checkValidity (names p') el) /\
       customCheckValidity p' j = (p', string_eqb (validationMessage el) [])) /\
    allIedNamesValid p' =
      forallb (fun el => string_eqb (validationMessage el) []) (iedListUI p').
Proof.
  apply (input_revalidates_every_item longDialog 1 (str "P2")). simpl. lia.
Defined.

Lemma includes_In l x : includes l x = true <-> In x l.
Proof.
  unfold includes. rewrite existsb_exists. split.
  - intros (y & Hy & E). apply string_eqb_eq in E. by subst.
  - intros H. exists x. split; [done|apply string_eqb_refl].
Qed.

Lemma filter_filter_same {A} (f : A -> bool) l :
  List.filter f (List.filter f l) = List.filter f l.
Proof.
  induction l as [|a l IH]; simpl; [done|].
  destruct (f a) eqn:E; simpl; rewrite ?E, IH; done.
Qed.

(** C9.  Repeating an edit changes nothing: the state after the second
    identical edit is the state after the first. *)
Theorem input_idempotent (p : Plugin) (i : nat) (v : list ascii) (p' : Plugin) :
  onInput p i v = Some p' -> onInput p' i v = Some p'.
Proof.
  intros H. destruct (onInput_Some_target _ _ _ _ H) as [target Ht].
  rewrite (onInput_eq _ _ _ _ Ht) in H. cbv zeta in H.
  assert (Hi : i < length (iedListUI p)) by (eapply lookup_lt_Some; eauto).
  set (l0 := <[i:=setValue true v target]> (iedListUI p)) in *.
  set (live := map value l0) in *.
  set (b := negb (string_eqb v (dataOldName target))) in *.
  set (target' := setChanged b (revalidate live (setValue true v target))).
  assert (Hl0 : l0 !! i = Some (setValue true v target)).
  { unfold l0. by apply list_lookup_insert_eq. }
  assert (Ht' : iedListUI p' !! i = Some target').
  { injection H as <-. cbn [iedListUI].
    rewrite list_lookup_alter_eq.
    change (map ?f ?x) with (f <$> x). rewrite list_lookup_fmap, Hl0. done. }
  rewrite (onInput_eq _ _ _ _ Ht'). cbv zeta.
  assert (Hid : <[i:=setValue true v target']> (iedListUI p') = iedListUI p').
  { apply list_insert_id. rewrite Ht'. done. }
  rewrite Hid.
  assert (Hlive : map value (iedListUI p') = live).
  { injection H as <-. cbn [iedListUI]. apply names_onInput_fields. }
  rewrite Hlive.
  change (dataOldName target') with (dataOldName target). fold b.
  injection H as <-. cbn [iedListUI allIedNamesValid iedsToRename].
  f_equal. f_equal.
  - apply list_eq; intros j.
    change (map ?f ?x) with (f <$> x).
    rewrite !list_lookup_alter.
    case_decide; subst; rewrite !list_lookup_fmap, ?list_lookup_alter_eq,
      ?list_lookup_alter_ne, ?list_lookup_fmap by done;
      destruct (l0 !! j); done.
  - by apply forallb_fields.
  - destruct b.
    + destruct (includes (iedsToRename p) (dataOldName target)) eqn:E.
      * by rewrite E.
      * replace (includes _ _) with true; [done|].
        symmetry. apply includes_In. apply in_or_app. right. by left.
    + apply filter_filter_same.
Qed.

Lemma input_idempotent_witness :
  onInput (afterInput twoIeds 0 (str "IED2")) 0 (str "IED2") =
  Some (afterInput twoIeds 0 (str "IED2")).
Proof.
  apply (input_idempotent twoIeds 0 (str "IED2")). vm_compute. reflexivity.
Defined.

Lemma RepeatMatcher_star_atEnd (m : Matcher) (P : ascii -> bool) :
  (forall ch y k, m (ch :: y) k = if P ch then k y else None) ->
  forall x, RepeatMatcher m (length x) 0 None x atEnd =
            if forallb P x then Some [] else None.
Proof.
  intros Hm x. induction x as [|ch x IH]; [reflexivity|].
  cbn [length RepeatMatcher Nat.eqb forallb andb].
  rewrite Hm. destruct (P ch); [|reflexivity].
  replace (length x =? S (length x)) with false by (symmetry; apply Nat.eqb_neq; lia).
  cbn [pred option_map andb]. rewrite IH.
  destruct (forallb _ x); reflexivity.
Qed.

Lemma matchesWhole_namePattern v : matchesWhole namePattern v = wellFormedName v.
Proof.
  unfold matchesWhole, namePattern. fold atEnd.
  destruct v as [|c rest]; [reflexivity|].
  cbn [compile wellFormedName].
  replace (xorb false (class_mem false [CRange "A" "Z"; CRange "a" "z"] c)) with (isLetter c).
  2:{ by destruct c as [[] [] [] [] [] [] [] []]. }
  destruct (isLetter c); [|reflexivity]. cbn [andb].
  unfold Star. cbn [compile Nat.add].
  rewrite (RepeatMatcher_star_atEnd _ isNameChar).
  - destruct (forallb isNameChar rest); reflexivity.
  - intros ch y k. cbn [compile].
    replace (xorb false _) with (isNameChar ch); [done|].
    by destruct ch as [[] [] [] [] [] [] [] []].
Qed.

Lemma tooShort_false el : tooShort el = false.
Proof.
  unfold tooShort, minLength. destruct (value el) as [|c v].
  - by destruct (userEdited el).
  - rewrite andb_false_iff. right. apply Nat.ltb_ge. simpl. lia.
Qed.

Lemma tooLong_false el :
  userEdited el = false \/ length (value el) <= maxLength -> tooLong el = false.
Proof.
  unfold tooLong. intros [->|H]; [reflexivity|].
  rewrite andb_false_iff. right. apply Nat.ltb_ge. lia.
Qed.


Lemma patternMismatch_wellFormed v :
  v <> [] -> patternMismatch v = negb (wellFormedName v).
Proof.
  intros Hv. unfold patternMismatch. rewrite matchesWhole_namePattern.
  apply string_eqb_neq in Hv. by rewrite Hv.
Qed.



Lemma holders_none (live : list (list ascii)) v :
  (forall k x, live !! k = Some x -> x <> v) -> holders live v = 0.
Proof.
  unfold holders. induction live as [|n live IH]; intros H; [done|]. simpl.
  destruct (string_eqb n v) eqn:E.
  - apply string_eqb_eq in E. exfalso. apply (H 0 n); [reflexivity|done].
  - apply IH. intros k x Hk. apply (H (S k) x). exact Hk.
Qed.

Lemma holders_unique (live : list (list ascii)) : forall i v,
  live !! i = Some v ->
  (forall k x, live !! k = Some x -> k <> i -> x <> v) ->
  holders live v = 1.
Proof.
  induction live as [|n live IH]; intros i v Hi Hothers; [done|].
  destruct i as [|i].
  - injection Hi as ->. unfold holders. simpl. rewrite string_eqb_refl. simpl. f_equal.
    apply holders_none. intros k x Hk. apply (Hothers (S k) x); [exact Hk|lia].
  - unfold holders. simpl. destruct (string_eqb n v) eqn:E.
    + apply string_eqb_eq in E. exfalso. apply (Hothers 0 n); [reflexivity|lia|done].
    + apply (IH i); [exact Hi|]. intros k x Hk Hne. apply (Hothers (S k) x); [exact Hk|lia].
Qed.

Lemma checkValidity_valid live el :
  wellFormedName (value el) = true ->
  userEdited el = false \/ length (value el) <= maxLength ->
  holders live (value el) = 1 ->
  checkValidity live el = VALID.
Proof.
  intros Hw Hl Hh. unfold checkValidity.
  assert (Hne : value el <> []) by (intros E; rewrite E in Hw; discriminate).
  rewrite (patternMismatch_wellFormed _ Hne), Hw, tooShort_false, (tooLong_false _ Hl).
  apply string_eqb_neq in Hne. unfold valueMissing. rewrite Hne. cbn [negb orb].
  unfold duplicated. fold (holders live (value el)). by rewrite Hh.
Qed.

(** C10.  Names are compared exactly: two fields whose values differ, even
    if only in letter case, and that no other field repeats, are not
    duplicates of each other, and each is valid if it has the form and the
    length of a name. *)
Theorem duplicate_check_is_case_sensitive
    (p : Plugin) (i j : nat) (a b : TextField) :
  iedListUI p !! i = Some a -> iedListUI p !! j = Some b ->
  value a <> value b ->
  map toUpperCase (value a) = map toUpperCase (value b) ->
  (forall k el, iedListUI p !! k = Some el -> k <> i -> k <> j ->
     value el <> value a /\ value el <> value b) ->
  duplicatedIedName p (value a) = false /\
  duplicatedIedName p (value b) = false /\
  (wellFormedName (value a) = true -> length (value a) <= maxLength ->
     customCheckValidity p i = (setCustomValidity p i (reasonMessage VALID), true)) /\
  (wellFormedName (value b) = true -> length (value b) <= maxLength ->
     customCheckValidity p j = (setCustomValidity p j (reasonMessage VALID), true)).
Proof.
  intros Ha Hb Hne _ Hothers.
  assert (Hha : holders (names p) (value a) = 1).
  { apply (holders_unique _ i).
    - unfold names. change (map ?f ?x) with (f <$> x). by rewrite list_lookup_fmap, Ha.
    - intros k x Hk Hki. unfold names in Hk. change (map ?f ?x) with (f <$> x) in Hk.
      rewrite list_lookup_fmap in Hk. apply fmap_Some in Hk as (el & Hel & ->).
      destruct (decide (k = j)) as [->|Hkj].
      + rewrite Hb in Hel. injection Hel as <-. done.
      + by apply (Hothers k el). }
  assert (Hhb : holders (names p) (value b) = 1).
  { apply (holders_unique _ j).
    - unfold names. change (map ?f ?x) with (f <$> x). by rewrite list_lookup_fmap, Hb.
    - intros k x Hk Hkj. unfold names in Hk. change (map ?f ?x) with (f <$> x) in Hk.
      rewrite list_lookup_fmap in Hk. apply fmap_Some in Hk as (el & Hel & ->).
      destruct (decide (k = i)) as [->|Hki].
      + rewrite Ha in Hel. injection Hel as <-. done.
      + by apply (Hothers k el). }
  split; [|split; [|split]].
  - change (duplicatedIedName p (value a)) with (negb (holders (names p) (value a) =? 1)).
    by rewrite Hha.
  - change (duplicatedIedName p (value b)) with (negb (holders (names p) (value b) =? 1)).
    by rewrite Hhb.
  - intros Hw Hl. rewrite (customCheckValidity_lookup p i a Ha).
    by rewrite (checkValidity_valid _ _ Hw (or_intror Hl) Hha).
  - intros Hw Hl. rewrite (customCheckValidity_lookup p j b Hb).
    by rewrite (checkValidity_valid _ _ Hw (or_intror Hl) Hhb).
Qed.

Lemma duplicate_check_is_case_sensitive_witness :
  duplicatedIedName mixedCase (str "IED1") = false /\
  duplicatedIedName mixedCase (str "ied1") = false /\
  (wellFormedName (str "IED1") = true -> length (str "IED1") <= maxLength ->
     customCheckValidity mixedCase 0 =
       (setCustomValidity mixedCase 0 (reasonMessage VALID), true)) /\
  (wellFormedName (str "ied1") = true -> length (str "ied1") <= maxLength ->
     customCheckValidity mixedCase 1 =
       (setCustomValidity mixedCase 1 (reasonMessage VALID), true)).
Proof.
  apply (duplicate_check_is_case_sensitive mixedCase 0 1
           (mkTextField (str "IED1") (str "IED1") [] false false)
           (mkTextField (str "ied1") (str "IED2") [] true true)).
  - reflexivity.
  - reflexivity.
  - discriminate.
  - reflexivity.
  - intros k el Hk Hk0 Hk1. destruct k as [|[|k]]; [lia|lia|discriminate].
Defined.








(** C2.  With IED1 and IED2 loaded, changing IED1 to the name IED2 marks both
    fields as duplicates and clears [allIedNamesValid]; changing it back
    makes both valid, empties [iedsToRename] and sets [allIedNamesValid]. *)
Theorem duplicate_symmetric_and_reversible :
  exists p1 p2,
    onInput twoIeds 0 (str "IED2") = Some p1 /\
    map validationMessage (iedListUI p1) =
      [reasonMessage DUPLICATE; reasonMessage DUPLICATE] /\
    allIedNamesValid p1 = false /\
    iedsToRename p1 = [str "IED1"] /\
    onInput p1 0 (str "IED1") = Some p2 /\
    map validationMessage (iedListUI p2) = [reasonMessage VALID; reasonMessage VALID] /\
    iedsToRename p2 = [] /\
    allIedNamesValid p2 = true.
Proof.
  eexists _, _. split; [vm_compute; reflexivity|].
  split; [reflexivity|]. split; [reflexivity|]. split; [reflexivity|].
  split; [vm_compute; reflexivity|]. repeat split.
Qed.

(** C6.  The button is enabled iff [iedsToRename] is not empty and
    [allIedNamesValid] holds; a click on the disabled button does nothing. *)
Theorem committable_iff (doc : list (list ascii)) (p : Plugin) :
  (isCommittable p = true <-> iedsToRename p <> [] /\ allIedNamesValid p = true) /\
  clickRename doc p =
    if isCommittable p then renameIeds doc (iedListUI p) else ([], doc).
Proof.
  unfold isCommittable, clickRename, renameDisabled. split.
  - rewrite negb_true_iff, orb_false_iff, negb_false_iff, Nat.eqb_neq.
    destruct (iedsToRename p); simpl; intuition (try congruence; try lia).
  - destruct (_ || _); reflexivity.
Qed.

(** ** Pending renames and the Rename IEDs button *)

Lemma oldNames_onInput_fields live b i v target l :
  l !! i = Some target ->
  map dataOldName (alter (setChanged b) i (map (revalidate live) (<[i := setValue true v target]> l)))
  = map dataOldName l.
Proof.
  intros Ht.
  change (map ?f ?x) with (f <$> x).
  rewrite (list_fmap_alter dataOldName _ id) by (by apply Forall_forall).
  rewrite list_alter_id by done.
  rewrite <- list_fmap_compose.
  rewrite list_fmap_insert. cbn. apply list_insert_id.
  by rewrite list_lookup_fmap, Ht.
Qed.

Lemma NoDup_lookup_inj {A} (l : list A) i j x :
  List.NoDup l -> l !! i = Some x -> l !! j = Some x -> i = j.
Proof. intros H. apply NoDup_alt. by apply NoDup_ListNoDup. Qed.

Lemma NoDup_filter_list {A} (f : A -> bool) l :
  List.NoDup l -> List.NoDup (List.filter f l).
Proof. apply List.NoDup_filter. Qed.

Lemma pendingConsistent_run displayed p :
  map dataOldName (iedListUI p) = displayed -> pendingConsistent displayed (run p).
Proof.
  intros H. unfold pendingConsistent, run; cbn. split; [|split; [|split]].
  - rewrite <- H. rewrite map_map. reflexivity.
  - constructor.
  - intros n [].
  - intros j el Hj. change (map ?f ?x) with (f <$> x) in Hj.
    rewrite list_lookup_fmap in Hj. apply fmap_Some in Hj as (e & _ & ->). cbn.
    split; [intros []|intros Hne; by destruct Hne].
Qed.

Lemma pendingConsistent_onInput displayed p i v p' :
  List.NoDup displayed ->
  pendingConsistent displayed p -> onInput p i v = Some p' ->
  pendingConsistent displayed p'.
Proof.
  intros Hnd (Hold & Hndr & Hsub & Hiff) H.
  destruct (onInput_Some_target _ _ _ _ H) as [target Ht].
  rewrite (onInput_eq _ _ _ _ Ht) in H. cbv zeta in H. injection H as <-.
  assert (Hi : i < length (iedListUI p)) by (eapply lookup_lt_Some; eauto).
  set (o := dataOldName target).
  assert (Ho : In o displayed).
  { rewrite <- Hold. apply in_map_iff. exists target. split; [done|].
    apply list_elem_of_In. eapply list_elem_of_lookup_2; eauto. }
  unfold pendingConsistent. cbn [iedListUI iedsToRename].
  split; [|split; [|split]].
  - by rewrite (oldNames_onInput_fields _ _ _ _ _ _ Ht).
  - destruct (negb (string_eqb v o)).
    + destruct (includes (iedsToRename p) o) eqn:E; [done|].
      apply NoDup_ListNoDup. apply NoDup_app. split; [by apply NoDup_ListNoDup|]. split.
      * intros x Hx Hx'. apply list_elem_of_In in Hx. apply list_elem_of_In in Hx'.
        destruct Hx' as [<-|[]]. apply includes_In in Hx. congruence.
      * apply NoDup_singleton.
    + by apply NoDup_filter_list.
  - intros n Hn. destruct (negb (string_eqb v o)).
    + destruct (includes (iedsToRename p) o); [by apply Hsub|].
      apply in_app_or in Hn as [Hn|[<-|[]]]; [by apply Hsub|done].
    + apply filter_In in Hn as [Hn _]. by apply Hsub.
  - intros j el' Hj.
    rewrite list_lookup_alter in Hj. change (map ?f ?x) with (f <$> x) in Hj.
    case_decide as Hij.
    + subst j. rewrite list_lookup_fmap, list_lookup_insert_eq in Hj by done.
      cbn in Hj. injection Hj as <-. cbn. fold o.
      destruct (string_eqb v o) eqn:E; cbn [negb].
      * apply string_eqb_eq in E. subst v. split; [|done].
        intros Hin. apply filter_In in Hin as [_ Hin].
        by rewrite string_eqb_refl in Hin.
      * apply string_eqb_neq in E. split; [done|]. intros _.
        destruct (includes (iedsToRename p) o) eqn:E2.
        -- by apply includes_In.
        -- apply in_or_app. right. by left.
    + rewrite list_lookup_fmap, list_lookup_insert_ne in Hj by done.
      apply fmap_Some in Hj as (el & Hel & ->). cbn.
      assert (Hneq : dataOldName el <> o).
      { intros Heq. apply Hij.
        apply (NoDup_lookup_inj displayed i j o Hnd); rewrite <- Hold;
          change (map ?f ?x) with (f <$> x); rewrite list_lookup_fmap.
        - by rewrite Ht.
        - rewrite Hel. cbn. by rewrite Heq. }
      rewrite <- (Hiff j el Hel).
      destruct (negb (string_eqb v o)).
      * destruct (includes (iedsToRename p) o); [done|].
        rewrite in_app_iff. cbn. intuition congruence.
      * rewrite filter_In. split; [tauto|]. intros Hin. split; [done|].
        apply negb_true_iff. by apply string_eqb_neq.
Qed.

Lemma reachable_pendingConsistent displayed p :
  List.NoDup displayed -> reachable displayed p -> pendingConsistent displayed p.
Proof.
  intros Hnd H. induction H.
  - unfold pendingConsistent, render; cbn. split; [|split; [|split]].
    + rewrite map_map. apply map_id.
    + constructor.
    + intros n [].
    + intros j el Hj. change (map ?f ?x) with (f <$> x) in Hj.
      rewrite list_lookup_fmap in Hj. apply fmap_Some in Hj as (e & _ & ->). cbn.
      split; [intros []|intros Hne; by destruct Hne].
  - apply pendingConsistent_run. apply IHreachable.
  - eapply pendingConsistent_onInput; eauto.
Qed.

(** ** The selector of the click handler *)

Lemma codePoint_inj a b : codePoint a = codePoint b -> a = b.
Proof.
  unfold codePoint. intros H.
  rewrite <- (ascii_N_embedding a), <- (ascii_N_embedding b). by rewrite H.
Qed.

Lemma map_codePoint_inj n : forall m, map codePoint n = map codePoint m -> n = m.
Proof.
  induction n as [|a n IH]; intros [|b m] H; try discriminate; [done|].
  injection H as Hab H. f_equal; [by apply codePoint_inj|by apply IH].
Qed.

Lemma selectorSafeChar_codePoint c :
  selectorSafeChar c = true ->
  (codePoint c =? 13)%N = false /\ (codePoint c =? 12)%N = false /\
  (codePoint c =? 0)%N = false /\ (codePoint c =? 34)%N = false /\
  (codePoint c =? 92)%N = false /\ isNewline (codePoint c) = false.
Proof. by each_code_unit c. Qed.

Lemma preprocess_safe n : selectorSafe n = true -> preprocess n = map codePoint n.
Proof.
  induction n as [|c n IH]; [done|]. cbn [selectorSafe forallb]. intros H.
  apply andb_true_iff in H as [Hc H].
  destruct (selectorSafeChar_codePoint c Hc) as (H13 & H12 & H0 & _).
  cbn [preprocess map]. rewrite H13, H12, H0. f_equal. by apply IH.
Qed.

Lemma consumeString_safe n : forall s,
  selectorSafe n = true ->
  consumeString NoEscape s (map codePoint n) = NameIs (s ++ map codePoint n).
Proof.
  induction n as [|c n IH]; intros s H.
  - cbn. by rewrite app_nil_r.
  - cbn [selectorSafe forallb] in H. apply andb_true_iff in H as [Hc H].
    destruct (selectorSafeChar_codePoint c Hc) as (_ & _ & _ & H34 & H92 & Hnl).
    cbn [map consumeString]. rewrite H34, H92, Hnl, (IH _ H), <- app_assoc.
    reflexivity.
Qed.

(** For an old name without quote, backslash, line break and NUL the
    selector asks for exactly that name. *)
Lemma selectorOf_safe n :
  selectorSafe n = true -> selectorOf n = NameIs (map codePoint n).
Proof.
  intros H. unfold selectorOf. by rewrite (preprocess_safe n H), (consumeString_safe n [] H).
Qed.

Lemma firstMatch_lookupName n doc : firstMatch (map codePoint n) doc = lookupName doc n.
Proof.
  induction doc as [|m doc IH]; [done|]. cbn [firstMatch lookupName]. rewrite IH.
  unfold string_eqb.
  replace (bool_decide (map codePoint m = map codePoint n)) with (bool_decide (m = n));
    [done|].
  apply bool_decide_ext. split; [by intros ->|apply map_codePoint_inj].
Qed.

Lemma querySelectorIED_safe doc n :
  selectorSafe n = true ->
  querySelectorIED doc n =
    match lookupName doc n with Some ied => Found ied | None => Null end.
Proof.
  intros H. unfold querySelectorIED. by rewrite (selectorOf_safe n H), firstMatch_lookupName.
Qed.

Lemma lookupName_In doc name :
  In name doc -> exists e, lookupName doc name = Some e /\ doc !! e = Some name.
Proof.
  induction doc as [|n doc IH]; intros Hin; [contradiction|]. simpl.
  destruct (string_eqb n name) eqn:E.
  - apply string_eqb_eq in E. subst. by exists 0.
  - destruct Hin as [->|Hin]; [by rewrite string_eqb_refl in E|].
    destruct (IH Hin) as (e & -> & He). by exists (S e).
Qed.

Lemma lookupName_Some doc name : forall e,
  lookupName doc name = Some e -> doc !! e = Some name.
Proof.
  induction doc as [|n doc IH]; intros e H; [done|]. cbn in H.
  destruct (string_eqb n name) eqn:E.
  - injection H as <-. apply string_eqb_eq in E. by subst.
  - destruct (lookupName doc name) as [e'|]; [|done]. injection H as <-.
    by apply IH.
Qed.

Lemma firstMatch_lt s doc : forall e, firstMatch s doc = Some e -> e < length doc.
Proof.
  induction doc as [|n doc IH]; intros e H; [done|]. cbn in H.
  destruct (bool_decide _).
  - injection H as <-. simpl. lia.
  - destruct (firstMatch s doc) as [e'|]; [|done]. injection H as <-.
    specialize (IH e' eq_refl). simpl. lia.
Qed.

(** An escape in the old name selects by the name it stands for: the old
    name IED, backslash, 31 finds the IED called IED1; a quote in the old
    name makes the handler throw before it dispatches anything. *)
Lemma selector_reads_escapes_and_quotes :
  querySelectorIED [str "IED1"] (str "IED" ++ [ascii_of_nat 92] ++ str "31") = Found 0 /\
  querySelectorIED [str "IED1"] (str "IED1") = Found 0 /\
  forEachItem [str "a" ++ [ascii_of_nat 34] ++ str "b"]
    [mkTextField (str "P1") (str "a" ++ [ascii_of_nat 34] ++ str "b") [] true true]
  = ([], [str "a" ++ [ascii_of_nat 34] ++ str "b"], Thrown).
Proof. repeat split. Qed.

Lemma holders_cons n live v :
  holders (n :: live) v = (if string_eqb n v then 1 else 0) + holders live v.
Proof. unfold holders. simpl. by destruct (string_eqb n v). Qed.

Lemma holders_zero live v : holders live v = 0 -> ~ In v live.
Proof.
  induction live as [|n live IH]; [tauto|]. rewrite holders_cons.
  destruct (string_eqb n v) eqn:E; [lia|]. intros H [->|Hin].
  - by rewrite string_eqb_refl in E.
  - by apply IH.
Qed.

Lemma holders_two live : forall i j v,
  live !! i = Some v -> live !! j = Some v -> i <> j -> 2 <= holders live v.
Proof.
  induction live as [|n live IH]; intros i j v Hi Hj Hne; [done|].
  rewrite holders_cons.
  assert (Hin : forall k, live !! k = Some v -> 1 <= holders live v).
  { intros k Hk. destruct (holders live v) eqn:E; [|lia].
    exfalso. apply (holders_zero live v E). apply list_elem_of_In.
    eapply list_elem_of_lookup_2; eauto. }
  destruct i as [|i], j as [|j]; try done.
  - injection Hi as ->. rewrite string_eqb_refl. pose proof (Hin j Hj). lia.
  - injection Hj as ->. rewrite string_eqb_refl. pose proof (Hin i Hi). lia.
  - assert (2 <= holders live v) by (apply (IH i j); [done|done|lia]). lia.
Qed.

Lemma holders_In live v : In v live -> 1 <= holders live v.
Proof.
  intros Hin. destruct (holders live v) eqn:E; [|lia].
  exfalso. by apply (holders_zero live v E).
Qed.

Lemma holders_pos live v : 0 < holders live v -> In v live.
Proof.
  induction live as [|n live IH]; [cbn; lia|]. rewrite holders_cons.
  destruct (string_eqb n v) eqn:E.
  - apply string_eqb_eq in E. by left.
  - intros H. right. apply IH. lia.
Qed.

Lemma NoDup_holders doc n : List.NoDup doc -> In n doc -> holders doc n = 1.
Proof.
  induction doc as [|m doc IH]; intros Hnd Hin; [done|].
  inversion Hnd as [|? ? Hm Hd]; subst. rewrite holders_cons.
  destruct (string_eqb m n) eqn:E.
  - apply string_eqb_eq in E. subst m.
    destruct (holders doc n) eqn:Eh; [done|].
    exfalso. apply Hm. apply holders_pos. lia.
  - destruct Hin as [->|Hin]; [by rewrite string_eqb_refl in E|]. by apply IH.
Qed.

Lemma holders_lookup_inj doc n e e' :
  holders doc n = 1 -> doc !! e = Some n -> doc !! e' = Some n -> e = e'.
Proof.
  intros Hh He He'. destruct (decide (e = e')) as [|Hne]; [done|].
  pose proof (holders_two doc e e' n He He' Hne). lia.
Qed.

Lemma holders_insert doc : forall e x y n,
  doc !! e = Some y -> y <> n -> x <> n -> holders (<[e:=x]> doc) n = holders doc n.
Proof.
  induction doc as [|m doc IH]; intros e x y n He Hy Hx; [done|].
  destruct e as [|e].
  - injection He as ->. change (<[0:=x]> (y :: doc)) with (x :: doc).
    rewrite !holders_cons. apply string_eqb_neq in Hy, Hx. by rewrite Hy, Hx.
  - change (<[S e:=x]> (m :: doc)) with (m :: <[e:=x]> doc).
    rewrite !holders_cons. f_equal. by apply (IH e x y).
Qed.

Lemma proposedName_cons_other el rest n :
  dataOldName el <> n -> proposedName (el :: rest) n = proposedName rest n.
Proof.
  intros H. unfold proposedName. cbn. apply string_eqb_neq in H. by rewrite H.
Qed.

Lemma proposedName_absent items n :
  (forall el, In el items -> dataOldName el <> n) -> proposedName items n = n.
Proof.
  induction items as [|el items IH]; intros H; [done|].
  rewrite proposedName_cons_other by (apply H; by left).
  apply IH. intros e He. apply H. by right.
Qed.

Lemma NoDup_map_filter {A B} (f : A -> B) (g : A -> bool) l :
  List.NoDup (map f l) -> List.NoDup (map f (List.filter g l)).
Proof.
  induction l as [|a l IH]; simpl; intros H; [constructor|].
  inversion H as [|? ? Hnotin H']; subst.
  destruct (g a); simpl; [|by apply IH].
  constructor; [|by apply IH].
  intros Hin. apply Hnotin. apply in_map_iff in Hin as (x & Hx & Hin).
  apply filter_In in Hin as [Hin _]. apply in_map_iff. eauto.
Qed.

Lemma filter_map_comm {A B} (f : A -> B) (g : B -> bool) l :
  List.filter g (map f l) = map f (List.filter (fun x => g (f x)) l).
Proof.
  induction l as [|a l IH]; simpl; [done|]. destruct (g (f a)); simpl; by rewrite IH.
Qed.

Lemma proposedName_nil doc : map (proposedName []) doc = doc.
Proof. induction doc as [|n doc IH]; [done|]. cbn. by rewrite IH. Qed.

(** The click handler on old names that the selector reads as they are,
    each the name of one IED, when no proposed name is the old name of
    another item. *)
Lemma forEachItem_safe items : forall doc,
  List.NoDup (map dataOldName items) ->
  (forall el, In el items -> selectorSafe (dataOldName el) = true) ->
  (forall el, In el items -> holders doc (dataOldName el) = 1) ->
  (forall i j a b, items !! i = Some a -> items !! j = Some b -> i <> j ->
     value a <> dataOldName b) ->
  exists us,
    forEachItem doc items = (us, map (proposedName items) doc, Closed) /\
    length us = length items /\
    (forall k el u, items !! k = Some el -> us !! k = Some u ->
       doc !! element u = Some (dataOldName el) /\ newIedName u = value el).
Proof.
  induction items as [|el items IH]; intros doc Hnd Hsafe Hone Hfree.
  - exists []. cbn. rewrite proposedName_nil. repeat split; done.
  - inversion Hnd as [|? ? Hnotin Hnd']; subst.
    assert (Hel : holders doc (dataOldName el) = 1) by (apply Hone; by left).
    destruct (lookupName_In doc (dataOldName el)) as (e & Hq & He).
    { apply holders_pos. lia. }
    assert (Hrest : forall b, In b items -> value el <> dataOldName b).
    { intros b Hb. apply list_elem_of_In, list_elem_of_lookup in Hb as [j Hj].
      apply (Hfree 0 (S j) el b); [done|done|lia]. }
    destruct (IH (<[e := value el]> doc)) as (us & Hus & Hlen & Hall).
    + done.
    + intros b Hb. apply Hsafe. by right.
    + intros b Hb. rewrite (holders_insert doc e (value el) (dataOldName el)).
      * apply Hone. by right.
      * done.
      * intros Heq. apply Hnotin. rewrite Heq. apply in_map_iff. eauto.
      * by apply Hrest.
    + intros i j a b Hi Hj Hne. apply (Hfree (S i) (S j) a b); [done|done|lia].
    + exists (mkUpdate e (value el) :: us). split; [|split].
      * cbn [forEachItem]. rewrite querySelectorIED_safe by (apply Hsafe; by left).
        rewrite Hq. unfold handleEdit. cbn [element newIedName]. rewrite Hus.
        f_equal. f_equal.
        apply list_eq. intros k. change (map ?f ?x) with (f <$> x).
        rewrite !list_lookup_fmap. destruct (decide (k = e)) as [->|Hk].
        -- rewrite list_lookup_insert_eq by (eapply lookup_lt_Some; eauto).
           rewrite He. cbn. f_equal.
           rewrite proposedName_absent by (intros b Hb Heq; by apply (Hrest b Hb)).
           unfold proposedName. cbn. by rewrite string_eqb_refl.
        -- rewrite list_lookup_insert_ne by done.
           destruct (doc !! k) as [n|] eqn:En; [|done]. cbn. f_equal.
           symmetry. apply proposedName_cons_other. intros Heq. subst n.
           apply Hk. symmetry. by apply (holders_lookup_inj doc (dataOldName el)).
      * simpl. by rewrite Hlen.
      * intros [|k] b u Hb Hu.
        -- injection Hb as <-. injection Hu as <-. done.
        -- cbn in Hb, Hu. destruct (Hall k b u Hb Hu) as [Hd Hn]. split; [|done].
           destruct (decide (element u = e)) as [Heq|Hne].
           ++ rewrite Heq, list_lookup_insert_eq in Hd by (eapply lookup_lt_Some; eauto).
              injection Hd as Hd. exfalso. apply (Hrest b); [|done].
              apply list_elem_of_In. eapply list_elem_of_lookup_2; eauto.
           ++ by rewrite list_lookup_insert_ne in Hd.
Qed.

(** C4, amended.  In a state reached from a document with distinct IED names
    that have no quote, backslash or line break, and in which no proposed
    name is the old name of another item, a click on the enabled button
    dispatches one update per list item, in list order: its element is the
    IED that has the item's old name in the document, its new name the
    item's value.  The updates that change a name are, up to order, one per
    name in [iedsToRename]; the handler ends by closing the dialog. *)
Theorem commit_updates_every_item
    (displayed doc : list (list ascii)) (p : Plugin) :
  List.NoDup displayed -> List.NoDup doc ->
  (forall n, In n displayed <-> In n doc) ->
  forallb selectorSafe displayed = true ->
  reachable displayed p ->
  isCommittable p = true ->
  (forall i j a b, iedListUI p !! i = Some a -> iedListUI p !! j = Some b ->
     i <> j -> value a <> dataOldName b) ->
  let updates := fst (clickRename doc p) in
  Forall2 (fun el u => doc !! element u = Some (dataOldName el) /\
                       newIedName u = value el)
          (iedListUI p) updates /\
  Permutation (map (oldNameIn doc) (List.filter (isChange doc) updates))
              (iedsToRename p) /\
  renameEnding doc (iedListUI p) = Closed.
Proof.
  intros Hnd Hndoc Hdoc Hsafe Hreach Hc Hfree updates.
  destruct (reachable_pendingConsistent _ _ Hnd Hreach) as (Hold & Hndr & Hsub & Hiff).
  destruct (forEachItem_safe (iedListUI p) doc) as (us & Hus & Hlen & Hall).
  { by rewrite Hold. }
  { intros el Hel. rewrite forallb_forall in Hsafe. apply Hsafe.
    rewrite <- Hold. apply in_map_iff. eauto. }
  { intros el Hel. apply NoDup_holders; [done|]. apply Hdoc. rewrite <- Hold.
    apply in_map_iff. eauto. }
  { done. }
  assert (Hupd : updates = us).
  { unfold updates, clickRename, renameIeds. unfold isCommittable in Hc.
    apply negb_true_iff in Hc. by rewrite Hc, Hus. }
  assert (Hup : map (renamePair doc) updates =
                map (fun el => (dataOldName el, value el)) (iedListUI p)).
  { rewrite Hupd. apply list_eq. intros k. change (map ?f ?x) with (f <$> x).
    rewrite !list_lookup_fmap.
    destruct (iedListUI p !! k) as [el|] eqn:Ek, (us !! k) as [u|] eqn:Eu; cbn.
    - destruct (Hall k el u Ek Eu) as [Hd Hn]. unfold renamePair, oldNameIn.
      by rewrite Hd, Hn.
    - apply lookup_lt_Some in Ek. apply lookup_ge_None in Eu. lia.
    - apply lookup_lt_Some in Eu. apply lookup_ge_None in Ek. lia.
    - done. }
  split; [|split].
  - rewrite Hupd. apply Forall2_same_length_lookup. split; [done|].
    intros k el u Ek Eu. by apply (Hall k).
  - assert (Hch : map (oldNameIn doc) (List.filter (isChange doc) updates) =
      map dataOldName
        (List.filter (fun el => negb (string_eqb (value el) (dataOldName el)))
                     (iedListUI p))).
    { transitivity (map fst (List.filter (fun pr => negb (string_eqb (snd pr) (fst pr)))
                                         (map (renamePair doc) updates))).
      - rewrite filter_map_comm, map_map. reflexivity.
      - rewrite Hup, filter_map_comm, map_map. reflexivity. }
    rewrite Hch.
    apply Permutation.NoDup_Permutation.
    + apply NoDup_map_filter. by rewrite Hold.
    + exact Hndr.
    + intros n. rewrite in_map_iff. split.
      * intros (el & <- & Hel). apply filter_In in Hel as [Hel Hv].
        apply list_elem_of_In in Hel. apply list_elem_of_lookup in Hel as [j Hj].
        apply (Hiff j el Hj). apply negb_true_iff in Hv. by apply string_eqb_neq.
      * intros Hn. pose proof (Hsub n Hn) as Hd. rewrite <- Hold in Hd.
        apply in_map_iff in Hd as (el & <- & Hel). exists el. split; [done|].
        apply filter_In. split; [done|].
        apply list_elem_of_In in Hel. apply list_elem_of_lookup in Hel as [j Hj].
        apply negb_true_iff. apply string_eqb_neq. by apply (Hiff j el Hj).
  - unfold renameEnding. by rewrite Hus.
Qed.

Lemma twoEdits_reachable : reachable threeNames twoEditsState.
Proof.
  apply (reach_input _ oneEditState 1 (str "P2")); [|vm_compute; reflexivity].
  apply (reach_input _ (run (render threeNames)) 0 (str "P1")); [|vm_compute; reflexivity].
  apply reach_run, reach_render.
Qed.

Lemma twoEdits_free i j a b :
  iedListUI twoEditsState !! i = Some a -> iedListUI twoEditsState !! j = Some b ->
  i <> j -> value a <> dataOldName b.
Proof.
  intros Hi Hj Hne.
  destruct i as [|[|[|i]]], j as [|[|[|j]]]; try discriminate; try lia;
    injection Hi as <-; injection Hj as <-; vm_compute; discriminate.
Qed.

Lemma threeNames_NoDup : List.NoDup threeNames.
Proof. repeat constructor; vm_compute; intuition discriminate. Qed.

Lemma commit_updates_every_item_witness :
  Forall2 (fun el u => threeNames !! element u = Some (dataOldName el) /\
                       newIedName u = value el)
          (iedListUI twoEditsState) (fst (clickRename threeNames twoEditsState)) /\
  Permutation
    (map (oldNameIn threeNames)
       (List.filter (isChange threeNames) (fst (clickRename threeNames twoEditsState))))
    (iedsToRename twoEditsState) /\
  renameEnding threeNames (iedListUI twoEditsState) = Closed.
Proof.
  apply (commit_updates_every_item threeNames threeNames twoEditsState).
  - apply threeNames_NoDup.
  - apply threeNames_NoDup.
  - intros n. reflexivity.
  - reflexivity.
  - apply twoEdits_reachable.
  - vm_compute. reflexivity.
  - apply twoEdits_free.
Defined.

(** C4 as stated fails: with three IEDs and two edits the button dispatches
    three updates, one of them for the unchanged IED3. *)
Lemma commit_counterexample :
  onInput (run (render threeNames)) 0 (str "P1") = Some oneEditState /\
  onInput oneEditState 1 (str "P2") = Some twoEditsState /\
  iedsToRename twoEditsState = [str "IED1"; str "IED2"] /\
  fst (clickRename threeNames twoEditsState) =
    [mkUpdate 0 (str "P1"); mkUpdate 1 (str "P2"); mkUpdate 2 (str "IED3")] /\
  map (renamePair threeNames) (fst (clickRename threeNames twoEditsState)) =
    [(str "IED1", str "P1"); (str "IED2", str "P2"); (str "IED3", str "IED3")] /\
  ~ commitsExactlyPending threeNames twoEditsState.
Proof.
  split; [vm_compute; reflexivity|]. split; [vm_compute; reflexivity|].
  split; [vm_compute; reflexivity|]. split; [vm_compute; reflexivity|].
  split; [vm_compute; reflexivity|].
  intros [_ H]. apply (H (mkUpdate 2 (str "IED3"))); [|reflexivity].
  vm_compute. right. right. left. reflexivity.
Qed.

(** * The search expression compiler

    ** Replacement, trimming and the terms of an expression *)

Lemma charMatcher_Class invert items :
  charMatcher (inClass invert items) (compile false (Class invert items)).
Proof. intros x k. reflexivity. Qed.

Lemma minus_S_same n : S n - n = 1.
Proof. lia. Qed.

Lemma replace_charwise (re : RegExp.t) (P : ascii -> bool) by_ :
  (forall ch y, matchAt re (ch :: y) = if P ch then Some y else None) ->
  matchAt re [] = None ->
  forall s, RegExp.replace re by_ s =
            flat_map (fun ch => if P ch then by_ [ch] else [ch]) s.
Proof.
  intros Hm Hnil s. unfold RegExp.replace.
  induction s as [|ch s IH]; simpl.
  - by rewrite Hnil.
  - rewrite Hm. destruct (P ch).
    + rewrite minus_S_same. simpl. rewrite take_0. by rewrite IH.
    + simpl. by rewrite IH.
Qed.

Lemma matchAll_from_skip re a : forall s,
  matchAll_from re (length a) (a ++ s) = matchAll_from re 0 s.
Proof. induction a as [|c a IH]; intros s; simpl; [done|apply IH]. Qed.

Lemma trimStart_id s :
  (forall ch s', s = ch :: s' -> isWhiteSpace ch = false) -> trimStart s = s.
Proof.
  destruct s as [|ch s']; [done|]. intros H. simpl. by rewrite (H ch s').
Qed.

Lemma replace_escapeRe s :
  RegExp.replace escapeRe (fun m => "\"%char :: m) s = flat_map escapeChar s.
Proof.
  rewrite (replace_charwise escapeRe isEscaped).
  - reflexivity.
  - intros ch y. unfold matchAt. cbn [escapeRe pattern RegExp.ignoreCase compile].
    replace (xorb false _) with (isEscaped ch); [done|]. by each_code_unit ch.
  - reflexivity.
Qed.

Lemma replace_starRe s :
  RegExp.replace starRe (fun _ => str ".*") s =
  flat_map (fun ch => if ascii_eqb ch "*" then str ".*" else [ch]) s.
Proof.
  rewrite (replace_charwise starRe (fun ch => ascii_eqb ch "*")).
  - reflexivity.
  - intros ch y. unfold matchAt. cbn [starRe pattern RegExp.ignoreCase compile Canonicalize].
    unfold ascii_eqb. by rewrite Ascii.eqb_sym.
  - reflexivity.
Qed.

Lemma replace_questionRe s :
  RegExp.replace questionRe (fun _ => str ".{1}") s =
  flat_map (fun ch => if ascii_eqb ch "?" then str ".{1}" else [ch]) s.
Proof.
  rewrite (replace_charwise questionRe (fun ch => ascii_eqb ch "?")).
  - reflexivity.
  - intros ch y. unfold matchAt. cbn [questionRe pattern RegExp.ignoreCase compile Canonicalize].
    unfold ascii_eqb. by rewrite Ascii.eqb_sym.
  - reflexivity.
Qed.

Lemma replace_quoteRe s :
  RegExp.replace quoteRe (fun _ => []) s =
  flat_map (fun ch => if isQuote ch then [] else [ch]) s.
Proof.
  rewrite (replace_charwise quoteRe isQuote).
  - reflexivity.
  - intros ch y. unfold matchAt. cbn [quoteRe pattern RegExp.ignoreCase compile Canonicalize].
    unfold isQuote, ascii_eqb. rewrite (Ascii.eqb_sym ch dquote), (Ascii.eqb_sym ch squote).
    destruct (Ascii.eqb dquote ch); [done|]. by destruct (Ascii.eqb squote ch).
  - reflexivity.
Qed.

Lemma flat_map_flat_map {A B C} (f : A -> list B) (g : B -> list C) l :
  flat_map g (flat_map f l) = flat_map (fun a => flat_map g (f a)) l.
Proof.
  induction l as [|a l IH]; simpl; [done|]. by rewrite flat_map_app, IH.
Qed.

Lemma expandTerm_escape t :
  forallb isTermChar t = true ->
  expandTerm (flat_map escapeChar t) = flat_map piece t.
Proof.
  intros Ht. unfold expandTerm.
  rewrite replace_starRe, replace_questionRe, replace_quoteRe.
  rewrite !flat_map_flat_map.
  induction t as [|c t IH]; [done|].
  cbn [forallb] in Ht. apply andb_true_iff in Ht as [Hc Ht].
  cbn [flat_map]. rewrite (IH Ht). f_equal.
  clear -Hc. each_code_unit c; try discriminate Hc; reflexivity.
Qed.

Lemma charMatcher_stops P m rest k :
  charMatcher P m -> stops P rest -> m rest k = None.
Proof.
  intros Hm Hs. rewrite Hm. destruct rest as [|c r]; [done|].
  simpl in Hs. by rewrite Hs.
Qed.

Lemma RepeatMatcher_greedy_run m P k z rest :
  charMatcher P m -> stops P rest -> k rest = Some z ->
  forall run fuel, forallb P run = true -> length (run ++ rest) <= fuel ->
  RepeatMatcher m fuel 0 None (run ++ rest) k = Some z.
Proof.
  intros Hm Hs Hk run. induction run as [|c run IH]; intros fuel Hrun Hfuel.
  - simpl. destruct fuel as [|fuel]; simpl; [done|].
    by rewrite (charMatcher_stops P m rest _ Hm Hs).
  - cbn [forallb] in Hrun. apply andb_true_iff in Hrun as [Hc Hrun].
    destruct fuel as [|fuel]; [simpl in Hfuel; lia|].
    cbn [RepeatMatcher Nat.eqb app]. rewrite Hm, Hc.
    replace (length (run ++ rest) =? length (c :: run ++ rest)) with false
      by (symmetry; apply Nat.eqb_neq; simpl; lia).
    cbn [andb pred option_map]. rewrite IH; [done|done|simpl in Hfuel; lia].
Qed.

Lemma compile_Plus_class_run invert items k z c run rest :
  let P := inClass invert items in
  P c = true -> forallb P run = true -> stops P rest -> k rest = Some z ->
  compile false (Plus (Class invert items)) (c :: run ++ rest) k = Some z.
Proof.
  intros P Hc Hrun Hs Hk. unfold Plus.
  cbn [compile Nat.add RepeatMatcher Nat.eqb]. fold (inClass invert items c). fold P.
  rewrite Hc. cbn [andb pred option_map].
  apply (RepeatMatcher_greedy_run _ P k z rest (charMatcher_Class _ _) Hs Hk run _ Hrun).
  simpl. lia.
Qed.

Lemma compile_Plus_class_stops invert items k rest :
  stops (inClass invert items) rest ->
  compile false (Plus (Class invert items)) rest k = None.
Proof.
  intros Hs. unfold Plus. cbn [compile Nat.add RepeatMatcher Nat.eqb].
  destruct rest as [|c r]; [done|]. simpl in Hs. fold (inClass invert items c).
  by rewrite Hs.
Qed.

Lemma forallb_pointwise {A} (f g : A -> bool) l :
  (forall x, f x = g x) -> forallb f l = forallb g l.
Proof. intros H. induction l as [|a l IH]; simpl; [done|]. by rewrite H, IH. Qed.

Lemma inClass_termChar c :
  inClass true [CSpace; CChar dquote; CChar squote] c = isTermChar c.
Proof. by each_code_unit c. Qed.

Lemma space_not_termChar c : isWhiteSpace c = true -> isTermChar c = false.
Proof. unfold isTermChar. by intros ->. Qed.

Lemma space_not_quote c :
  isWhiteSpace c = true -> inClass false [CChar squote; CChar dquote] c = false.
Proof. each_code_unit c; try discriminate; reflexivity. Qed.

Lemma startsWithSpace_stops rest :
  startsWithSpace rest -> stops (inClass true [CSpace; CChar dquote; CChar squote]) rest.
Proof.
  destruct rest as [|c r]; [done|]. cbn [stops startsWithSpace]. intros H.
  rewrite inClass_termChar. by apply space_not_termChar.
Qed.

Lemma termAlt_fails rest k :
  startsWithSpace rest -> compile false termAlt rest k = None.
Proof.
  intros Hs. unfold termAlt. cbn [compile].
  change (RepeatMatcher _ _ 1 None rest k)
    with (compile false (Plus (Class true [CSpace; CChar dquote; CChar squote])) rest k).
  rewrite compile_Plus_class_stops by (by apply startsWithSpace_stops).
  destruct rest as [|c r]; [done|]. simpl in Hs.
  fold (inClass false [CChar squote; CChar dquote] c).
  by rewrite space_not_quote.
Qed.

Lemma matchAt_termRe_space rest :
  startsWithSpace rest -> matchAt termRe rest = None.
Proof.
  intros Hs. unfold matchAt, termRe. fold termAlt. unfold Plus.
  cbn [pattern RegExp.ignoreCase compile Nat.add RepeatMatcher Nat.eqb].
  by apply termAlt_fails.
Qed.

Lemma matchAt_termRe_run c run rest :
  isTermChar c = true -> forallb isTermChar run = true -> startsWithSpace rest ->
  matchAt termRe (c :: run ++ rest) = Some rest.
Proof.
  intros Hc Hrun Hs. unfold matchAt, termRe. fold termAlt. unfold Plus.
  cbn [pattern RegExp.ignoreCase compile Nat.add RepeatMatcher Nat.eqb andb pred option_map].
  unfold termAlt at 1. cbn [compile].
  change (RepeatMatcher _ _ 1 None ?x ?k)
    with (compile false (Plus (Class true [CSpace; CChar dquote; CChar squote])) x k).
  rewrite (compile_Plus_class_run _ _ _ rest); try done.
  - by rewrite inClass_termChar.
  - transitivity (forallb isTermChar run); [|exact Hrun].
    apply forallb_pointwise, inClass_termChar.
  - by apply startsWithSpace_stops.
  - cbn [length RepeatMatcher Nat.eqb]. by rewrite termAlt_fails.
Qed.

Lemma matchAll_from_term c run rest :
  isTermChar c = true -> forallb isTermChar run = true -> startsWithSpace rest ->
  matchAll_from termRe 0 (c :: run ++ rest) =
  (c :: run) :: matchAll_from termRe 0 rest.
Proof.
  intros Hc Hrun Hs. cbn [matchAll_from].
  rewrite (matchAt_termRe_run c run rest Hc Hrun Hs).
  replace (length (c :: run ++ rest) - length rest) with (S (length run))
    by (simpl; rewrite length_app; lia).
  cbn [take pred]. rewrite take_app_length. f_equal. apply matchAll_from_skip.
Qed.

Lemma matchAll_from_spaces sep s :
  forallb isWhiteSpace sep = true ->
  matchAll_from termRe 0 (sep ++ s) = matchAll_from termRe 0 s.
Proof.
  induction sep as [|c sep IH]; intros H; [done|].
  cbn [forallb] in H. apply andb_true_iff in H as [Hc H].
  cbn [app matchAll_from]. rewrite matchAt_termRe_space by exact Hc. by apply IH.
Qed.

Lemma termChar_not_space c : isTermChar c = true -> isWhiteSpace c = false.
Proof. unfold isTermChar. destruct (isWhiteSpace c); [discriminate|done]. Qed.

Lemma escapeChar_termChar c :
  isTermChar c = true -> forallb isTermChar (escapeChar c) = true.
Proof. each_code_unit c; try discriminate; reflexivity. Qed.

Lemma escape_termChars t :
  forallb isTermChar t = true -> forallb isTermChar (flat_map escapeChar t) = true.
Proof.
  induction t as [|c t IH]; [done|]. cbn [forallb flat_map]. intros H.
  apply andb_true_iff in H as [Hc H].
  rewrite forallb_app, (escapeChar_termChar c Hc). by apply IH.
Qed.

Lemma escape_nonempty t : t <> [] -> flat_map escapeChar t <> [].
Proof.
  destruct t as [|c t]; [done|]. intros _. cbn [flat_map]. unfold escapeChar.
  destruct (isEscaped c); discriminate.
Qed.

Lemma escape_space sep :
  forallb isWhiteSpace sep = true -> flat_map escapeChar sep = sep.
Proof.
  induction sep as [|c sep IH]; [done|]. cbn [forallb flat_map]. intros H.
  apply andb_true_iff in H as [Hc H]. rewrite (IH H).
  replace (escapeChar c) with [c]; [done|].
  clear -Hc. each_code_unit c; try discriminate; reflexivity.
Qed.

Lemma trim_id x :
  (forall c, head x = Some c -> isWhiteSpace c = false) ->
  (forall c, head (rev x) = Some c -> isWhiteSpace c = false) ->
  trim x = x.
Proof.
  intros H1 H2. unfold trim.
  rewrite (trimStart_id x).
  - rewrite (trimStart_id (rev x)); [apply rev_involutive|].
    intros ch s' E. apply H2. by rewrite E.
  - intros ch s' E. apply H1. by rewrite E.
Qed.

Lemma head_forallb (P : ascii -> bool) x c :
  forallb P x = true -> head x = Some c -> P c = true.
Proof.
  destruct x as [|a x]; [discriminate|]. cbn. intros H [= <-].
  by apply andb_true_iff in H as [H _].
Qed.

Lemma head_app_nonempty {A} (x y : list A) : x <> [] -> head (x ++ y) = head x.
Proof. by destruct x. Qed.

Lemma forallb_rev {A} (P : A -> bool) x : forallb P (rev x) = forallb P x.
Proof.
  induction x as [|a x IH]; [done|]. cbn [rev]. rewrite forallb_app, IH. cbn.
  rewrite andb_true_r. apply andb_comm.
Qed.

Lemma rev_nonempty {A} (x : list A) : x <> [] -> rev x <> [].
Proof. destruct x as [|a x]; [done|]. intros _. cbn. by destruct (rev x). Qed.

(** The terms of a search expression made of one unquoted term. *)
Lemma terms_single t :
  t <> [] -> forallb isTermChar t = true ->
  RegExp.matchAll termRe
    (trim (RegExp.replace escapeRe (fun m => "\"%char :: m) t)) =
  [flat_map escapeChar t].
Proof.
  intros Hne Ht. rewrite replace_escapeRe.
  pose proof (escape_termChars t Ht) as He.
  pose proof (escape_nonempty t Hne) as Hen.
  rewrite trim_id.
  - unfold RegExp.matchAll. destruct (flat_map escapeChar t) as [|c e]; [done|].
    cbn [forallb] in He. apply andb_true_iff in He as [Hc He].
    rewrite <- (app_nil_r e) at 1.
    rewrite (matchAll_from_term c e []); done.
  - intros c Hc. apply termChar_not_space. by apply (head_forallb _ _ _ He).
  - intros c Hc. apply termChar_not_space.
    apply (head_forallb isTermChar (rev (flat_map escapeChar t))); [|done].
    by rewrite forallb_rev.
Qed.

(** The terms of a search expression made of two unquoted terms separated by
    white space. *)
Lemma terms_pair t1 sep t2 :
  t1 <> [] -> forallb isTermChar t1 = true ->
  sep <> [] -> forallb isWhiteSpace sep = true ->
  t2 <> [] -> forallb isTermChar t2 = true ->
  RegExp.matchAll termRe
    (trim (RegExp.replace escapeRe (fun m => "\"%char :: m) (t1 ++ sep ++ t2))) =
  [flat_map escapeChar t1; flat_map escapeChar t2].
Proof.
  intros Hne1 Ht1 Hnes Hsep Hne2 Ht2. rewrite replace_escapeRe.
  rewrite !flat_map_app, (escape_space sep Hsep).
  pose proof (escape_termChars t1 Ht1) as He1.
  pose proof (escape_nonempty t1 Hne1) as Hen1.
  pose proof (escape_termChars t2 Ht2) as He2.
  pose proof (escape_nonempty t2 Hne2) as Hen2.
  set (e1 := flat_map escapeChar t1) in *. set (e2 := flat_map escapeChar t2) in *.
  rewrite trim_id.
  - unfold RegExp.matchAll.
    destruct e1 as [|c1 e1']; [done|]. destruct e2 as [|c2 e2']; [done|].
    cbn [forallb] in He1, He2.
    apply andb_true_iff in He1 as [Hc1 He1]. apply andb_true_iff in He2 as [Hc2 He2].
    cbn [app]. rewrite (matchAll_from_term c1 e1' (sep ++ c2 :: e2')); try done.
    + rewrite matchAll_from_spaces by done.
      rewrite <- (app_nil_r e2') at 1. rewrite (matchAll_from_term c2 e2' []); done.
    + destruct sep as [|s sep']; [done|]. cbn in *.
      by apply andb_true_iff in Hsep as [Hs _].
  - intros c Hc. apply termChar_not_space. rewrite head_app_nonempty in Hc by done.
    by apply (head_forallb _ _ _ He1).
  - intros c Hc. apply termChar_not_space.
    rewrite !rev_app_distr, <- app_assoc in Hc.
    rewrite head_app_nonempty in Hc by (by apply rev_nonempty).
    apply (head_forallb isTermChar (rev e2)); [|done]. by rewrite forallb_rev.
Qed.

(** ** The pattern source always parses *)

Lemma parseQuantifier_none a s :
  startsQuantifier s = false -> parseQuantifier a s = Some (a, s).
Proof.
  destruct s as [|c s]; [done|].
  each_code_unit c; try discriminate; reflexivity.
Qed.

Lemma startsQuantifier_piece c rest : startsQuantifier (piece c ++ rest) = false.
Proof. by each_code_unit c. Qed.

Lemma startsQuantifier_pieces t rest :
  startsQuantifier rest = false -> startsQuantifier (flat_map piece t ++ rest) = false.
Proof.
  destruct t as [|c t]; [done|]. intros _. cbn [flat_map].
  rewrite <- app_assoc. apply startsQuantifier_piece.
Qed.

Lemma greedy_star rest :
  startsQuantifier rest = false ->
  parseQuantifier Dot ("*"%char :: rest) = Some (Repeat 0 None Dot, rest).
Proof.
  destruct rest as [|c s]; [done|].
  each_code_unit c; try discriminate; reflexivity.
Qed.

Lemma greedy_one rest :
  startsQuantifier rest = false ->
  parseQuantifier Dot ("{"%char :: "1"%char :: "}"%char :: rest) =
  Some (Repeat 1 (Some 1) Dot, rest).
Proof.
  destruct rest as [|c s]; [done|].
  each_code_unit c; try discriminate; reflexivity.
Qed.

Lemma parseTerm_piece pd c rest :
  startsQuantifier rest = false ->
  parseTerm pd (piece c ++ rest) = Some (atom c, rest).
Proof.
  intros H.
  each_code_unit c;
    first [ apply (parseQuantifier_none _ _ H)
          | apply (greedy_star _ H)
          | apply (greedy_one _ H) ].
Qed.

Lemma parseAlternative_piece pd fuel c rest :
  startsQuantifier rest = false ->
  parseAlternative pd (S fuel) (piece c ++ rest) =
  match parseAlternative pd fuel rest with
  | Some (a, s) => Some (Seq (atom c) a, s)
  | None => None
  end.
Proof.
  intros H.
  transitivity (match parseTerm pd (piece c ++ rest) with
                | Some (t, s') =>
                  match parseAlternative pd fuel s' with
                  | Some (a, s'') => Some (Seq t a, s'')
                  | None => None
                  end
                | None => None
                end).
  - by each_code_unit c.
  - by rewrite (parseTerm_piece pd c rest H).
Qed.

Lemma parseAlternative_pieces pd t : forall n rest,
  startsQuantifier rest = false ->
  parseAlternative pd (length t + n) (flat_map piece t ++ rest) =
  match parseAlternative pd n rest with
  | Some (a, s) => Some (termRegex t a, s)
  | None => None
  end.
Proof.
  induction t as [|c t IH]; intros n rest H.
  - cbn. by destruct (parseAlternative pd n rest) as [[a s]|].
  - cbn [length Nat.add flat_map termRegex fold_right]. rewrite <- app_assoc.
    rewrite parseAlternative_piece by (by apply startsQuantifier_pieces).
    rewrite (IH n rest H). by destruct (parseAlternative pd n rest) as [[a s]|].
Qed.

Lemma parseAlternative_close pd fuel rest :
  parseAlternative pd fuel (")"%char :: rest) = Some (Empty, ")"%char :: rest).
Proof. by destruct fuel. Qed.

Lemma parseAlternative_end pd fuel : parseAlternative pd fuel [] = Some (Empty, []).
Proof. by destruct fuel. Qed.

Lemma parseDisjunction_term fuel t rest :
  length t + 2 <= fuel ->
  parseDisjunction fuel (str ".*" ++ flat_map piece t ++ ")"%char :: rest) =
  Some (termRegex ("*"%char :: t) Empty, ")"%char :: rest).
Proof.
  intros Hf. destruct fuel as [|fuel]; [lia|]. cbn [parseDisjunction].
  replace fuel with (length ("*"%char :: t) + (fuel - S (length t))) at 2
    by (simpl; lia).
  change (str ".*" ++ flat_map piece t ++ ")"%char :: rest)
    with (flat_map piece ("*"%char :: t) ++ ")"%char :: rest).
  rewrite parseAlternative_pieces by done.
  by rewrite parseAlternative_close.
Qed.

Lemma parseTerm_lookahead fuel t rest :
  length t + 2 <= fuel ->
  parseTerm (parseDisjunction fuel) (lookaheadSource t ++ rest) =
  Some (lookaheadRegex t, rest).
Proof.
  intros Hf. unfold lookaheadSource. rewrite <- !app_assoc.
  change (str "(?=.*" ++ ?x) with ("("%char :: "?"%char :: "="%char :: str ".*" ++ x).
  cbn [parseTerm]. change (str ")" ++ rest) with (")"%char :: rest).
  by rewrite parseDisjunction_term.
Qed.

Lemma parseAlternative_lookaheads pdfuel ts : forall fuel,
  Forall (fun t => length t + 2 <= pdfuel) ts ->
  length ts + 1 <= fuel ->
  parseAlternative (parseDisjunction pdfuel) fuel
    (concat (map lookaheadSource ts) ++ str ".*") =
  Some (searchPattern ts, []).
Proof.
  induction ts as [|t ts IH]; intros fuel Hts Hf.
  - cbn [map concat app searchPattern fold_right].
    destruct fuel as [|fuel]; [simpl in Hf; lia|].
    change (str ".*") with (piece "*" ++ []).
    rewrite parseAlternative_piece by done. by rewrite parseAlternative_end.
  - inversion Hts as [|? ? Ht Hts']; subst.
    destruct fuel as [|fuel]; [simpl in Hf; lia|].
    cbn [map concat searchPattern fold_right]. rewrite <- app_assoc.
    transitivity
      (match parseTerm (parseDisjunction pdfuel)
               (lookaheadSource t ++ concat (map lookaheadSource ts) ++ str ".*") with
       | Some (t0, s') =>
         match parseAlternative (parseDisjunction pdfuel) fuel s' with
         | Some (a, s'') => Some (Seq t0 a, s'')
         | None => None
         end
       | None => None
       end).
    + reflexivity.
    + rewrite parseTerm_lookahead by done.
      rewrite IH; [done|done|simpl in Hf; lia].
Qed.

Lemma length_piece c : 1 <= length (piece c).
Proof. unfold piece. repeat case_match; simpl; lia. Qed.

Lemma length_pieces t : length t <= length (flat_map piece t).
Proof.
  induction t as [|c t IH]; [done|]. cbn [flat_map length].
  rewrite length_app. pose proof (length_piece c). lia.
Qed.

Lemma length_lookaheadSource t : length t + 6 <= length (lookaheadSource t).
Proof.
  unfold lookaheadSource. rewrite !length_app. pose proof (length_pieces t).
  simpl. lia.
Qed.

Lemma new_searchPattern ts :
  RegExp.new (concat (map lookaheadSource ts) ++ str ".*") true =
  Some (mk (searchPattern ts) true).
Proof.
  unfold RegExp.new, parsePattern. cbn [parseDisjunction].
  rewrite parseAlternative_lookaheads; [done| |].
  - rewrite length_app. induction ts as [|t ts IH]; [constructor|].
    constructor.
    + cbn [map concat]. rewrite length_app. pose proof (length_lookaheadSource t). lia.
    + eapply Forall_impl; [exact IH|]. intros x Hx. cbn [map concat].
      rewrite length_app. cbn in *. lia.
  - rewrite length_app. cbn [length str list_ascii_of_string].
    induction ts as [|t ts IH]; [simpl; lia|].
    cbn [map concat length]. rewrite length_app.
    pose proof (length_lookaheadSource t). lia.
Qed.

(** ** What the pattern matches *)

Lemma anyRun_ext f g s : (forall x, f x = g x) -> anyRun f s = anyRun g s.
Proof. intros H. induction s as [|d s IH]; simpl; rewrite H; [done|by rewrite IH]. Qed.

Lemma RepeatMatcher_star_dot K x :
  accepts (RepeatMatcher (compile true Dot) (length x) 0 None x K) =
  anyRun (fun s => accepts (K s)) x.
Proof.
  induction x as [|d x IH].
  - cbn. by rewrite orb_false_r.
  - cbn [length RepeatMatcher Nat.eqb compile anyRun].
    destruct (isLineTerminator d); cbn [negb andb].
    + by rewrite orb_false_r.
    + replace (length x =? S (length x)) with false
        by (symmetry; apply Nat.eqb_neq; lia).
      cbn [andb pred option_map]. rewrite <- IH.
      destruct (RepeatMatcher _ _ _ _ _ _); cbn; [by rewrite orb_true_r|].
      by rewrite orb_false_r.
Qed.

Lemma compile_termRegex t : forall x,
  accepts (compile true (termRegex t Empty) x (fun y => Some y)) = globPrefix t x.
Proof.
  induction t as [|c t IH]; intros x; [done|].
  cbn [termRegex fold_right compile globPrefix]. fold (termRegex t Empty).
  unfold atom. destruct (ascii_eqb c "*"); [|destruct (ascii_eqb c "?")].
  - cbn [compile Nat.add]. rewrite RepeatMatcher_star_dot. by apply anyRun_ext.
  - cbn [compile Nat.add RepeatMatcher Nat.eqb pred option_map andb].
    destruct x as [|d x]; [done|].
    destruct (isLineTerminator d); [done|]. cbn [negb andb].
    destruct (length x + 0); apply IH.
  - cbn [compile Canonicalize]. destruct x as [|d x]; [done|].
    unfold sameLetter. destruct (ascii_eqb _ _); [apply IH|done].
Qed.

Lemma matchAt_searchPattern ts x :
  accepts (matchAt (mk (searchPattern ts) true) x) =
  forallb (fun t => globPrefix ("*"%char :: t) x) ts.
Proof.
  unfold matchAt. cbn [pattern RegExp.ignoreCase].
  induction ts as [|t ts IH].
  - cbn [searchPattern fold_right forallb compile Nat.add].
    rewrite RepeatMatcher_star_dot. by destruct x.
  - cbn [searchPattern fold_right forallb]. fold (searchPattern ts).
    unfold lookaheadRegex at 1. cbn [compile].
    change (RepeatMatcher (compile true Dot) (length x) 0 None x
              (fun y => compile true (termRegex t Empty) y (fun y0 => Some y0)))
      with (compile true (termRegex ("*"%char :: t) Empty) x (fun y => Some y)).
    rewrite <- (compile_termRegex ("*"%char :: t)).
    destruct (compile true (termRegex ("*"%char :: t) Empty) x _); [apply IH|done].
Qed.

Lemma test_tails re s :
  RegExp.test re s = existsb (fun x => accepts (matchAt re x)) (tails s).
Proof.
  induction s as [|c s IH]; cbn [RegExp.test tails existsb].
  - by destruct (matchAt re []).
  - rewrite IH. by destruct (matchAt re (c :: s)).
Qed.

Lemma getSearchRegex_terms raw ts :
  raw <> [] ->
  RegExp.matchAll termRe
    (trim (RegExp.replace escapeRe (fun m => "\"%char :: m) raw)) =
    map (flat_map escapeChar) ts ->
  Forall (fun t => forallb isTermChar t = true) ts ->
  getSearchRegex raw = Some (mk (searchPattern ts) true).
Proof.
  intros Hne Hterms Hts. unfold getSearchRegex.
  apply string_eqb_neq in Hne. rewrite Hne, Hterms.
  rewrite <- new_searchPattern. f_equal. f_equal. f_equal.
  rewrite !map_map. clear Hterms. induction Hts as [|t ts Ht Hts IH]; [done|].
  cbn [map]. rewrite IH. f_equal. unfold lookaheadSource. f_equal. f_equal.
  apply (expandTerm_escape t Ht).
Qed.

Lemma searchTest_single t s :
  t <> [] -> forallb isTermChar t = true ->
  searchTest t s = Some (existsb (globPrefix ("*"%char :: t)) (tails s)).
Proof.
  intros Hne Ht. unfold searchTest.
  rewrite (getSearchRegex_terms t [t] Hne (terms_single t Hne Ht)) by (by constructor).
  rewrite test_tails. f_equal.
  induction (tails s) as [|x l IH]; [done|]. cbn [existsb].
  rewrite IH, matchAt_searchPattern. cbn [forallb]. by rewrite andb_true_r.
Qed.

Lemma searchTest_pair t1 sep t2 s :
  t1 <> [] -> forallb isTermChar t1 = true ->
  sep <> [] -> forallb isWhiteSpace sep = true ->
  t2 <> [] -> forallb isTermChar t2 = true ->
  searchTest (t1 ++ sep ++ t2) s =
  Some (existsb (fun x => globPrefix ("*"%char :: t1) x && globPrefix ("*"%char :: t2) x)
                (tails s)).
Proof.
  intros Hne1 Ht1 Hnes Hsep Hne2 Ht2. unfold searchTest.
  rewrite (getSearchRegex_terms _ [t1; t2]).
  - rewrite test_tails. f_equal.
    induction (tails s) as [|x l IH]; [done|]. cbn [existsb].
    rewrite IH, matchAt_searchPattern. cbn [forallb]. by rewrite andb_true_r.
  - destruct t1; [done|discriminate].
  - by apply terms_pair.
  - by repeat constructor.
Qed.

Lemma existsb_tails_self f x : f x = true -> existsb f (tails x) = true.
Proof. intros H. destruct x; cbn [tails existsb]; by rewrite H. Qed.

Lemma anyRun_tails f x : anyRun f x = true -> existsb f (tails x) = true.
Proof.
  induction x as [|d x IH]; cbn [anyRun tails existsb].
  - intros H; exact H.
  - intros H. apply orb_true_iff in H as [H|H]; [by rewrite H|].
    apply andb_true_iff in H as [_ H]. rewrite (IH H). apply orb_true_r.
Qed.

Lemma anyRun_self f x : f x = true -> anyRun f x = true.
Proof. intros H. destruct x; cbn [anyRun]; by rewrite H. Qed.

Lemma tails_anyRun f x :
  forallb (fun d => negb (isLineTerminator d)) x = true ->
  anyRun f x = existsb f (tails x).
Proof.
  induction x as [|d x IH]; intros H; cbn [anyRun tails existsb]; [done|].
  cbn [forallb] in H. apply andb_true_iff in H as [-> H]. cbn [andb]. by rewrite IH.
Qed.

Lemma existsb_tails_anyRun f s :
  existsb (anyRun f) (tails s) = existsb f (tails s).
Proof.
  apply eq_true_iff_eq. split.
  - induction s as [|c s IH]; cbn [tails existsb].
    + rewrite !orb_false_r. cbn [anyRun]. by rewrite orb_false_r.
    + intros H. apply orb_true_iff in H as [H|H].
      * apply (anyRun_tails f (c :: s)) in H. exact H.
      * rewrite (IH H). apply orb_true_r.
  - induction s as [|c s IH]; cbn [tails existsb].
    + rewrite !orb_false_r. apply anyRun_self.
    + intros H. apply orb_true_iff in H as [H|H].
      * by rewrite (anyRun_self f _ H).
      * rewrite (IH H). apply orb_true_r.
Qed.

Lemma existsb_tails_both f g s :
  forallb (fun d => negb (isLineTerminator d)) s = true ->
  existsb (fun x => anyRun f x && anyRun g x) (tails s) =
  existsb f (tails s) && existsb g (tails s).
Proof.
  intros Hs. apply eq_true_iff_eq. split.
  - clear Hs. induction s as [|c s IH]; cbn [tails existsb].
    + rewrite !orb_false_r. cbn. by rewrite !orb_false_r.
    + intros H. apply orb_true_iff in H as [H|H].
      * apply andb_true_iff in H as [Hf Hg].
        apply (anyRun_tails f (c :: s)) in Hf. apply (anyRun_tails g (c :: s)) in Hg.
        cbn [tails existsb] in Hf, Hg. by rewrite Hf, Hg.
      * apply IH in H. apply andb_true_iff in H as [Hf Hg].
        rewrite Hf, Hg. by rewrite !orb_true_r.
  - intros H. apply existsb_tails_self.
    rewrite !tails_anyRun by done. exact H.
Qed.

Lemma plain_termChars t : forallb isPlainChar t = true -> forallb isTermChar t = true.
Proof.
  induction t as [|c t IH]; [done|]. cbn [forallb]. intros H.
  apply andb_true_iff in H as [Hc H]. rewrite (IH H).
  unfold isPlainChar in Hc. by destruct (isTermChar c).
Qed.

Lemma globPrefix_plain t : forall x,
  forallb isPlainChar t = true -> globPrefix t x = startsWith t x.
Proof.
  induction t as [|c t IH]; intros x H; [by destruct x|].
  cbn [forallb] in H. apply andb_true_iff in H as [Hc H].
  cbn [globPrefix startsWith]. unfold isPlainChar in Hc.
  destruct (ascii_eqb c "*"); [by rewrite andb_false_r in Hc|].
  destruct (ascii_eqb c "?"); [by rewrite andb_false_r in Hc|].
  destruct x as [|d x]; [done|]. by rewrite IH.
Qed.

Lemma existsb_pointwise {A} (f g : A -> bool) l :
  (forall x, f x = g x) -> existsb f l = existsb g l.
Proof. intros H. induction l as [|a l IH]; simpl; [done|]. by rewrite H, IH. Qed.

(** [occursIn] says what its name says: some substring of [s] equals [t] up
    to the case of its letters. *)
Lemma startsWith_spec t : forall s,
  startsWith t s = true <->
  exists w post, s = w ++ post /\ map toUpperCase w = map toUpperCase t.
Proof.
  induction t as [|c t IH]; intros s.
  - split; [intros _; by exists [], s|]. by destruct s.
  - destruct s as [|d s]; cbn [startsWith].
    + split; [discriminate|]. intros (w & post & E & Hw).
      destruct w; [discriminate|discriminate].
    + rewrite andb_true_iff, IH. unfold sameLetter, ascii_eqb. rewrite Ascii.eqb_eq.
      split.
      * intros (Hc & w & post & -> & Hw). exists (d :: w), post. cbn. by rewrite Hc, Hw.
      * intros (w & post & E & Hw). destruct w as [|e w]; [discriminate|].
        cbn in E, Hw. injection E as -> ->. injection Hw as Hc Hw. eauto.
Qed.

Lemma existsb_tails_spec f s :
  existsb f (tails s) = true <-> exists pre x, s = pre ++ x /\ f x = true.
Proof.
  induction s as [|c s IH]; cbn [tails existsb].
  - rewrite orb_false_r. split; [intros H; by exists [], []|].
    intros (pre & x & E & H). symmetry in E. apply app_eq_nil in E as [_ ->]. exact H.
  - rewrite orb_true_iff, IH. split.
    + intros [H|(pre & x & -> & H)]; [by exists [], (c :: s)|by exists (c :: pre), x].
    + intros (pre & x & E & H). destruct pre as [|e pre].
      * left. cbn in E. by subst.
      * right. cbn in E. injection E as -> ->. eauto.
Qed.

Lemma occursIn_spec t s :
  occursIn t s = true <->
  exists pre w post, s = pre ++ w ++ post /\ map toUpperCase w = map toUpperCase t.
Proof.
  unfold occursIn. rewrite existsb_tails_spec. split.
  - intros (pre & x & -> & H). apply startsWith_spec in H as (w & post & -> & Hw). eauto.
  - intros (pre & w & post & -> & Hw). exists pre, (w ++ post). split; [done|].
    apply startsWith_spec. eauto.
Qed.

(** C7, amended.  For two terms without white space, quotes, [*] or [?],
    separated by white space, and a candidate without line terminators, the
    compiled expression accepts the candidate iff both terms occur in it as
    substrings, compared case-insensitively, wherever they stand. *)
Theorem search_two_plain_terms (t1 sep t2 s : list ascii) :
  t1 <> [] -> forallb isPlainChar t1 = true ->
  sep <> [] -> forallb isWhiteSpace sep = true ->
  t2 <> [] -> forallb isPlainChar t2 = true ->
  forallb (fun d => negb (isLineTerminator d)) s = true ->
  searchTest (t1 ++ sep ++ t2) s = Some (occursIn t1 s && occursIn t2 s).
Proof.
  intros Hne1 Ht1 Hnes Hsep Hne2 Ht2 Hs.
  rewrite searchTest_pair by (try done; by apply plain_termChars).
  f_equal. cbn [globPrefix]. 
  change (ascii_eqb "*" "*") with true. cbv iota.
  rewrite existsb_tails_both by done.
  unfold occursIn. f_equal; apply existsb_pointwise; intros x; by apply globPrefix_plain.
Qed.

Lemma search_two_plain_terms_witness :
  searchTest (str "foo" ++ str " " ++ str "bar") (str "barXfoo") =
  Some (occursIn (str "foo") (str "barXfoo") && occursIn (str "bar") (str "barXfoo")).
Proof.
  apply (search_two_plain_terms (str "foo") (str " ") (str "bar") (str "barXfoo"));
    first [discriminate | reflexivity].
Defined.

Lemma search_glob_term (t s : list ascii) :
  t <> [] -> forallb isTermChar t = true ->
  searchTest t s = Some (globOccurs t s).
Proof.
  intros Hne Ht. rewrite searchTest_single by done. f_equal.
  cbn [globPrefix]. change (ascii_eqb "*" "*") with true. cbv iota.
  apply existsb_tails_anyRun.
Qed.

(** C7 as stated fails for a term with [*], which is not searched for as a
    substring, for terms with quotes, which delimit one term, and for a
    candidate with a line terminator between the two occurrences. *)
Lemma search_two_terms_counterexample :
  (searchTest (str "a*" ++ str " " ++ str "b") (str "aXb") = Some true /\
   occursIn (str "a*") (str "aXb") && occursIn (str "b") (str "aXb") = false) /\
  (searchTest (str "'a" ++ str " " ++ str "b'") (str "a b") = Some true /\
   occursIn (str "'a") (str "a b") && occursIn (str "b'") (str "a b") = false) /\
  (searchTest (str "foo" ++ str " " ++ str "bar") (str "foo" ++ LF :: str "bar")
     = Some false /\
   occursIn (str "foo") (str "foo" ++ LF :: str "bar")
     && occursIn (str "bar") (str "foo" ++ LF :: str "bar") = true).
Proof. vm_compute. repeat split. Qed.

(** C8 as stated fails: neither [*] nor [?] matches a line terminator. *)
Lemma glob_counterexample :
  searchTest (str "a*c") (str "a" ++ LF :: str "c") = Some false /\
  searchTest (str "a?c") (str "a" ++ LF :: str "c") = Some false.
Proof. vm_compute. split; reflexivity. Qed.

(** C8, amended.  In an unquoted term [*] matches any run of zero or more
    code units other than line terminators and [?] exactly one such code
    unit: the compiled term accepts a candidate iff [globOccurs] does.  The
    term [a*c] accepts abc, ac and abXc and rejects ab. *)
Theorem glob_star_and_question :
  (forall t s : list ascii,
     t <> [] -> forallb isTermChar t = true ->
     searchTest t s = Some (globOccurs t s)) /\
  searchTest (str "a*c") (str "abc") = Some true /\
  searchTest (str "a*c") (str "ac") = Some true /\
  searchTest (str "a*c") (str "abXc") = Some true /\
  searchTest (str "a*c") (str "ab") = Some false.
Proof.
  split; [exact search_glob_term|]. vm_compute. repeat split.
Qed.

Lemma glob_star_and_question_witness :
  searchTest (str "a*c") (str "abXc") = Some (globOccurs (str "a*c") (str "abXc")) /\
  globOccurs (str "a*c") (str "abXc") = true /\
  searchTest (str "I?D") (str "Bay ied1") = Some (globOccurs (str "I?D") (str "Bay ied1")) /\
  globOccurs (str "I?D") (str "Bay ied1") = true.
Proof.
  split; [|split; [reflexivity|split; [|reflexivity]]].
  - apply (proj1 glob_star_and_question (str "a*c") (str "abXc"));
      [discriminate|reflexivity].
  - apply (proj1 glob_star_and_question (str "I?D") (str "Bay ied1"));
      [discriminate|reflexivity].
Defined.

(** * Further properties of the dialog *)

Lemma reachable_validated displayed p :
  reachable displayed p -> iedsToRename p = [] \/ validated p.
Proof.
  intros H. destruct H; [by left|by left|right]. by eapply onInput_validated.
Qed.

Lemma holders_one_NoDup live :
  (forall v, In v live -> holders live v = 1) -> List.NoDup live.
Proof.
  induction live as [|n live IH]; intros H; constructor.
  - apply holders_zero. pose proof (H n (or_introl eq_refl)) as Hn.
    rewrite holders_cons, string_eqb_refl in Hn. lia.
  - apply IH. intros v Hv. pose proof (H v (or_intror Hv)) as Hh.
    rewrite holders_cons in Hh. destruct (string_eqb n v) eqn:E; [|lia].
    apply string_eqb_eq in E. subst v.
    pose proof (H n (or_introl eq_refl)) as Hn.
    rewrite holders_cons, string_eqb_refl in Hn.
    exfalso. apply (holders_zero live n); [lia|done].
Qed.

Lemma checkValidity_VALID live el :
  checkValidity live el = VALID ->
  wellFormedName (value el) = true /\
  (userEdited el = true -> length (value el) <= maxLength) /\
  holders live (value el) = 1.
Proof.
  unfold checkValidity. destruct (valueMissing (value el)) eqn:Em; [discriminate|].
  assert (Hne : value el <> []) by (by apply string_eqb_neq).
  rewrite (patternMismatch_wellFormed _ Hne), tooShort_false, orb_false_r.
  destruct (wellFormedName (value el)); [|discriminate]. cbn [negb].
  unfold tooLong. destruct (userEdited el && _) eqn:El; [discriminate|].
  unfold duplicated. fold (holders live (value el)).
  destruct (holders live (value el) =? 1) eqn:Eh; [|discriminate]. intros _.
  apply Nat.eqb_eq in Eh. split; [done|]. split; [|done].
  intros Hu. rewrite Hu in El. cbn [andb] in El. by apply Nat.ltb_ge in El.
Qed.

(** In a dialog reached from a rendering, a value that differs from the name
    in the document was left by an edit of the operator. *)
Lemma reachable_userEdited displayed p :
  reachable displayed p ->
  forall j el, iedListUI p !! j = Some el ->
    value el <> dataOldName el -> userEdited el = true.
Proof.
  intros H. induction H as [|p Hp IH|p i v p' Hp IH Hin]; intros j el Hj Hne.
  - cbn in Hj. change (map ?f ?x) with (f <$> x) in Hj.
    rewrite list_lookup_fmap in Hj. apply fmap_Some in Hj as (n & _ & ->). done.
  - cbn in Hj. change (map ?f ?x) with (f <$> x) in Hj.
    rewrite list_lookup_fmap in Hj. apply fmap_Some in Hj as (n & _ & ->). done.
  - destruct (onInput_Some _ _ _ _ Hin) as (target & Ht & Hk & _).
    rewrite Hk in Hj. apply fmap_Some in Hj as (e & He & ->).
    unfold fieldAfter in *. cbn in *. destruct (decide (j = i)) as [->|Hji]; [done|].
    by apply (IH j).
Qed.

(** X1.  Whenever the Rename IEDs button is enabled, every proposed name has
    the form of a name and no two fields hold the same name; every name that
    differs from the name in the document, and every other value the
    operator has left, has at most [maxLength] characters.  A name of the
    document that is longer and that the operator has not touched does not
    disable the button. *)
Theorem committable_names_valid_and_distinct
    (displayed : list (list ascii)) (p : Plugin) :
  reachable displayed p ->
  isCommittable p = true ->
  Forall (fun el => wellFormedName (value el) = true /\
                    (userEdited el = true \/ value el <> dataOldName el ->
                     length (value el) <= maxLength))
         (iedListUI p) /\
  List.NoDup (names p).
Proof.
  intros Hreach Hc. unfold isCommittable, renameDisabled in Hc.
  apply negb_true_iff, orb_false_iff in Hc as [Hlen Hall].
  apply negb_false_iff in Hall.
  destruct (reachable_validated _ _ Hreach) as [Hnil|[_ Hv]].
  { rewrite Hnil in Hlen. discriminate. }
  rewrite Hall in Hv. symmetry in Hv. rewrite forallb_forall in Hv.
  assert (Hvalid : forall el, In el (iedListUI p) -> checkValidity (names p) el = VALID).
  { intros el Hin. specialize (Hv el Hin). by destruct (checkValidity (names p) el). }
  split.
  - apply List.Forall_forall. intros el Hin.
    destruct (checkValidity_VALID _ _ (Hvalid el Hin)) as (Hw & Hl & _).
    split; [done|]. intros [Hu|Hne]; [by apply Hl|].
    apply Hl. apply list_elem_of_In, list_elem_of_lookup in Hin as [j Hj].
    by apply (reachable_userEdited _ _ Hreach j).
  - apply holders_one_NoDup. intros v Hin. unfold names in Hin.
    apply in_map_iff in Hin as (el & <- & Hel).
    by destruct (checkValidity_VALID _ _ (Hvalid el Hel)) as (? & ? & ?).
Qed.

Lemma longDialog_edit_reachable :
  reachable [longName; str "IED2"] (afterInput longDialog 1 (str "P2")).
Proof.
  apply (reach_input _ longDialog 1 (str "P2")); [|vm_compute; reflexivity].
  apply reach_run, reach_render.
Qed.

Lemma committable_names_valid_and_distinct_witness :
  Forall (fun el => wellFormedName (value el) = true /\
                    (userEdited el = true \/ value el <> dataOldName el ->
                     length (value el) <= maxLength))
         (iedListUI (afterInput longDialog 1 (str "P2"))) /\
  List.NoDup (names (afterInput longDialog 1 (str "P2"))).
Proof.
  apply (committable_names_valid_and_distinct [longName; str "IED2"]
           (afterInput longDialog 1 (str "P2"))).
  - apply longDialog_edit_reachable.
  - vm_compute. reflexivity.
Defined.

Lemma reachable_oldNames displayed p :
  reachable displayed p -> map dataOldName (iedListUI p) = displayed.
Proof.
  intros H. induction H as [|p Hp IH|p i v p' Hp IH Hin].
  - cbn. rewrite map_map. apply map_id.
  - cbn. rewrite map_map. exact IH.
  - destruct (onInput_Some _ _ _ _ Hin) as (target & Ht & Hk & _).
    rewrite <- IH. apply list_eq. intros k. change (map ?f ?x) with (f <$> x).
    rewrite !list_lookup_fmap, Hk. by destruct (iedListUI p !! k).
Qed.

(** X2.  Opening the dialog again after any edits gives exactly the freshly
    rendered dialog: edits never add, remove or re-key a field, and [run]
    discards every proposed value, message and mark. *)
Theorem run_discards_edits (displayed : list (list ascii)) (p : Plugin) :
  reachable displayed p ->
  map dataOldName (iedListUI p) = displayed /\
  run p = render displayed /\
  isCommittable (run p) = false.
Proof.
  intros H. pose proof (reachable_oldNames _ _ H) as Hold.
  split; [exact Hold|]. split; [|reflexivity].
  unfold run, render. f_equal. rewrite <- Hold, map_map. reflexivity.
Qed.

Lemma run_discards_edits_witness :
  map dataOldName (iedListUI twoEditsState) = threeNames /\
  run twoEditsState = render threeNames /\
  isCommittable (run twoEditsState) = false.
Proof. apply (run_discards_edits threeNames twoEditsState), twoEdits_reachable. Defined.

Lemma reachable_changed displayed p :
  reachable displayed p ->
  forall j el, iedListUI p !! j = Some el ->
    changed el = negb (string_eqb (value el) (dataOldName el)).
Proof.
  intros H. induction H as [|p Hp IH|p i v p' Hp IH Hin]; intros j el Hj.
  - cbn in Hj. change (map ?f ?x) with (f <$> x) in Hj.
    rewrite list_lookup_fmap in Hj. apply fmap_Some in Hj as (n & _ & ->).
    cbn. by rewrite string_eqb_refl.
  - cbn in Hj. change (map ?f ?x) with (f <$> x) in Hj.
    rewrite list_lookup_fmap in Hj. apply fmap_Some in Hj as (n & _ & ->).
    cbn. by rewrite string_eqb_refl.
  - destruct (onInput_Some _ _ _ _ Hin) as (target & Ht & Hk & _).
    rewrite Hk in Hj. apply fmap_Some in Hj as (e & He & ->).
    unfold fieldAfter. cbn. destruct (decide (j = i)) as [->|Hne].
    + rewrite Ht in He. by injection He as <-.
    + by apply (IH j).
Qed.

Lemma pending_permutation displayed p :
  List.NoDup displayed -> reachable displayed p ->
  Permutation
    (map dataOldName
       (List.filter (fun el => negb (string_eqb (value el) (dataOldName el)))
                    (iedListUI p)))
    (iedsToRename p).
Proof.
  intros Hnd Hreach.
  destruct (reachable_pendingConsistent _ _ Hnd Hreach) as (Hold & Hndr & Hsub & Hiff).
  apply Permutation.NoDup_Permutation.
  - apply NoDup_map_filter. by rewrite Hold.
  - exact Hndr.
  - intros n. rewrite in_map_iff. split.
    + intros (el & <- & Hel). apply filter_In in Hel as [Hel Hv].
      apply list_elem_of_In in Hel. apply list_elem_of_lookup in Hel as [j Hj].
      apply (Hiff j el Hj). apply negb_true_iff in Hv. by apply string_eqb_neq.
    + intros Hn. pose proof (Hsub n Hn) as Hd. rewrite <- Hold in Hd.
      apply in_map_iff in Hd as (el & <- & Hel). exists el. split; [done|].
      apply filter_In. split; [done|].
      apply list_elem_of_In in Hel. apply list_elem_of_lookup in Hel as [j Hj].
      apply negb_true_iff. apply string_eqb_neq. by apply (Hiff j el Hj).
Qed.

Lemma filter_pointwise_In {A} (f g : A -> bool) l :
  (forall x, In x l -> f x = g x) -> List.filter f l = List.filter g l.
Proof.
  induction l as [|a l IH]; intros H; [done|]. simpl.
  rewrite (H a (or_introl eq_refl)), IH; [done|]. intros x Hx. apply H. by right.
Qed.

(** X3.  In a dialog on distinct IED names, a field is marked as changed
    exactly when its value differs from its old name, and the number the
    button shows is the number of marked fields. *)
Theorem changed_marks_and_count (displayed : list (list ascii)) (p : Plugin) :
  List.NoDup displayed ->
  reachable displayed p ->
  (forall j el, iedListUI p !! j = Some el ->
     (changed el = true <-> value el <> dataOldName el)) /\
  length (iedsToRename p) = length (List.filter changed (iedListUI p)).
Proof.
  intros Hnd Hreach. pose proof (reachable_changed _ _ Hreach) as Hch. split.
  - intros j el Hj. rewrite (Hch j el Hj), negb_true_iff. apply string_eqb_neq.
  - rewrite <- (Permutation_length (pending_permutation _ _ Hnd Hreach)).
    rewrite length_map. f_equal. apply filter_pointwise_In. intros el Hel.
    apply list_elem_of_In in Hel. apply list_elem_of_lookup in Hel as [j Hj].
    symmetry. by apply (Hch j).
Qed.

Lemma changed_marks_and_count_witness :
  (forall j el, iedListUI twoEditsState !! j = Some el ->
     (changed el = true <-> value el <> dataOldName el)) /\
  length (iedsToRename twoEditsState) =
    length (List.filter changed (iedListUI twoEditsState)).
Proof.
  apply (changed_marks_and_count threeNames twoEditsState).
  - repeat constructor; vm_compute; intuition discriminate.
  - apply twoEdits_reachable.
Defined.

Lemma checkValidity_duplicate live el :
  wellFormedName (value el) = true -> length (value el) <= maxLength ->
  2 <= holders live (value el) ->
  checkValidity live el = DUPLICATE.
Proof.
  intros Hw Hl Hh. unfold checkValidity.
  assert (Hne : value el <> []) by (intros E; rewrite E in Hw; discriminate).
  rewrite (patternMismatch_wellFormed _ Hne), Hw, tooShort_false,
    (tooLong_false _ (or_intror Hl)).
  apply string_eqb_neq in Hne. unfold valueMissing. rewrite Hne. cbn [negb orb].
  unfold duplicated. fold (holders live (value el)).
  replace (holders live (value el) =? 1) with false by (symmetry; apply Nat.eqb_neq; lia).
  reflexivity.
Qed.

(** X4.  Editing a field to a well-formed name that another field already
    holds marks every field holding that name as a duplicate, the others as
    well as the edited one, and clears [allIedNamesValid]. *)
Theorem collision_marks_every_holder
    (p : Plugin) (i j : nat) (a b : TextField) (v : list ascii) :
  iedListUI p !! i = Some a -> iedListUI p !! j = Some b -> i <> j ->
  value b = v -> wellFormedName v = true -> length v <= maxLength ->
  exists p', onInput p i v = Some p' /\
    (forall k el, iedListUI p' !! k = Some el -> value el = v ->
       validationMessage el = reasonMessage DUPLICATE) /\
    (exists a' b', iedListUI p' !! i = Some a' /\ value a' = v /\
                   iedListUI p' !! j = Some b' /\ value b' = v) /\
    allIedNamesValid p' = false.
Proof.
  intros Ha Hb Hne Hv Hw Hl.
  destruct (onInput_lookup p i v a Ha) as (p' & Hin & Hk & Hn & Hall & _).
  exists p'. split; [done|].
  set (live := <[i := v]> (names p)) in *.
  assert (Hi : i < length (names p)).
  { unfold names. rewrite length_map. eapply lookup_lt_Some; eauto. }
  assert (Hli : live !! i = Some v) by (by apply list_lookup_insert_eq).
  assert (Hlj : live !! j = Some v).
  { unfold live. rewrite list_lookup_insert_ne by done. unfold names.
    change (map ?f ?x) with (f <$> x). by rewrite list_lookup_fmap, Hb, <- Hv. }
  assert (Hdup : forall el, value el = v -> checkValidity live el = DUPLICATE).
  { intros el E. apply checkValidity_duplicate; rewrite E; [done|done|].
    by apply (holders_two live i j). }
  assert (Hfi : iedListUI p' !! i = Some (fieldAfter live i v i a)) by (by rewrite Hk, Ha).
  assert (Hvi : value (fieldAfter live i v i a) = v).
  { unfold fieldAfter. cbn. by destruct (decide (i = i)). }
  split; [|split].
  - intros k el Hel Hval. rewrite Hk in Hel. apply fmap_Some in Hel as (e & He & ->).
    unfold fieldAfter in Hval |- *. cbn [validationMessage value] in Hval |- *.
    f_equal. by apply Hdup.
  - exists (fieldAfter live i v i a), (fieldAfter live i v j b).
    rewrite !Hk, Ha, Hb. unfold fieldAfter. cbn.
    destruct (decide (i = i)); [|done]. destruct (decide (j = i)); [by subst|].
    done.
  - rewrite Hall, Hn. apply not_true_is_false. intros Hf. rewrite forallb_forall in Hf.
    assert (Hin' : In (fieldAfter live i v i a) (iedListUI p')).
    { apply list_elem_of_In. eapply list_elem_of_lookup_2; eauto. }
    specialize (Hf _ Hin'). by rewrite (Hdup _ Hvi) in Hf.
Qed.

Lemma collision_marks_every_holder_witness :
  exists p', onInput twoIeds 0 (str "IED2") = Some p' /\
    (forall k el, iedListUI p' !! k = Some el -> value el = str "IED2" ->
       validationMessage el = reasonMessage DUPLICATE) /\
    (exists a' b', iedListUI p' !! 0 = Some a' /\ value a' = str "IED2" /\
                   iedListUI p' !! 1 = Some b' /\ value b' = str "IED2") /\
    allIedNamesValid p' = false.
Proof.
  apply (collision_marks_every_holder twoIeds 0 1
           (mkTextField (str "IED1") (str "IED1") [] false false)
           (mkTextField (str "IED2") (str "IED2") [] false false) (str "IED2"));
    first [reflexivity | lia | (unfold maxLength; simpl; lia)].
Defined.

Lemma includes_false l x : includes l x = false <-> ~ In x l.
Proof.
  split.
  - intros E Hin. apply includes_In in Hin. congruence.
  - intros H. destruct (includes l x) eqn:E; [|done]. by apply includes_In in E.
Qed.

Lemma includes_app l x y :
  x <> y -> includes (l ++ [y]) x = includes l x.
Proof.
  intros Hne. unfold includes. rewrite existsb_app. cbn.
  apply string_eqb_neq in Hne. by rewrite Hne, !orb_false_r.
Qed.

Lemma includes_filter l x y :
  x <> y ->
  includes (List.filter (fun item => negb (string_eqb item y)) l) x = includes l x.
Proof.
  intros Hne. apply eq_true_iff_eq. rewrite !includes_In, filter_In, negb_true_iff.
  split; [tauto|]. intros H. split; [done|]. by apply string_eqb_neq.
Qed.

Lemma filter_app_singleton_keep l x y :
  x <> y ->
  List.filter (fun item => negb (string_eqb item y)) (l ++ [x]) =
  List.filter (fun item => negb (string_eqb item y)) l ++ [x].
Proof.
  intros Hne. rewrite List.filter_app. cbn.
  apply string_eqb_neq in Hne. by rewrite Hne.
Qed.

Lemma filter_comm {A} (f g : A -> bool) l :
  List.filter f (List.filter g l) = List.filter g (List.filter f l).
Proof.
  induction l as [|a l IH]; [done|]. simpl.
  destruct (g a) eqn:Eg, (f a) eqn:Ef; simpl; rewrite ?Eg, ?Ef, IH; done.
Qed.

Lemma updatePending_commute R o1 b1 o2 b2 :
  o1 <> o2 ->
  Permutation (updatePending (updatePending R o1 b1) o2 b2)
              (updatePending (updatePending R o2 b2) o1 b1).
Proof.
  intros Hne. assert (Hne' : o2 <> o1) by congruence.
  unfold updatePending. destruct b1, b2.
  - destruct (includes R o1) eqn:E1, (includes R o2) eqn:E2;
      rewrite ?includes_app, ?E1, ?E2 by done; try reflexivity.
    rewrite <- !app_assoc. apply Permutation_app_head. apply perm_swap.
  - rewrite includes_filter by done.
    destruct (includes R o1) eqn:E1; [reflexivity|].
    by rewrite filter_app_singleton_keep.
  - rewrite includes_filter by done.
    destruct (includes R o2) eqn:E2; [reflexivity|].
    by rewrite filter_app_singleton_keep.
  - by rewrite filter_comm.
Qed.

(** X5.  Edits of two different fields commute: in either order they leave the
    same fields (values, messages, marks) and the same [allIedNamesValid];
    [iedsToRename] holds the same names, possibly in another order. *)
Theorem edits_of_different_fields_commute
    (p : Plugin) (i j : nat) (a b : TextField) (v w : list ascii) :
  iedListUI p !! i = Some a -> iedListUI p !! j = Some b ->
  dataOldName a <> dataOldName b ->
  exists p1 p2 q1 q2,
    onInput p i v = Some p1 /\ onInput p1 j w = Some p2 /\
    onInput p j w = Some q1 /\ onInput q1 i v = Some q2 /\
    iedListUI p2 = iedListUI q2 /\
    allIedNamesValid p2 = allIedNamesValid q2 /\
    Permutation (iedsToRename p2) (iedsToRename q2).
Proof.
  intros Ha Hb Hold.
  assert (Hij : i <> j) by (intros ->; rewrite Ha in Hb; by injection Hb as ->).
  destruct (onInput_lookup p i v a Ha) as (p1 & H1 & Hk1 & Hn1 & _ & Hr1).
  assert (Hb1 : iedListUI p1 !! j = Some (fieldAfter (<[i:=v]> (names p)) i v j b)).
  { by rewrite Hk1, Hb. }
  destruct (onInput_lookup p1 j w _ Hb1) as (p2 & H2 & Hk2 & Hn2 & Hall2 & Hr2).
  destruct (onInput_lookup p j w b Hb) as (q1 & H3 & Hk3 & Hn3 & _ & Hr3).
  assert (Ha1 : iedListUI q1 !! i = Some (fieldAfter (<[j:=w]> (names p)) j w i a)).
  { by rewrite Hk3, Ha. }
  destruct (onInput_lookup q1 i v _ Ha1) as (q2 & H4 & Hk4 & Hn4 & Hall4 & Hr4).
  exists p1, p2, q1, q2. repeat (split; [done|]).
  assert (Hlive : <[j:=w]> (names p1) = <[i:=v]> (names q1)).
  { rewrite Hn1, Hn3. by apply list_insert_insert_ne. }
  assert (Hfields : iedListUI p2 = iedListUI q2).
  { apply list_eq. intros k. rewrite Hk2, Hk4, Hk1, Hk3, Hlive.
    destruct (iedListUI p !! k) as [el|]; [|done]. cbn. f_equal.
    unfold fieldAfter. cbn.
    destruct (decide (k = i)) as [Hki|Hki], (decide (k = j)) as [Hkj|Hkj];
      subst; first [congruence | reflexivity]. }
  split; [done|split].
  - rewrite Hall2, Hall4. unfold names. by rewrite Hfields.
  - rewrite Hr2, Hr4, Hr1, Hr3. cbn. by apply updatePending_commute.
Qed.

Lemma edits_of_different_fields_commute_witness :
  exists p1 p2 q1 q2,
    onInput twoIeds 0 (str "P1") = Some p1 /\ onInput p1 1 (str "P2") = Some p2 /\
    onInput twoIeds 1 (str "P2") = Some q1 /\ onInput q1 0 (str "P1") = Some q2 /\
    iedListUI p2 = iedListUI q2 /\
    allIedNamesValid p2 = allIedNamesValid q2 /\
    Permutation (iedsToRename p2) (iedsToRename q2).
Proof.
  apply (edits_of_different_fields_commute twoIeds 0 1
           (mkTextField (str "IED1") (str "IED1") [] false false)
           (mkTextField (str "IED2") (str "IED2") [] false false));
    first [reflexivity | discriminate].
Defined.

Lemma updatePending_twice R o b1 b2 :
  List.NoDup R ->
  Permutation (updatePending (updatePending R o b1) o b2) (updatePending R o b2).
Proof.
  intros Hnd. unfold updatePending.
  set (f := fun item => negb (string_eqb item o)).
  assert (Hfo : forall l, includes (List.filter f l) o = false).
  { intros l. apply includes_false. rewrite filter_In. unfold f.
    rewrite string_eqb_refl. intros [_ ?]. discriminate. }
  assert (Hfapp : forall l, List.filter f (l ++ [o]) = List.filter f l).
  { intros l. rewrite List.filter_app. cbn. unfold f at 2.
    rewrite string_eqb_refl. cbn. apply app_nil_r. }
  destruct b1, b2.
  - destruct (includes R o) eqn:E; [by rewrite E|].
    replace (includes (R ++ [o]) o) with true; [done|].
    symmetry. apply includes_In, in_or_app. right. by left.
  - destruct (includes R o); [done|]. by rewrite Hfapp.
  - rewrite Hfo. destruct (includes R o) eqn:E.
    + apply includes_In in E. clear Hfo Hfapp.
      induction R as [|n R IH]; [done|]. inversion Hnd as [|? ? Hn HR]; subst.
      cbn. unfold f at 1. destruct (string_eqb n o) eqn:En; cbn.
      * apply string_eqb_eq in En. subst n.
        replace (List.filter f R) with R.
        { symmetry. apply Permutation_cons_append. }
        symmetry. clear IH E Hnd HR. induction R as [|m R IH]; [done|]. cbn.
        unfold f at 1. destruct (string_eqb m o) eqn:Em.
        { apply string_eqb_eq in Em. subst. exfalso. apply Hn. by left. }
        cbn. f_equal. apply IH. intros H. apply Hn. by right.
      * apply perm_skip. apply IH; [done|].
        destruct E as [->|E]; [by rewrite string_eqb_refl in En|done].
    + apply includes_false in E. replace (List.filter f R) with R; [done|].
      symmetry. clear Hfo Hfapp Hnd. induction R as [|m R IH]; [done|]. cbn.
      unfold f at 1. destruct (string_eqb m o) eqn:Em.
      { apply string_eqb_eq in Em. subst. exfalso. apply E. by left. }
      cbn. f_equal. apply IH. intros H. apply E. by right.
  - by rewrite filter_filter_same.
Qed.

(** X6.  The last edit of a field wins: editing a field to [v] and then to [w]
    leaves the same fields and the same [allIedNamesValid] as editing it to
    [w] at once, and the same names in [iedsToRename]. *)
Theorem last_edit_wins (p : Plugin) (i : nat) (v w : list ascii) (p1 p2 : Plugin) :
  List.NoDup (iedsToRename p) ->
  onInput p i v = Some p1 -> onInput p1 i w = Some p2 ->
  exists p3, onInput p i w = Some p3 /\
    iedListUI p2 = iedListUI p3 /\
    allIedNamesValid p2 = allIedNamesValid p3 /\
    Permutation (iedsToRename p2) (iedsToRename p3).
Proof.
  intros Hnd H1 H2.
  destruct (onInput_Some _ _ _ _ H1) as (a & Ha & Hk1 & Hn1 & _ & Hr1).
  destruct (onInput_Some _ _ _ _ H2) as (a1 & Ha1 & Hk2 & Hn2 & Hall2 & Hr2).
  destruct (onInput_lookup p i w a Ha) as (p3 & H3 & Hk3 & Hn3 & Hall3 & Hr3).
  exists p3. split; [done|].
  assert (Hlive : <[i:=w]> (names p1) = <[i:=w]> (names p)).
  { rewrite Hn1. apply list_insert_insert_eq. }
  assert (Hold : dataOldName a1 = dataOldName a).
  { rewrite Hk1, Ha in Ha1. by injection Ha1 as <-. }
  assert (Hfields : iedListUI p2 = iedListUI p3).
  { apply list_eq. intros k. rewrite Hk2, Hk3, Hk1, Hlive.
    destruct (iedListUI p !! k) as [el|]; [|done]. cbn. f_equal.
    unfold fieldAfter. cbn. by destruct (decide (k = i)). }
  split; [done|split].
  - rewrite Hall2, Hall3. unfold names. by rewrite Hfields.
  - rewrite Hr2, Hr3, Hr1, Hold. by apply updatePending_twice.
Qed.

Lemma last_edit_wins_witness :
  exists p3, onInput twoIeds 0 (str "P2") = Some p3 /\
    iedListUI (afterInput (afterInput twoIeds 0 (str "P1")) 0 (str "P2")) =
      iedListUI p3 /\
    allIedNamesValid (afterInput (afterInput twoIeds 0 (str "P1")) 0 (str "P2")) =
      allIedNamesValid p3 /\
    Permutation
      (iedsToRename (afterInput (afterInput twoIeds 0 (str "P1")) 0 (str "P2")))
      (iedsToRename p3).
Proof.
  apply (last_edit_wins twoIeds 0 (str "P1") (str "P2")
           (afterInput twoIeds 0 (str "P1"))).
  - constructor.
  - vm_compute. reflexivity.
  - vm_compute. reflexivity.
Defined.

(** X7.  Changing an untouched field and changing it back to its old name
    leaves nothing behind: every value, every mark and [iedsToRename] are as
    they were before the two edits. *)
Theorem edit_and_revert (p : Plugin) (i : nat) (a : TextField) (v : list ascii)
    (p1 p2 : Plugin) :
  iedListUI p !! i = Some a ->
  value a = dataOldName a -> changed a = false ->
  ~ In (dataOldName a) (iedsToRename p) ->
  onInput p i v = Some p1 -> onInput p1 i (dataOldName a) = Some p2 ->
  names p2 = names p /\
  map changed (iedListUI p2) = map changed (iedListUI p) /\
  map dataOldName (iedListUI p2) = map dataOldName (iedListUI p) /\
  iedsToRename p2 = iedsToRename p.
Proof.
  intros Ha Hval Hch Hnot H1 H2.
  destruct (onInput_Some _ _ _ _ H1) as (a0 & Ha0 & Hk1 & Hn1 & _ & Hr1).
  rewrite Ha in Ha0. injection Ha0 as <-.
  destruct (onInput_Some _ _ _ _ H2) as (a1 & Ha1 & Hk2 & Hn2 & _ & Hr2).
  assert (Hold : dataOldName a1 = dataOldName a).
  { rewrite Hk1, Ha in Ha1. by injection Ha1 as <-. }
  assert (Hfid : forall l : list (list ascii), ~ In (dataOldName a) l ->
     List.filter (fun item => negb (string_eqb item (dataOldName a))) l = l).
  { induction l as [|m l IH]; intros Hl; [done|]. cbn.
    destruct (string_eqb m (dataOldName a)) eqn:Em.
    - apply string_eqb_eq in Em. exfalso. apply Hl. by left.
    - cbn. f_equal. apply IH. intros H. apply Hl. by right. }
  split; [|split; [|split]].
  - rewrite Hn2, Hn1, list_insert_insert_eq. apply list_insert_id.
    unfold names. change (map ?f ?x) with (f <$> x).
    by rewrite list_lookup_fmap, Ha, <- Hval.
  - apply list_eq. intros k. change (map ?f ?x) with (f <$> x).
    rewrite !list_lookup_fmap, Hk2, Hk1.
    destruct (iedListUI p !! k) as [el|] eqn:Ek; [|done]. cbn.
    unfold fieldAfter. cbn. destruct (decide (k = i)) as [->|]; [|done].
    rewrite Ha in Ek. injection Ek as Heq. subst el.
    rewrite string_eqb_refl. cbn [negb]. by rewrite Hch.
  - apply list_eq. intros k. change (map ?f ?x) with (f <$> x).
    rewrite !list_lookup_fmap, Hk2, Hk1. by destruct (iedListUI p !! k).
  - rewrite Hr2, Hr1, Hold, string_eqb_refl. cbn [negb]. unfold updatePending.
    destruct (negb (string_eqb v (dataOldName a))).
    + rewrite (proj2 (includes_false _ _) Hnot).
      rewrite List.filter_app. cbn. rewrite string_eqb_refl. cbn.
      rewrite app_nil_r. by apply Hfid.
    + rewrite filter_filter_same. by apply Hfid.
Qed.

Lemma edit_and_revert_witness :
  names (afterInput (afterInput twoIeds 0 (str "P1")) 0 (str "IED1")) = names twoIeds /\
  map changed (iedListUI (afterInput (afterInput twoIeds 0 (str "P1")) 0 (str "IED1")))
    = map changed (iedListUI twoIeds) /\
  map dataOldName (iedListUI (afterInput (afterInput twoIeds 0 (str "P1")) 0 (str "IED1")))
    = map dataOldName (iedListUI twoIeds) /\
  iedsToRename (afterInput (afterInput twoIeds 0 (str "P1")) 0 (str "IED1"))
    = iedsToRename twoIeds.
Proof.
  apply (edit_and_revert twoIeds 0 (mkTextField (str "IED1") (str "IED1") [] false false)
           (str "P1") (afterInput twoIeds 0 (str "P1")));
    first [reflexivity | (vm_compute; reflexivity) | (intros [])].
Defined.

(** X8.  If the IED names of the document are distinct and have no quote,
    backslash or line break, and no proposed name is the old name of another
    IED, a click on the enabled button leaves every IED of the document with
    the name proposed for it. *)
Theorem commit_renames_document
    (displayed doc : list (list ascii)) (p : Plugin) :
  List.NoDup displayed -> List.NoDup doc ->
  (forall n, In n displayed <-> In n doc) ->
  forallb selectorSafe displayed = true ->
  reachable displayed p ->
  isCommittable p = true ->
  (forall i j a b, iedListUI p !! i = Some a -> iedListUI p !! j = Some b ->
     i <> j -> value a <> dataOldName b) ->
  snd (clickRename doc p) = map (proposedName (iedListUI p)) doc.
Proof.
  intros Hnd Hndoc Hdoc Hsafe Hreach Hc Hfree.
  pose proof (reachable_oldNames _ _ Hreach) as Hold.
  unfold clickRename. unfold isCommittable in Hc. apply negb_true_iff in Hc.
  rewrite Hc.
  destruct (forEachItem_safe (iedListUI p) doc) as (us & Hus & _).
  - by rewrite Hold.
  - intros el Hel. rewrite forallb_forall in Hsafe. apply Hsafe.
    rewrite <- Hold. apply in_map_iff. eauto.
  - intros el Hel. apply NoDup_holders; [done|]. apply Hdoc. rewrite <- Hold.
    apply in_map_iff. eauto.
  - done.
  - unfold renameIeds. by rewrite Hus.
Qed.

Lemma commit_renames_document_witness :
  snd (clickRename threeNames twoEditsState) =
  map (proposedName (iedListUI twoEditsState)) threeNames.
Proof.
  apply (commit_renames_document threeNames threeNames twoEditsState).
  - apply threeNames_NoDup.
  - apply threeNames_NoDup.
  - intros n. reflexivity.
  - reflexivity.
  - apply twoEdits_reachable.
  - vm_compute. reflexivity.
  - apply twoEdits_free.
Defined.

Lemma querySelectorIED_Found doc n e :
  querySelectorIED doc n = Found e -> e < length doc.
Proof.
  unfold querySelectorIED. destruct (selectorOf n) as [s| |]; try discriminate.
  destruct (firstMatch s doc) as [e'|] eqn:E; [|discriminate].
  intros H. injection H as <-. by apply (firstMatch_lt s).
Qed.

Lemma lookupName_None doc n : ~ In n doc -> lookupName doc n = None.
Proof.
  induction doc as [|m doc IH]; intros H; [done|]. cbn.
  destruct (string_eqb m n) eqn:E.
  - apply string_eqb_eq in E. exfalso. apply H. by left.
  - rewrite IH; [done|]. intros Hin. apply H. by right.
Qed.

Lemma forEachItem_shape items : forall doc,
  length (snd (fst (forEachItem doc items))) = length doc /\
  length (fst (fst (forEachItem doc items))) <= length items /\
  (forall u, In u (fst (fst (forEachItem doc items))) ->
     element u < length doc /\ exists el, In el items /\ newIedName u = value el).
Proof.
  induction items as [|el items IH]; intros doc.
  - cbn. repeat split; first [done | lia].
  - cbn [forEachItem].
    destruct (querySelectorIED doc (dataOldName el)) as [e| | |] eqn:Eq.
    + pose proof (querySelectorIED_Found _ _ _ Eq) as He.
      destruct (IH (handleEdit doc (mkUpdate e (value el)))) as (Hlen & Hus & Hin).
      destruct (forEachItem _ items) as [[us doc'] ending] eqn:E. cbn [fst snd] in *.
      unfold handleEdit in Hlen, Hin. rewrite length_insert in Hlen, Hin.
      split; [done|]. split; [simpl; lia|].
      intros u [<-|Hu].
      * split; [done|]. exists el. split; [by left|done].
      * destruct (Hin u Hu) as (Hlt & x & Hx & ?). split; [done|].
        exists x. split; [by right|done].
    + destruct (IH doc) as (Hlen & Hus & Hin).
      split; [done|]. split; [simpl; lia|].
      intros u Hu. destruct (Hin u Hu) as (Hlt & x & Hx & ?). split; [done|].
      exists x. split; [by right|done].
    + cbn. repeat split; first [done | lia].
    + cbn. repeat split; first [done | lia].
Qed.

Lemma forEachItem_absent items : forall doc,
  (forall el, In el items ->
     selectorSafe (dataOldName el) = true /\ ~ In (dataOldName el) doc) ->
  forEachItem doc items = ([], doc, Closed).
Proof.
  induction items as [|el items IH]; intros doc H; [done|].
  destruct (H el (or_introl eq_refl)) as [Hs Hn].
  cbn [forEachItem]. rewrite (querySelectorIED_safe _ _ Hs), (lookupName_None _ _ Hn).
  apply IH. intros x Hx. apply H. by right.
Qed.

Lemma forEachItem_throws pre el rest : forall doc,
  (forall x, In x pre -> selectorSafe (dataOldName x) = true) ->
  selectorOf (dataOldName el) = Invalid ->
  forEachItem doc (pre ++ el :: rest) = (fst (forEachItem doc pre), Thrown).
Proof.
  induction pre as [|x pre IH]; intros doc Hsafe Hel.
  - cbn. unfold querySelectorIED. by rewrite Hel.
  - cbn [app forEachItem].
    rewrite (querySelectorIED_safe doc _ (Hsafe x (or_introl eq_refl))).
    assert (Hpre : forall y, In y pre -> selectorSafe (dataOldName y) = true).
    { intros y Hy. apply Hsafe. by right. }
    destruct (lookupName doc (dataOldName x)) as [e|].
    + rewrite (IH _ Hpre Hel).
      by destruct (forEachItem (handleEdit doc (mkUpdate e (value x))) pre) as [[us d] en].
    + by apply IH.
Qed.

(** X9.  The button's handler never adds or removes an IED, dispatches at most
    one update per list item, each for an element of the document and with
    an item's value as the new name, and dispatches nothing when no item's
    old name is in the document (the old names having no quote, backslash or
    line break).  An old name that makes the selector invalid stops the
    handler: the items after it are not handled and the dialog stays
    open. *)
Theorem renameIeds_shape (doc : list (list ascii)) (items : list TextField) :
  length (snd (renameIeds doc items)) = length doc /\
  length (fst (renameIeds doc items)) <= length items /\
  (forall u, In u (fst (renameIeds doc items)) ->
     element u < length doc /\
     exists el, In el items /\ newIedName u = value el) /\
  ((forall el, In el items ->
      selectorSafe (dataOldName el) = true /\ ~ In (dataOldName el) doc) ->
     forEachItem doc items = ([], doc, Closed)) /\
  (forall pre el rest,
     items = pre ++ el :: rest ->
     (forall x, In x pre -> selectorSafe (dataOldName x) = true) ->
     selectorOf (dataOldName el) = Invalid ->
     renameIeds doc items = renameIeds doc pre /\
     renameEnding doc items = Thrown).
Proof.
  destruct (forEachItem_shape items doc) as (H1 & H2 & H3).
  split; [exact H1|]. split; [exact H2|]. split; [exact H3|]. split.
  - apply forEachItem_absent.
  - intros pre el rest -> Hpre Hel. unfold renameIeds, renameEnding.
    by rewrite (forEachItem_throws pre el rest doc Hpre Hel).
Qed.

Lemma renameIeds_shape_witness :
  forEachItem [str "IED1"] [mkTextField (str "P9") (str "IED9") [] true true] =
  ([], [str "IED1"], Closed).
Proof.
  apply (proj1 (proj2 (proj2 (proj2 (renameIeds_shape [str "IED1"]
           [mkTextField (str "P9") (str "IED9") [] true true]))))).
  intros el [<-|[]]. split; [reflexivity|]. intros [H|[]]. discriminate H.
Defined.

(** * Further properties of the search expression *)

Lemma trimStart_spaces lead x :
  forallb isWhiteSpace lead = true -> trimStart (lead ++ x) = trimStart x.
Proof.
  induction lead as [|c lead IH]; [done|]. cbn [forallb]. intros H.
  apply andb_true_iff in H as [Hc H]. cbn. rewrite Hc. by apply IH.
Qed.

Lemma trimStart_blank raw : forallb isWhiteSpace raw = true -> trimStart raw = [].
Proof.
  induction raw as [|c raw IH]; [done|]. cbn [forallb]. intros H.
  apply andb_true_iff in H as [Hc H]. cbn. rewrite Hc. by apply IH.
Qed.

Lemma trim_blank raw : forallb isWhiteSpace raw = true -> trim raw = [].
Proof. intros H. unfold trim. by rewrite (trimStart_blank raw H). Qed.

Lemma trim_spaces lead body trail :
  forallb isWhiteSpace lead = true -> forallb isWhiteSpace trail = true ->
  (forall c, head body = Some c -> isWhiteSpace c = false) ->
  (forall c, head (rev body) = Some c -> isWhiteSpace c = false) ->
  trim (lead ++ body ++ trail) = body.
Proof.
  intros Hl Ht Hh Hr. destruct body as [|b body].
  - apply trim_blank. cbn [app]. by rewrite forallb_app, Hl, Ht.
  - unfold trim. rewrite (trimStart_spaces lead) by done.
    rewrite (trimStart_id ((b :: body) ++ trail)).
    + rewrite rev_app_distr, trimStart_spaces by (by rewrite forallb_rev).
      rewrite trimStart_id; [apply rev_involutive|].
      intros ch s' E. apply Hr. by rewrite E.
    + intros ch s' E. cbn in E. injection E as <- _. by apply Hh.
Qed.

Lemma escape_spaced rest :
  forallb (fun st => separator (fst st) && unquotedTerm (snd st)) rest = true ->
  flat_map escapeChar (spaced rest) = spaced (escapeRest rest).
Proof.
  induction rest as [|[sep t] rest IH]; [done|]. cbn [forallb fst snd]. intros H.
  apply andb_true_iff in H as [Hst H]. apply andb_true_iff in Hst as [Hs _].
  apply andb_true_iff in Hs as [_ Hs].
  cbn [spaced escapeRest map fst snd]. rewrite !flat_map_app, (escape_space sep Hs).
  fold (escapeRest rest). by rewrite IH.
Qed.

Lemma unquotedTerm_spec t :
  unquotedTerm t = true <-> t <> [] /\ forallb isTermChar t = true.
Proof.
  unfold unquotedTerm. rewrite andb_true_iff, negb_true_iff.
  by rewrite string_eqb_neq.
Qed.

Lemma separator_spec sep :
  separator sep = true <-> sep <> [] /\ forallb isWhiteSpace sep = true.
Proof.
  unfold separator. rewrite andb_true_iff, negb_true_iff.
  by rewrite string_eqb_neq.
Qed.

Lemma spaced_startsWithSpace rest :
  forallb (fun st => separator (fst st) && unquotedTerm (snd st)) rest = true ->
  startsWithSpace (spaced (escapeRest rest)).
Proof.
  destruct rest as [|[sep t] rest]; [done|]. cbn [forallb fst snd]. intros H.
  apply andb_true_iff in H as [Hst _]. apply andb_true_iff in Hst as [Hs _].
  apply separator_spec in Hs as [Hne Hs].
  destruct sep as [|c sep]; [done|]. cbn in *. by apply andb_true_iff in Hs as [Hc _].
Qed.

Lemma matchAll_from_spaced rest : forall e,
  e <> [] -> forallb isTermChar e = true ->
  forallb (fun st => separator (fst st) && unquotedTerm (snd st)) rest = true ->
  matchAll_from termRe 0 (e ++ spaced (escapeRest rest)) =
  e :: map snd (escapeRest rest).
Proof.
  induction rest as [|[sep t] rest IH]; intros e Hne He Hrest.
  - cbn [escapeRest map spaced]. destruct e as [|c e]; [done|].
    cbn [forallb] in He. apply andb_true_iff in He as [Hc He].
    cbn [app]. by rewrite (matchAll_from_term c e []).
  - pose proof (spaced_startsWithSpace _ Hrest) as Hsp.
    cbn [forallb fst snd] in Hrest. apply andb_true_iff in Hrest as [Hst Hrest].
    apply andb_true_iff in Hst as [Hs Ht].
    apply separator_spec in Hs as [_ Hs]. apply unquotedTerm_spec in Ht as [Htne Ht].
    destruct e as [|c e]; [done|].
    cbn [forallb] in He. apply andb_true_iff in He as [Hc He].
    cbn [app]. rewrite (matchAll_from_term c e _ Hc He Hsp).
    cbn [escapeRest map spaced fst snd]. fold (escapeRest rest).
    rewrite matchAll_from_spaces by done.
    rewrite IH; [done|by apply escape_nonempty|by apply escape_termChars|done].
Qed.

Lemma rev_head_spaced rest : forall e c,
  e <> [] -> forallb isTermChar e = true ->
  forallb (fun st => separator (fst st) && unquotedTerm (snd st)) rest = true ->
  head (rev (e ++ spaced (escapeRest rest))) = Some c -> isTermChar c = true.
Proof.
  induction rest as [|[sep t] rest IH]; intros e c Hne He Hrest Hc.
  - cbn [escapeRest map spaced] in Hc. rewrite app_nil_r in Hc.
    apply (head_forallb isTermChar (rev e)); [by rewrite forallb_rev|done].
  - cbn [forallb fst snd] in Hrest. apply andb_true_iff in Hrest as [Hst Hrest].
    apply andb_true_iff in Hst as [_ Ht]. apply unquotedTerm_spec in Ht as [Htne Ht].
    cbn [escapeRest map spaced fst snd] in Hc. fold (escapeRest rest) in Hc.
    rewrite !rev_app_distr in Hc.
    assert (Hne' : rev (flat_map escapeChar t ++ spaced (escapeRest rest)) <> []).
    { apply rev_nonempty. pose proof (escape_nonempty t Htne).
      by destruct (flat_map escapeChar t). }
    rewrite <- rev_app_distr in Hc. rewrite <- app_assoc in Hc.
    rewrite head_app_nonempty in Hc by done.
    apply (IH (flat_map escapeChar t) c); [by apply escape_nonempty|
      by apply escape_termChars|done|done].
Qed.

Lemma terms_expression lead t1 rest trail :
  isExpression lead t1 rest trail = true ->
  RegExp.matchAll termRe
    (trim (RegExp.replace escapeRe (fun m => "\"%char :: m)
             (expression lead t1 rest trail))) =
  map (flat_map escapeChar) (t1 :: map snd rest).
Proof.
  unfold isExpression. rewrite !andb_true_iff. intros [[[Hl Ht1] Hrest] Htr].
  apply unquotedTerm_spec in Ht1 as [Hne1 Ht1].
  rewrite replace_escapeRe. unfold expression.
  rewrite !flat_map_app, (escape_space lead Hl), (escape_space trail Htr).
  rewrite (escape_spaced rest Hrest).
  pose proof (escape_termChars t1 Ht1) as He1.
  pose proof (escape_nonempty t1 Hne1) as Hen1.
  rewrite (app_assoc (flat_map escapeChar t1)).
  rewrite trim_spaces; try done.
  - unfold RegExp.matchAll. rewrite matchAll_from_spaced by done.
    cbn [map]. f_equal. unfold escapeRest. rewrite !map_map. reflexivity.
  - intros c Hc. apply termChar_not_space. rewrite head_app_nonempty in Hc by done.
    by apply (head_forallb _ _ _ He1).
  - intros c Hc. apply termChar_not_space. by apply (rev_head_spaced rest _ c Hen1 He1).
Qed.

Lemma isExpression_terms lead t1 rest trail :
  isExpression lead t1 rest trail = true ->
  Forall (fun t => forallb isTermChar t = true) (t1 :: map snd rest).
Proof.
  unfold isExpression. rewrite !andb_true_iff. intros [[[_ Ht1] Hrest] _].
  constructor; [by apply unquotedTerm_spec in Ht1 as [_ ?]|].
  induction rest as [|[sep t] rest IH]; [constructor|].
  cbn [forallb fst snd] in Hrest. apply andb_true_iff in Hrest as [Hst Hrest].
  apply andb_true_iff in Hst as [_ Ht]. apply unquotedTerm_spec in Ht as [_ Ht].
  cbn. constructor; [done|by apply IH].
Qed.

Lemma expression_nonempty lead t1 rest trail :
  isExpression lead t1 rest trail = true -> expression lead t1 rest trail <> [].
Proof.
  unfold isExpression. rewrite !andb_true_iff. intros [[[_ Ht1] _] _].
  apply unquotedTerm_spec in Ht1 as [Hne _]. unfold expression.
  destruct lead; [|done]. by destruct t1.
Qed.

Lemma allTermsAt_matchAt ts x :
  accepts (matchAt (mk (searchPattern ts) true) x) = allTermsAt ts x.
Proof.
  rewrite matchAt_searchPattern. unfold allTermsAt. apply forallb_pointwise.
  intros t. cbn [globPrefix]. by change (ascii_eqb "*" "*") with true.
Qed.

Lemma searchTest_IsSearch raw ts s :
  IsSearch raw ts ->
  searchTest raw s = Some (existsb (allTermsAt ts) (tails s)).
Proof.
  intros (lead & t1 & rest & trail & Hex & -> & ->). unfold searchTest.
  rewrite (getSearchRegex_terms _ (t1 :: map snd rest)).
  - rewrite test_tails. f_equal. apply existsb_pointwise. intros x.
    apply allTermsAt_matchAt.
  - by apply expression_nonempty.
  - by apply terms_expression.
  - exact (isExpression_terms lead t1 rest trail Hex).
Qed.

Lemma In_tails_self s : In s (tails s).
Proof. destruct s; by left. Qed.

Lemma In_tails_trans s : forall x y, In x (tails s) -> In y (tails x) -> In y (tails s).
Proof.
  induction s as [|c s IH]; intros x y Hx Hy.
  - destruct Hx as [<-|[]]. exact Hy.
  - cbn [tails] in Hx. destruct Hx as [<-|Hx]; [exact Hy|].
    cbn [tails]. right. by apply (IH x).
Qed.

Lemma oneLine_tails s x : oneLine s = true -> In x (tails s) -> oneLine x = true.
Proof.
  induction s as [|c s IH]; intros Hs Hx.
  - by destruct Hx as [<-|[]].
  - cbn [tails] in Hx. destruct Hx as [<-|Hx]; [done|].
    cbn in Hs. apply andb_true_iff in Hs as [_ Hs]. by apply IH.
Qed.

Lemma existsb_allTermsAt ts s :
  oneLine s = true ->
  existsb (allTermsAt ts) (tails s) = forallb (fun t => globOccurs t s) ts.
Proof.
  intros Hs. apply eq_true_iff_eq. rewrite existsb_exists, forallb_forall. split.
  - intros (x & Hx & Hall) t Ht. unfold allTermsAt in Hall.
    rewrite forallb_forall in Hall. specialize (Hall t Ht).
    apply anyRun_tails in Hall. unfold globOccurs.
    apply existsb_exists in Hall as (y & Hy & Hf). apply existsb_exists.
    exists y. split; [by apply (In_tails_trans s x)|done].
  - intros H. exists s. split; [apply In_tails_self|].
    unfold allTermsAt. apply forallb_forall. intros t Ht.
    rewrite tails_anyRun by exact Hs. by apply H.
Qed.

(** X10.  For any number of unquoted terms, the compiled expression accepts a
    candidate without line terminators iff every term matches somewhere in
    it: the terms are combined with AND. *)
Theorem search_terms_and (raw : list ascii) (ts : list (list ascii)) (s : list ascii) :
  IsSearch raw ts -> oneLine s = true ->
  searchTest raw s = Some (forallb (fun t => globOccurs t s) ts).
Proof.
  intros Hraw Hs. rewrite (searchTest_IsSearch raw ts s Hraw).
  by rewrite existsb_allTermsAt.
Qed.

Lemma threeTerms_IsSearch : IsSearch threeTerms [str "ied"; str "Bay*1"; str "?"].
Proof.
  exists (str "  "), (str "ied"), [(str "  ", str "Bay*1"); (str " ", str "?")], (str " ").
  repeat split.
Qed.

Lemma search_terms_and_witness :
  searchTest threeTerms (str "BAY 11 - IED_7") =
  Some (forallb (fun t => globOccurs t (str "BAY 11 - IED_7"))
                [str "ied"; str "Bay*1"; str "?"]).
Proof.
  apply (search_terms_and threeTerms [str "ied"; str "Bay*1"; str "?"]).
  - apply threeTerms_IsSearch.
  - reflexivity.
Defined.

Lemma existsb_allTermsAt_incl ts ts' l :
  (forall t, In t ts -> In t ts') ->
  existsb (allTermsAt ts') l = true -> existsb (allTermsAt ts) l = true.
Proof.
  intros Hincl H. apply existsb_exists in H as (x & Hx & Hall).
  apply existsb_exists. exists x. split; [done|].
  unfold allTermsAt in *. rewrite forallb_forall in Hall. apply forallb_forall.
  intros t Ht. apply Hall. by apply Hincl.
Qed.

(** X11.  Further search text narrows the search: a candidate accepted by an
    expression is accepted by every expression whose terms are among its
    terms. *)
Theorem search_narrows (raw raw' : list ascii) (ts ts' : list (list ascii))
    (s : list ascii) :
  IsSearch raw ts -> IsSearch raw' ts' ->
  (forall t, In t ts -> In t ts') ->
  searchTest raw' s = Some true -> searchTest raw s = Some true.
Proof.
  intros Hraw Hraw' Hincl. rewrite (searchTest_IsSearch raw ts s Hraw).
  rewrite (searchTest_IsSearch raw' ts' s Hraw'). intros [= H]. f_equal.
  by apply (existsb_allTermsAt_incl ts ts').
Qed.

Lemma search_narrows_witness :
  searchTest (str "ied") (str "BAY 11 - IED_7") = Some true.
Proof.
  apply (search_narrows (str "ied") threeTerms [str "ied"]
           [str "ied"; str "Bay*1"; str "?"]).
  - exists [], (str "ied"), [], []. repeat split.
  - apply threeTerms_IsSearch.
  - intros t [<-|[]]. by left.
  - vm_compute. reflexivity.
Defined.

(** X12.  Neither the order of the terms nor their repetition matters: two
    expressions with the same set of unquoted terms accept the same
    candidates. *)
Theorem search_term_order_irrelevant (raw raw' : list ascii)
    (ts ts' : list (list ascii)) (s : list ascii) :
  IsSearch raw ts -> IsSearch raw' ts' ->
  (forall t, In t ts <-> In t ts') ->
  searchTest raw s = searchTest raw' s.
Proof.
  intros Hraw Hraw' Hsame. rewrite (searchTest_IsSearch raw ts s Hraw).
  rewrite (searchTest_IsSearch raw' ts' s Hraw'). f_equal.
  apply eq_true_iff_eq. split; apply existsb_allTermsAt_incl; intros t; apply Hsame.
Qed.

Lemma search_term_order_irrelevant_witness :
  searchTest (str "foo bar") (str "barXfoo") =
  searchTest (str "bar  foo bar") (str "barXfoo").
Proof.
  apply (search_term_order_irrelevant (str "foo bar") (str "bar  foo bar")
           [str "foo"; str "bar"] [str "bar"; str "foo"; str "bar"]).
  - exists [], (str "foo"), [(str " ", str "bar")], []. repeat split.
  - exists [], (str "bar"), [(str "  ", str "foo"); (str " ", str "bar")], [].
    repeat split.
  - intros t. cbn. tauto.
Defined.

Lemma test_matchAllRe s : RegExp.test matchAllRe s = true.
Proof.
  rewrite test_tails. apply existsb_exists. exists s. split; [apply In_tails_self|].
  unfold matchAt, matchAllRe, Star. cbn [pattern RegExp.ignoreCase compile Nat.add].
  rewrite RepeatMatcher_star_dot. by destruct s.
Qed.

Lemma searchTest_blank (raw s : list ascii) :
  forallb isWhiteSpace raw = true -> searchTest raw s = Some true.
Proof.
  intros Hraw. unfold searchTest, getSearchRegex.
  destruct (string_eqb raw []) eqn:E.
  - by rewrite test_matchAllRe.
  - rewrite replace_escapeRe, (escape_space raw Hraw), (trim_blank raw Hraw).
    change (RegExp.matchAll termRe []) with (@nil (list ascii)).
    pose proof (new_searchPattern []) as Hn. cbn [map concat app] in *. rewrite Hn.
    rewrite test_tails. f_equal. apply existsb_exists. exists s.
    split; [apply In_tails_self|]. by rewrite allTermsAt_matchAt.
Qed.

(** X13.  An expression that is empty or consists of white space only accepts
    every candidate. *)
Theorem blank_search_accepts_all (raw s : list ascii) :
  forallb isWhiteSpace raw = true -> searchTest raw s = Some true.
Proof. apply searchTest_blank. Qed.

Lemma blank_search_accepts_all_witness :
  searchTest (str "   ") (str "anything") = Some true.
Proof. apply (blank_search_accepts_all (str "   ")). reflexivity. Defined.

Lemma toUpperCase_idem c : toUpperCase (toUpperCase c) = toUpperCase c.
Proof. by each_code_unit c. Qed.

Lemma isLineTerminator_upper c :
  isLineTerminator (toUpperCase c) = isLineTerminator c.
Proof. by each_code_unit c. Qed.

Lemma isWhiteSpace_upper c : isWhiteSpace (toUpperCase c) = isWhiteSpace c.
Proof. by each_code_unit c. Qed.

Lemma isTermChar_upper c : isTermChar (toUpperCase c) = isTermChar c.
Proof. by each_code_unit c. Qed.

Lemma isStar_upper c : ascii_eqb (toUpperCase c) "*" = ascii_eqb c "*".
Proof. by each_code_unit c. Qed.

Lemma isQuestion_upper c : ascii_eqb (toUpperCase c) "?" = ascii_eqb c "?".
Proof. by each_code_unit c. Qed.

Lemma anyRun_upper f g x :
  (forall y, f (map toUpperCase y) = g y) ->
  anyRun f (map toUpperCase x) = anyRun g x.
Proof.
  intros H. induction x as [|d x IH]; cbn [map anyRun].
  - pose proof (H []) as H0. cbn [map] in H0. by rewrite H0.
  - pose proof (H (d :: x)) as H0. cbn [map] in H0.
    by rewrite H0, isLineTerminator_upper, IH.
Qed.

Lemma globPrefix_upper_candidate t : forall x,
  globPrefix t (map toUpperCase x) = globPrefix t x.
Proof.
  induction t as [|c t IH]; intros x; [done|]. cbn [globPrefix].
  destruct (ascii_eqb c "*"); [by apply anyRun_upper|].
  destruct x as [|d x]; [by destruct (ascii_eqb c "?")|]. cbn [map].
  rewrite isLineTerminator_upper, IH. unfold sameLetter.
  by rewrite toUpperCase_idem.
Qed.

Lemma globPrefix_upper_term t : forall x,
  globPrefix (map toUpperCase t) x = globPrefix t x.
Proof.
  induction t as [|c t IH]; intros x; [done|]. cbn [map globPrefix].
  rewrite isStar_upper, isQuestion_upper.
  destruct (ascii_eqb c "*"); [by apply anyRun_ext|].
  destruct (ascii_eqb c "?"); destruct x as [|d x]; try done; rewrite IH; try done.
  unfold sameLetter. by rewrite toUpperCase_idem.
Qed.

Lemma tails_map (f : ascii -> ascii) s : tails (map f s) = map (map f) (tails s).
Proof. induction s as [|c s IH]; [done|]. cbn [map tails]. by rewrite IH. Qed.

Lemma existsb_map {A B} (f : A -> B) (g : B -> bool) l :
  existsb g (map f l) = existsb (fun x => g (f x)) l.
Proof. induction l as [|a l IH]; [done|]. cbn. by rewrite IH. Qed.

Lemma allTermsAt_upper_candidate ts x :
  allTermsAt ts (map toUpperCase x) = allTermsAt ts x.
Proof.
  unfold allTermsAt. apply forallb_pointwise. intros t.
  apply anyRun_upper. intros y. apply globPrefix_upper_candidate.
Qed.

Lemma allTermsAt_upper_terms ts x :
  allTermsAt (map (map toUpperCase) ts) x = allTermsAt ts x.
Proof.
  unfold allTermsAt. rewrite forallb_map. apply forallb_pointwise. intros t.
  apply anyRun_ext. intros y. apply globPrefix_upper_term.
Qed.

Lemma forallb_map_upper (P : ascii -> bool) x :
  (forall c, P (toUpperCase c) = P c) ->
  forallb P (map toUpperCase x) = forallb P x.
Proof. intros H. rewrite forallb_map. by apply forallb_pointwise. Qed.

Lemma unquotedTerm_upper t : unquotedTerm (map toUpperCase t) = unquotedTerm t.
Proof.
  unfold unquotedTerm. rewrite (forallb_map_upper _ _ isTermChar_upper).
  by destruct t.
Qed.

Lemma separator_upper sep : separator (map toUpperCase sep) = separator sep.
Proof.
  unfold separator. rewrite (forallb_map_upper _ _ isWhiteSpace_upper).
  by destruct sep.
Qed.

Lemma spaced_upper rest :
  map toUpperCase (spaced rest) =
  spaced (map (fun st => (map toUpperCase (fst st), map toUpperCase (snd st))) rest).
Proof.
  induction rest as [|[sep t] rest IH]; [done|].
  cbn [spaced map fst snd]. by rewrite !map_app, IH.
Qed.

Lemma IsSearch_upper raw ts :
  IsSearch raw ts -> IsSearch (map toUpperCase raw) (map (map toUpperCase) ts).
Proof.
  intros (lead & t1 & rest & trail & Hex & -> & ->).
  exists (map toUpperCase lead), (map toUpperCase t1),
    (map (fun st => (map toUpperCase (fst st), map toUpperCase (snd st))) rest),
    (map toUpperCase trail).
  split; [|split].
  - unfold isExpression in *. rewrite !andb_true_iff in *.
    destruct Hex as [[[Hl Ht] Hr] Htr].
    rewrite !(forallb_map_upper _ _ isWhiteSpace_upper), unquotedTerm_upper.
    repeat split; try done.
    rewrite forallb_map. rewrite <- Hr. apply forallb_pointwise. intros [sep t].
    cbn [fst snd]. by rewrite separator_upper, unquotedTerm_upper.
  - unfold expression. by rewrite !map_app, spaced_upper.
  - cbn [map]. f_equal. rewrite !map_map. reflexivity.
Qed.

(** X14.  The search ignores letter case on both sides: an expression of
    unquoted terms accepts two candidates that differ only in case alike,
    and accepts the same candidates when written in upper case. *)
Theorem search_ignores_case (raw : list ascii) (ts : list (list ascii))
    (s s' : list ascii) :
  IsSearch raw ts ->
  map toUpperCase s = map toUpperCase s' ->
  searchTest raw s = searchTest raw s' /\
  searchTest (map toUpperCase raw) s = searchTest raw s.
Proof.
  intros Hraw Hs.
  assert (Hcand : forall x, existsb (allTermsAt ts) (tails (map toUpperCase x)) =
                            existsb (allTermsAt ts) (tails x)).
  { intros x. rewrite tails_map, existsb_map. apply existsb_pointwise.
    intros y. apply allTermsAt_upper_candidate. }
  split.
  - rewrite !(searchTest_IsSearch raw ts _ Hraw). f_equal.
    by rewrite <- (Hcand s), <- (Hcand s'), Hs.
  - rewrite (searchTest_IsSearch _ _ s (IsSearch_upper raw ts Hraw)).
    rewrite (searchTest_IsSearch raw ts s Hraw). f_equal.
    apply existsb_pointwise. intros x. apply allTermsAt_upper_terms.
Qed.

Lemma search_ignores_case_witness :
  searchTest (str "ied bay") (str "Bay 1 IED") = searchTest (str "ied bay") (str "bAY 1 ieD") /\
  searchTest (map toUpperCase (str "ied bay")) (str "Bay 1 IED") =
    searchTest (str "ied bay") (str "Bay 1 IED").
Proof.
  apply (search_ignores_case (str "ied bay") [str "ied"; str "bay"]).
  - exists [], (str "ied"), [(str " ", str "bay")], []. repeat split.
  - reflexivity.
Defined.

Lemma expandTerm_escape_any x :
  expandTerm (flat_map escapeChar x) = flat_map pieceOf x.
Proof.
  unfold expandTerm.
  rewrite replace_starRe, replace_questionRe, replace_quoteRe.
  rewrite !flat_map_flat_map.
  induction x as [|c x IH]; [done|]. cbn [flat_map]. rewrite IH. f_equal.
  by each_code_unit c.
Qed.

Lemma pieceOf_filter x : flat_map pieceOf x = flat_map piece (List.filter notQuote x).
Proof.
  induction x as [|c x IH]; [done|]. cbn [flat_map List.filter].
  unfold pieceOf at 1, notQuote at 1. destruct (isQuote c); cbn [negb flat_map];
    by rewrite IH.
Qed.

Lemma getSearchRegex_tokens raw toks :
  raw <> [] ->
  RegExp.matchAll termRe
    (trim (RegExp.replace escapeRe (fun m => "\"%char :: m) raw)) =
    map (flat_map escapeChar) toks ->
  getSearchRegex raw =
  Some (mk (searchPattern (map (List.filter notQuote) toks)) true).
Proof.
  intros Hne Hterms. unfold getSearchRegex.
  apply string_eqb_neq in Hne. rewrite Hne, Hterms.
  rewrite <- new_searchPattern. f_equal. f_equal. f_equal.
  rewrite !map_map. clear Hterms. induction toks as [|t toks IH]; [done|].
  cbn [map]. rewrite IH. f_equal. unfold lookaheadSource. f_equal. f_equal.
  rewrite <- pieceOf_filter. apply expandTerm_escape_any.
Qed.

Lemma inClass_quote1 c : inClass false [CChar squote; CChar dquote] c = isQuote c.
Proof. by each_code_unit c. Qed.

Lemma inClass_quote2 c : inClass false [CChar dquote; CChar squote] c = isQuote c.
Proof. by each_code_unit c. Qed.

Lemma inClass_notQuote c : inClass true [CChar squote; CChar dquote] c = notQuote c.
Proof. by each_code_unit c. Qed.

Lemma quote_not_termChar c : isQuote c = true -> isTermChar c = false.
Proof. unfold isTermChar. intros ->. apply andb_false_r. Qed.

Lemma escapeChar_quote c : isQuote c = true -> escapeChar c = [c].
Proof. each_code_unit c; try discriminate; reflexivity. Qed.

Lemma escapeChar_notQuote c :
  notQuote c = true -> forallb notQuote (escapeChar c) = true.
Proof. each_code_unit c; try discriminate; reflexivity. Qed.

Lemma escape_notQuote x :
  forallb notQuote x = true -> forallb notQuote (flat_map escapeChar x) = true.
Proof.
  induction x as [|c x IH]; [done|]. cbn [forallb flat_map]. intros H.
  apply andb_true_iff in H as [Hc H].
  rewrite forallb_app, (escapeChar_notQuote c Hc). by apply IH.
Qed.

Lemma quote_not_space c : isQuote c = true -> isWhiteSpace c = false.
Proof. each_code_unit c; try discriminate; reflexivity. Qed.

(** The quoted alternative of [termAlt] on a quoted run. *)
Lemma termAlt_quoted q body q' rest k z :
  isQuote q = true -> forallb notQuote body = true -> isQuote q' = true ->
  k rest = Some z ->
  compile false termAlt (q :: body ++ q' :: rest) k = Some z.
Proof.
  intros Hq Hbody Hq' Hk. unfold termAlt. cbn [compile].
  change (RepeatMatcher _ _ 1 None ?x ?k0)
    with (compile false (Plus (Class true [CSpace; CChar dquote; CChar squote])) x k0).
  rewrite compile_Plus_class_stops.
  2:{ cbn [stops]. rewrite inClass_termChar. by apply quote_not_termChar. }
  fold (inClass false [CChar squote; CChar dquote] q).
  rewrite inClass_quote1, Hq. unfold Star. cbn [compile Nat.add].
  apply (RepeatMatcher_greedy_run _ (inClass true [CChar squote; CChar dquote])).
  - apply charMatcher_Class.
  - cbn [stops]. rewrite inClass_notQuote. unfold notQuote. by rewrite Hq'.
  - fold (inClass false [CChar dquote; CChar squote] q').
    by rewrite inClass_quote2, Hq'.
  - transitivity (forallb notQuote body); [|exact Hbody].
    apply forallb_pointwise, inClass_notQuote.
  - lia.
Qed.

Lemma matchAt_termRe_quoted q body q' rest :
  isQuote q = true -> forallb notQuote body = true -> isQuote q' = true ->
  startsWithSpace rest ->
  matchAt termRe (q :: body ++ q' :: rest) = Some rest.
Proof.
  intros Hq Hbody Hq' Hs. unfold matchAt, termRe. fold termAlt. unfold Plus.
  cbn [pattern RegExp.ignoreCase compile Nat.add RepeatMatcher Nat.eqb andb pred option_map].
  apply termAlt_quoted; try done.
  cbn [length RepeatMatcher Nat.eqb]. by rewrite termAlt_fails.
Qed.

(** X15.  Quotes delimit one term: an expression made of one quoted run is
    searched for as a single term, white space included; the two quotes need
    not be of the same kind, and [*] and [?] between them still are globs. *)
Theorem quoted_term_is_one_term (q q' : ascii) (body s : list ascii) :
  isQuote q = true -> isQuote q' = true -> forallb notQuote body = true ->
  searchTest (q :: body ++ [q']) s = Some (globOccurs body s).
Proof.
  intros Hq Hq' Hbody. unfold searchTest.
  rewrite (getSearchRegex_tokens _ [q :: body ++ [q']]); [| done |].
  - rewrite test_tails. f_equal.
    replace (map (List.filter notQuote) [q :: body ++ [q']]) with [body].
    + unfold globOccurs. rewrite <- (existsb_tails_anyRun (globPrefix body)).
      apply existsb_pointwise. intros x.
      rewrite allTermsAt_matchAt. unfold allTermsAt. cbn [forallb].
      apply andb_true_r.
    + cbn [map List.filter]. unfold notQuote at 1. rewrite Hq. cbn [negb].
      rewrite List.filter_app. cbn [List.filter]. unfold notQuote at 2.
      rewrite Hq'. cbn [negb]. rewrite app_nil_r. f_equal. symmetry.
      clear -Hbody. induction body as [|c body IH]; [done|]. cbn in *.
      apply andb_true_iff in Hbody as [-> Hb]. by rewrite IH.
  - rewrite replace_escapeRe. cbn [map flat_map]. rewrite flat_map_app.
    cbn [flat_map]. rewrite !escapeChar_quote, app_nil_r by done. cbn [app].
    pose proof (escape_notQuote body Hbody) as He.
    set (eb := flat_map escapeChar body) in *.
    rewrite trim_id.
    + unfold RegExp.matchAll. cbn [matchAll_from].
      rewrite (matchAt_termRe_quoted q eb q' []) by done.
      replace (length (q :: eb ++ [q']) - length (@nil ascii))
        with (S (length (eb ++ [q']))) by (simpl; lia).
      cbn [take pred]. rewrite take_ge by lia. f_equal.
      rewrite <- (app_nil_r (eb ++ [q'])) at 2. by rewrite matchAll_from_skip.
    + intros c [= <-]. by apply quote_not_space.
    + intros c Hc. change (q :: eb ++ [q']) with ((q :: eb) ++ [q']) in Hc.
      rewrite rev_app_distr in Hc. cbn in Hc. injection Hc as <-.
      by apply quote_not_space.
Qed.

Lemma quoted_term_is_one_term_witness :
  searchTest (dquote :: str "a b" ++ [dquote]) (str "xa bz") =
    Some (globOccurs (str "a b") (str "xa bz")) /\
  globOccurs (str "a b") (str "xa bz") = true /\
  searchTest (dquote :: str "a b" ++ [dquote]) (str "axb") =
    Some (globOccurs (str "a b") (str "axb")) /\
  globOccurs (str "a b") (str "axb") = false.
Proof.
  split; [|split; [reflexivity|split; [|reflexivity]]].
  - apply (quoted_term_is_one_term dquote dquote (str "a b")); reflexivity.
  - apply (quoted_term_is_one_term dquote dquote (str "a b")); reflexivity.
Defined.

Lemma RepeatMatcher_fails m P k :
  charMatcher P m -> forall x fuel,
  (forall n, k (drop n x) = None) ->
  RepeatMatcher m fuel 0 None x k = None.
Proof.
  intros Hm x. induction x as [|c x IH]; intros fuel Hk.
  - destruct fuel; cbn [RepeatMatcher Nat.eqb]; [exact (Hk 0)|].
    rewrite Hm. exact (Hk 0).
  - destruct fuel as [|fuel]; cbn [RepeatMatcher Nat.eqb]; [exact (Hk 0)|].
    rewrite Hm. destruct (P c).
    + replace (length x =? length (c :: x)) with false
        by (symmetry; apply Nat.eqb_neq; simpl; lia).
      cbn [andb pred option_map]. rewrite IH by (intros n; exact (Hk (S n))).
      exact (Hk 0).
    + exact (Hk 0).
Qed.

Lemma forallb_drop {A} (P : A -> bool) n x :
  forallb P x = true -> forallb P (drop n x) = true.
Proof.
  revert n. induction x as [|a x IH]; intros n H; [by destruct n|].
  destruct n as [|n]; [done|]. cbn in H. apply andb_true_iff in H as [_ H].
  cbn. by apply IH.
Qed.

(** An opening quote that is never closed starts no term. *)
Lemma termAlt_unclosed q e k :
  isQuote q = true -> forallb notQuote e = true ->
  compile false termAlt (q :: e) k = None.
Proof.
  intros Hq He. unfold termAlt. cbn [compile].
  change (RepeatMatcher _ _ 1 None ?x ?k0)
    with (compile false (Plus (Class true [CSpace; CChar dquote; CChar squote])) x k0).
  rewrite compile_Plus_class_stops.
  2:{ cbn [stops]. rewrite inClass_termChar. by apply quote_not_termChar. }
  fold (inClass false [CChar squote; CChar dquote] q).
  rewrite inClass_quote1, Hq. unfold Star. cbn [compile Nat.add].
  apply (RepeatMatcher_fails _ (inClass true [CChar squote; CChar dquote])).
  - apply charMatcher_Class.
  - intros n. pose proof (forallb_drop notQuote n e He) as Hd.
    destruct (drop n e) as [|c y]; [done|]. cbn in Hd.
    apply andb_true_iff in Hd as [Hc _].
    fold (inClass false [CChar dquote; CChar squote] c).
    rewrite inClass_quote2. unfold notQuote in Hc. by destruct (isQuote c).
Qed.

Lemma matchAt_termRe_unclosed q e :
  isQuote q = true -> forallb notQuote e = true -> matchAt termRe (q :: e) = None.
Proof.
  intros Hq He. unfold matchAt, termRe. fold termAlt. unfold Plus.
  cbn [pattern RegExp.ignoreCase compile Nat.add RepeatMatcher Nat.eqb].
  by apply termAlt_unclosed.
Qed.

Lemma termChar_notQuote c : isTermChar c = true -> notQuote c = true.
Proof. unfold isTermChar, notQuote. by destruct (isWhiteSpace c), (isQuote c). Qed.

Lemma termChars_notQuote x :
  forallb isTermChar x = true -> forallb notQuote x = true.
Proof.
  induction x as [|c x IH]; [done|]. cbn. rewrite !andb_true_iff.
  intros [Hc H]. split; [by apply termChar_notQuote|by apply IH].
Qed.

(** A run of term characters before a quote that is never closed. *)
Lemma matchAt_termRe_run_quote c run q :
  isTermChar c = true -> forallb isTermChar run = true -> isQuote q = true ->
  matchAt termRe (c :: run ++ [q]) = Some [q].
Proof.
  intros Hc Hrun Hq. unfold matchAt, termRe. fold termAlt. unfold Plus.
  cbn [pattern RegExp.ignoreCase compile Nat.add RepeatMatcher Nat.eqb andb pred option_map].
  unfold termAlt at 1. cbn [compile].
  change (RepeatMatcher _ _ 1 None ?x ?k)
    with (compile false (Plus (Class true [CSpace; CChar dquote; CChar squote])) x k).
  rewrite (compile_Plus_class_run _ _ _ [q]); try done.
  - by rewrite inClass_termChar.
  - transitivity (forallb isTermChar run); [|exact Hrun].
    apply forallb_pointwise, inClass_termChar.
  - cbn [stops]. rewrite inClass_termChar. by apply quote_not_termChar.
  - cbn [length RepeatMatcher Nat.eqb]. by rewrite (termAlt_unclosed q []).
Qed.

(** X16.  A quote that has no partner is ignored: before or after an unquoted
    term it changes nothing. *)
Theorem unmatched_quote_ignored (q : ascii) (t s : list ascii) :
  isQuote q = true -> unquotedTerm t = true ->
  searchTest (q :: t) s = searchTest t s /\
  searchTest (t ++ [q]) s = searchTest t s.
Proof.
  intros Hq Ht. apply unquotedTerm_spec in Ht as [Hne Ht].
  pose proof (escape_termChars t Ht) as He.
  pose proof (escape_nonempty t Hne) as Hen.
  assert (Hsingle : getSearchRegex t = Some (mk (searchPattern [t]) true)).
  { apply (getSearchRegex_terms t [t] Hne (terms_single t Hne Ht)). by constructor. }
  unfold searchTest. rewrite Hsingle. split.
  - rewrite (getSearchRegex_terms (q :: t) [t]); [done|done| |by constructor].
    rewrite replace_escapeRe. cbn [flat_map map]. rewrite escapeChar_quote by done.
    cbn [app]. rewrite trim_id.
    + unfold RegExp.matchAll. cbn [matchAll_from].
      rewrite matchAt_termRe_unclosed by (try done; by apply termChars_notQuote).
      destruct (flat_map escapeChar t) as [|c e]; [done|].
      cbn [forallb] in He. apply andb_true_iff in He as [Hc He].
      rewrite <- (app_nil_r e) at 1. by rewrite (matchAll_from_term c e []).
    + intros c [= <-]. by apply quote_not_space.
    + intros c Hc. apply termChar_not_space.
      change (q :: flat_map escapeChar t) with ([q] ++ flat_map escapeChar t) in Hc.
      rewrite rev_app_distr in Hc.
      rewrite head_app_nonempty in Hc by (by apply rev_nonempty).
      apply (head_forallb isTermChar (rev (flat_map escapeChar t))); [|done].
      by rewrite forallb_rev.
  - rewrite (getSearchRegex_terms (t ++ [q]) [t]); [done| | |by constructor].
    { by destruct t. }
    rewrite replace_escapeRe, flat_map_app. cbn [flat_map map].
    rewrite escapeChar_quote, app_nil_r by done. rewrite trim_id.
    + unfold RegExp.matchAll.
      destruct (flat_map escapeChar t) as [|c e]; [done|].
      cbn [forallb] in He. apply andb_true_iff in He as [Hc He].
      cbn [app matchAll_from]. rewrite (matchAt_termRe_run_quote c e q) by done.
      replace (length (c :: e ++ [q]) - length [q]) with (S (length e))
        by (simpl; rewrite length_app; simpl; lia).
      cbn [take pred]. rewrite take_app_length. f_equal.
      rewrite matchAll_from_skip. cbn [matchAll_from].
      by rewrite (matchAt_termRe_unclosed q []).
    + intros c Hc. apply termChar_not_space.
      rewrite head_app_nonempty in Hc by done. by apply (head_forallb _ _ _ He).
    + intros c Hc. rewrite rev_app_distr in Hc. cbn in Hc. injection Hc as <-.
      by apply quote_not_space.
Qed.

Lemma unmatched_quote_ignored_witness :
  searchTest (squote :: str "IED1") (str "bay ied12") =
    searchTest (str "IED1") (str "bay ied12") /\
  searchTest (str "IED1" ++ [squote]) (str "bay ied12") =
    searchTest (str "IED1") (str "bay ied12").
Proof.
  apply (unmatched_quote_ignored squote (str "IED1")); reflexivity.
Defined.

(** * Item descriptions and the search field *)

Lemma join_two sep a b : join sep [a; b] = a ++ sep ++ b.
Proof. reflexivity. Qed.

(** X17.  Absent attributes are left out of both lines, but the second line
    always ends with the schema information, which may be empty: if a
    description or a configuration version is present, the separator
    follows it even when there is no schema attribute. *)
Theorem description_lines (ied : Ied) :
  (type ied = None ->
     fst (getIedDescription ied) = default [] (manufacturer ied)) /\
  (manufacturer ied = None ->
     fst (getIedDescription ied) = default [] (type ied)) /\
  (desc ied = None -> configVersion ied = None ->
     snd (getIedDescription ied) = schemaInformation ied) /\
  (desc ied <> None \/ configVersion ied <> None ->
     exists pre, snd (getIedDescription ied) =
                 pre ++ str " - " ++ schemaInformation ied).
Proof.
  unfold getIedDescription. cbn [fst snd].
  destruct (manufacturer ied) as [m|], (type ied) as [t|],
    (desc ied) as [d|], (configVersion ied) as [c|];
    repeat split; try done; intros H;
    try (destruct H as [H|H]; by destruct H).
  all: cbn [notNull].
  - exists (d ++ str " - " ++ c). cbn [join]. by rewrite <- !app_assoc.
  - by exists d.
  - by exists c.
  - exists (d ++ str " - " ++ c). cbn [join]. by rewrite <- !app_assoc.
  - by exists d.
  - by exists c.
  - exists (d ++ str " - " ++ c). cbn [join]. by rewrite <- !app_assoc.
  - by exists d.
  - by exists c.
  - exists (d ++ str " - " ++ c). cbn [join]. by rewrite <- !app_assoc.
  - by exists d.
  - by exists c.
Qed.

Lemma description_lines_witness :
  exists pre,
    snd (getIedDescription
           (mkIed (str "IED1") None None (Some (str "bay 1")) None None None None)) =
    pre ++ str " - " ++
    schemaInformation
      (mkIed (str "IED1") None None (Some (str "bay 1")) None None None None).
Proof.
  apply (proj2 (proj2 (proj2 (description_lines
           (mkIed (str "IED1") None None (Some (str "bay 1")) None None None None))))).
  left. discriminate.
Defined.

Lemma onSearchInput_Some d re :
  getSearchRegex (searchIedsUI d) = Some re ->
  exists d', onSearchInput d = Some d' /\ plugin d' = plugin d /\
    searchIedsUI d' = searchIedsUI d /\
    (forall i, items d' !! i =
       (fun item =>
          setHidden (negb (RegExp.test re (searchText item (iedListUI (plugin d) !! i)))
                     && negb (string_eqb (searchIedsUI d) [])) item)
       <$> items d !! i).
Proof.
  intros H. unfold onSearchInput. rewrite H. eexists. split; [reflexivity|].
  cbn. repeat split. intros i. apply list_lookup_imap.
Qed.

(** X18.  With an empty search field, or one that holds white space only, the
    handler shows every item, and it never touches the text fields. *)
Theorem blank_search_shows_all (d : Dialog) :
  forallb isWhiteSpace (searchIedsUI d) = true ->
  exists d', onSearchInput d = Some d' /\ plugin d' = plugin d /\
    length (items d') = length (items d) /\
    (forall i item, items d' !! i = Some item -> hidden item = false).
Proof.
  intros Hblank.
  assert (Hall : forall s, searchTest (searchIedsUI d) s = Some true)
    by (intros s; by apply searchTest_blank).
  unfold searchTest in Hall.
  destruct (getSearchRegex (searchIedsUI d)) as [re|] eqn:E;
    [|by specialize (Hall [])].
  destruct (onSearchInput_Some d re E) as (d' & Hd' & Hp & _ & Hk).
  exists d'. split; [done|]. split; [done|]. split.
  - unfold onSearchInput in Hd'. rewrite E in Hd'. injection Hd' as <-. cbn.
    apply length_imap.
  - intros i item Hi. rewrite Hk in Hi. apply fmap_Some in Hi as (it & _ & ->).
    cbn. specialize (Hall (searchText it (iedListUI (plugin d) !! i))).
    injection Hall as ->. reflexivity.
Qed.

Lemma blank_search_shows_all_witness :
  exists d', onSearchInput (renderDialog [mkIed (str "IED1") None None None None None None None])
             = Some d' /\
    plugin d' = plugin (renderDialog [mkIed (str "IED1") None None None None None None None]) /\
    length (items d') =
      length (items (renderDialog [mkIed (str "IED1") None None None None None None None])) /\
    (forall i item, items d' !! i = Some item -> hidden item = false).
Proof.
  apply (blank_search_shows_all
           (renderDialog [mkIed (str "IED1") None None None None None None None])).
  reflexivity.
Defined.

Lemma anyRun_app (f g : list ascii -> bool) y x :
  (forall z, f z = true -> g (z ++ y) = true) ->
  anyRun f x = true -> anyRun g (x ++ y) = true.
Proof.
  intros H. induction x as [|d x IH]; cbn [anyRun app].
  - rewrite orb_false_r. intros Hf. apply anyRun_self. by apply (H []).
  - intros Hx. apply orb_true_iff in Hx as [Hf|Hx].
    + pose proof (H (d :: x) Hf) as Hg. cbn [app] in Hg. by rewrite Hg.
    + apply andb_true_iff in Hx as [Hd Hx]. rewrite Hd, (IH Hx). apply orb_true_r.
Qed.

Lemma globPrefix_app t : forall x y,
  globPrefix t x = true -> globPrefix t (x ++ y) = true.
Proof.
  induction t as [|c t IH]; intros x y; [done|]. cbn [globPrefix].
  destruct (ascii_eqb c "*").
  - apply anyRun_app. intros z. apply IH.
  - destruct (ascii_eqb c "?"); destruct x as [|d x]; try done; cbn [app];
      rewrite !andb_true_iff; intros [? ?]; (split; [done|by apply IH]).
Qed.

Lemma globOccurs_app t pre x post :
  globOccurs t x = true -> globOccurs t (pre ++ x ++ post) = true.
Proof.
  unfold globOccurs. rewrite !existsb_tails_spec.
  intros (a & b & -> & Hb). exists (pre ++ a), (b ++ post). split.
  - by rewrite <- !app_assoc.
  - by apply globPrefix_app.
Qed.

(** X19.  An item stays visible when every term of the search matches in its
    first line, its second line, its proposed name or its old name; a
    renamed IED is still found by the name it has in the document.  (The
    item's text is without line terminators.) *)
Theorem item_found_by_any_part
    (d : Dialog) (ts : list (list ascii)) (i : nat) (item : ListItem) (f : TextField) :
  IsSearch (searchIedsUI d) ts ->
  items d !! i = Some item -> iedListUI (plugin d) !! i = Some f ->
  oneLine (searchText item (Some f)) = true ->
  (forall t, In t ts ->
     globOccurs t (firstLineText item) = true \/
     globOccurs t (secondLineText item) = true \/
     globOccurs t (value f) = true \/
     globOccurs t (dataOldName f) = true) ->
  exists d' item', onSearchInput d = Some d' /\ items d' !! i = Some item' /\
                   hidden item' = false.
Proof.
  intros Hraw Hitem Hf Hline Hparts.
  pose proof (searchTest_IsSearch _ ts (searchText item (Some f)) Hraw) as Htest.
  rewrite existsb_allTermsAt in Htest by done.
  unfold searchTest in Htest.
  destruct (getSearchRegex (searchIedsUI d)) as [re|] eqn:E; [|done].
  destruct (onSearchInput_Some d re E) as (d' & Hd' & _ & _ & Hk).
  exists d'. eexists. split; [done|]. rewrite Hk, Hitem, Hf. split; [reflexivity|].
  cbn. injection Htest as ->.
  replace (forallb _ ts) with true; [reflexivity|]. symmetry.
  apply forallb_forall. intros t Ht. unfold searchText.
  destruct (Hparts t Ht) as [H|[H|[H|H]]].
  - apply (globOccurs_app t [] (firstLineText item)). exact H.
  - apply (globOccurs_app t (firstLineText item ++ str " ") (secondLineText item)
             (str " " ++ value f ++ str " " ++ dataOldName f)) in H.
    by rewrite <- !app_assoc in H.
  - apply (globOccurs_app t (firstLineText item ++ str " " ++ secondLineText item
                             ++ str " ") (value f) (str " " ++ dataOldName f)) in H.
    by rewrite <- !app_assoc in H.
  - apply (globOccurs_app t (firstLineText item ++ str " " ++ secondLineText item
                             ++ str " " ++ value f ++ str " ") (dataOldName f) []) in H.
    by rewrite <- !app_assoc, app_nil_r in H.
Qed.

Lemma item_found_by_any_part_witness :
  exists d' item', onSearchInput searchedDialog = Some d' /\
                   items d' !! 0 = Some item' /\ hidden item' = false.
Proof.
  apply (item_found_by_any_part searchedDialog [str "ied1"] 0
           (mkListItem (str "ACME - relay") (str "bay 1 - 2007B") false)
           (mkTextField (str "P1") (str "IED1") [] true true)).
  - exists [], (str "ied1"), [], []. repeat split.
  - reflexivity.
  - reflexivity.
  - reflexivity.
  - intros t [<-|[]]. right. right. right. reflexivity.
Defined.

(** ** [debounce] *)

Lemma debounceRun_calls {A : Type} (evs : list (TimerEvent A)) : forall timeout,
  snd (debounceRun timeout evs) =
  match timeout, evs with
  | Some args, Expire :: _ => [args]
  | _, _ => []
  end ++ undisturbed evs.
Proof.
  induction evs as [|ev evs IH]; intros timeout.
  - cbn. by destruct timeout.
  - cbn [debounceRun]. destruct ev as [args|].
    + cbn [debounceStep]. specialize (IH (Some args)).
      destruct (debounceRun (Some args) evs) as [t2 c2]. cbn [snd] in *.
      rewrite IH. cbn [app undisturbed]. destruct timeout; by destruct evs as [|[|] ?].
    + cbn [undisturbed]. specialize (IH None).
      destruct timeout as [args|]; cbn [debounceStep];
        destruct (debounceRun None evs) as [t2 c2]; cbn [snd] in *;
        rewrite IH; by destruct evs as [|[|] ?].
Qed.

(** X20.  The debounced callback runs exactly for the calls whose timer expires
    before the next call, with the arguments of that call and in the order
    of the calls; a call made while a timer is pending supersedes it. *)
Theorem debounce_runs_undisturbed_calls {A : Type} (evs : list (TimerEvent A)) :
  snd (debounceRun None evs) = undisturbed evs.
Proof. by rewrite debounceRun_calls. Qed.

Lemma debounceRun_burst {A : Type} (a : A) : forall (l : list A) timeout,
  debounceRun timeout (map Call l ++ [Call a; Expire]) = (None, [a]).
Proof.
  induction l as [|b l IH]; intros timeout.
  - reflexivity.
  - cbn [map app debounceRun debounceStep]. by rewrite IH.
Qed.

(** X21.  A burst of calls followed by the expiry of the timer runs the
    callback once, with the arguments of the last call, whatever timer was
    pending before, and leaves no timer pending; the expiry of a timer that
    is not pending runs nothing. *)
Theorem debounce_burst_runs_once {A : Type} (timeout : option A) (l : list A) (a : A) :
  debounceRun timeout (map Call l ++ [Call a; Expire]) = (None, [a]) /\
  debounceRun timeout (map Call l ++ [Call a; Expire; Expire]) = (None, [a]).
Proof.
  split; [apply debounceRun_burst|].
  revert timeout. induction l as [|b l IH]; intros timeout.
  - reflexivity.
  - cbn [map app debounceRun debounceStep]. by rewrite IH.
Qed.

Lemma searchRun_burst t : forall texts d timeout,
  searchRun d timeout (map TypeText texts ++ [TypeText t; TimerExpires]) =
  match onSearchInput (setSearchText t d) with
  | Some d' => Some (d', false)
  | None => None
  end.
Proof.
  induction texts as [|x texts IH]; intros d timeout.
  - cbn. by destruct (onSearchInput (setSearchText t d)).
  - cbn [map app searchRun]. rewrite IH. reflexivity.
Qed.

(** X22.  After a burst of keystrokes in the search field the handler runs
    once, when the timer expires, and the items it hides are those the last
    text hides: the texts typed before do not matter. *)
Theorem search_burst_applies_last_text
    (d : Dialog) (texts : list (list ascii)) (t : list ascii) :
  searchRun d false (map TypeText texts ++ [TypeText t; TimerExpires]) =
  match onSearchInput (setSearchText t d) with
  | Some d' => Some (d', false)
  | None => None
  end.
Proof. apply searchRun_burst. Qed.

(** ** The close icon *)

Lemma test_star_dot s : RegExp.test (mk (Star Dot) false) s = true.
Proof.
  rewrite test_tails. apply existsb_exists. exists s. split; [apply In_tails_self|].
  unfold matchAt, Star. cbn [pattern RegExp.ignoreCase compile Nat.add].
  change (compile false Dot) with (compile true Dot).
  rewrite RepeatMatcher_star_dot. by destruct s.
Qed.

Lemma imap_setHidden_false (f : nat -> ListItem -> bool) (l : list ListItem) :
  (forall i item, f i item = false) ->
  imap (fun i item => setHidden (f i item) item) l = map (setHidden false) l.
Proof.
  intros Hf. revert f Hf. induction l as [|item l IH]; intros f Hf; [reflexivity|].
  cbn [imap map]. rewrite Hf. f_equal. apply (IH (f ∘ S)). intros i it. apply Hf.
Qed.

(** X23.  The click on the close icon leaves the search text and the items as
    the search handler leaves them for an empty text, with every item shown;
    only the stored expression differs, which loses its ignore-case flag and
    still accepts every candidate. *)
Theorem close_icon_as_empty_search (d : Dialog) :
  (exists d', onSearchInput (setSearchText [] d) = Some d' /\
     plugin d' = plugin (clearSearch d) /\
     items d' = items (clearSearch d) /\
     searchIedsUI d' = searchIedsUI (clearSearch d) /\
     searchIedsRegex d' <> searchIedsRegex (clearSearch d)) /\
  Forall (fun item => hidden item = false) (items (clearSearch d)) /\
  (forall s, RegExp.test (searchIedsRegex (clearSearch d)) s = true).
Proof.
  split; [|split].
  - eexists. split; [reflexivity|]. cbn. repeat split.
    + apply imap_setHidden_false. intros i item. apply andb_false_r.
    + discriminate.
  - cbn. apply List.Forall_forall. intros item Hin. apply in_map_iff in Hin.
    destruct Hin as [it [<- _]]. reflexivity.
  - intros s. apply test_star_dot.
Qed.
